(** * The pipeline-to-DAG compiler of [kfp/compiler/compiler.py].

    A shallow embedding of the analyses and of the template synthesis of
    class [Compiler], and the properties of the specification stated over
    it.  Python dictionaries that are only read by key are [gmap]s, the
    [defaultdict(set)] tables are [gmap]s of [gset]s, the two dictionaries
    that are iterated ([pipeline.ops] and the table of groups) are
    association lists in insertion order, exceptions are the [Raise] branch
    of a result type. *)

From stdpp Require Import base option list gmap strings sorting.

Local Open Scope string_scope.
Local Open Scope list_scope.
Set Warnings "-register-all,-clear-no-such-hyp".

(** ** Exceptions *)

Inductive Error :=
| ValueError (msg : string)
| KeyError (key : string)
| IndexError
| AttributeError
| UnboundLocalError.

Inductive result (A : Type) :=
| Ok (a : A)
| Raise (e : Error).
Arguments Ok {A} a.
Arguments Raise {A} e.

Global Instance result_ret : MRet result := λ A a, Ok a.
Global Instance result_bind : MBind result := λ A B f m,
  match m with
  | Ok a => f a
  | Raise e => Raise e
  end.

(** [for x in l: st = f x st], stopping at the first exception. *)
Definition for_each {A S : Type} (f : A → S → result S)
  : list A → S → result S :=
  fix go (l : list A) (st : S) : result S :=
    match l with
    | [] => Ok st
    | x :: l' => st' ← f x st; go l' st'
    end.

(** [enumerate(l)] *)
Definition enumerate {A : Type} (l : list A) : list (nat * A) :=
  imap (λ i x, (i, x)) l.

(** ** Data model *)

(** [dsl.PipelineParam]: [op_name] and [value] may be [None]. *)
Record PipelineParam := {
  param_name : string;
  param_op_name : option string;
  param_value : option string
}.

(** Python truthiness of an optional string: [None] and [''] are false. *)
Definition truthy (o : option string) : bool :=
  match o with
  | Some s => negb (String.eqb s "")
  | None => false
  end.

(** [str(x)] of an optional string. *)
Definition str (o : option string) : string :=
  match o with
  | Some s => s
  | None => "None"
  end.

Record Volume := {
  volume_name : string;
  volume_spec : string
}.

(** The fields of a [BaseOp] that the compiler reads. *)
Record Op := {
  op_name : string;
  op_inputs : list PipelineParam;
  op_dependent_names : list string;
  op_is_exit_handler : bool;
  op_volumes : list Volume
}.

(** An operand of a condition: a [PipelineParam] or a plain value, kept as
    its [str] form. *)
Inductive Operand :=
| OperandParam (p : PipelineParam)
| OperandValue (s : string).

Record Condition := {
  operand1 : Operand;
  operator : string;
  operand2 : Operand
}.

(** [OpsGroup.type], with the payload that goes with it. *)
Inductive GroupType :=
| type_pipeline
| type_condition (c : Condition)
| type_exit_handler (exit_op : Op)
| type_other (t : string).

(** What the compiler reads of the group a [recursive_ref] points to. *)
Record GroupRef := {
  ref_name : string;
  ref_inputs : list PipelineParam
}.

(** [OpsGroup].  [group_dependencies] holds the names of the entries of
    [dependencies]; [group_recursive_ref] is [None] for a group that is
    not a recursive call. *)
Inductive Group := mkGroup {
  group_name : string;
  group_type : GroupType;
  group_groups : list Group;
  group_ops : list Op;
  group_recursive_ref : option GroupRef;
  group_inputs : list PipelineParam;
  group_dependencies : list string
}.

Definition is_recursive (g : Group) : bool :=
  match group_recursive_ref g with
  | Some _ => true
  | None => false
  end.

Record PipelineConf := {
  image_pull_secrets : list string;
  timeout : nat
}.

(** [dsl.Pipeline]: [groups[0]] is the root group, [ops] the dictionary of
    ops by name, in insertion order. *)
Record Pipeline := {
  pipeline_name : option string;
  pipeline_root : Group;
  pipeline_ops : list (string * Op);
  pipeline_conf : PipelineConf
}.

(** ** Ordered dictionaries *)

Fixpoint dict_get {V : Type} (d : list (string * V)) (k : string) : option V :=
  match d with
  | [] => None
  | (k', v) :: d' => if String.eqb k' k then Some v else dict_get d' k
  end.

(** [d[k] = v]: an existing key keeps its place. *)
Fixpoint dict_set {V : Type} (d : list (string * V)) (k : string) (v : V)
  : list (string * V) :=
  match d with
  | [] => [(k, v)]
  | (k', v') :: d' =>
      if String.eqb k' k then (k', v) :: d' else (k', v') :: dict_set d' k v
  end.

(** [d.update(e)] *)
Definition dict_update {V : Type} (d e : list (string * V)) : list (string * V) :=
  fold_left (λ acc kv, dict_set acc kv.1 kv.2) e d.

(** [d[k]], raising [KeyError]. *)
Definition dict_item {V : Type} (d : list (string * V)) (k : string) : result V :=
  match dict_get d k with
  | Some v => Ok v
  | None => Raise (KeyError k)
  end.

(** ** Parameter names *)

Definition _pipelineparam_full_name (param : PipelineParam) : string :=
  if truthy (param_op_name param)
  then str (param_op_name param) +:+ "-" +:+ param_name param
  else param_name param.

(** ** Tree walker *)

(** [current_groups] are the names of the groups on the stack, the group
    being visited last. *)
Fixpoint _get_op_groups_helper (current_groups : list string) (root_group : Group)
    (ops_to_groups : gmap string (list string)) : gmap string (list string) :=
  let after_groups :=
    fold_left
      (λ m g,
         if is_recursive g
         then <[group_name g := current_groups ++ [group_name g]]> m
         else _get_op_groups_helper (current_groups ++ [group_name g]) g m)
      (group_groups root_group) ops_to_groups in
  fold_left
    (λ m op, <[op_name op := current_groups ++ [op_name op]]> m)
    (group_ops root_group) after_groups.

Definition _get_groups_for_ops (root_group : Group) : gmap string (list string) :=
  _get_op_groups_helper [group_name root_group] root_group ∅.

Fixpoint _get_opsgroup_groups_helper (current_groups : list string)
    (root_group : Group) (opsgroups_to_groups : gmap string (list string))
  : gmap string (list string) :=
  fold_left
    (λ m g,
       if is_recursive g
       then m
       else _get_opsgroup_groups_helper (current_groups ++ [group_name g]) g
              (<[group_name g := current_groups ++ [group_name g]]> m))
    (group_groups root_group) opsgroups_to_groups.

Definition _get_groups_for_opsgroups (root_group : Group)
  : gmap string (list string) :=
  _get_opsgroup_groups_helper [group_name root_group] root_group ∅.

Fixpoint _get_groups_helper (group : Group) : list (string * Group) :=
  fold_left
    (λ groups g,
       if is_recursive g
       then groups
       else dict_update groups (_get_groups_helper g))
    (group_groups group) [(group_name group, group)].

Definition _get_groups (root_group : Group) : list (string * Group) :=
  _get_groups_helper root_group.

(** ** Uncommon ancestors *)

(** [sum(1 for x in zip(a, b) if x == (x[0],)*len(x))]: the number of
    positions at which the two lists agree. *)
Fixpoint common_groups_len (a b : list string) : nat :=
  match a, b with
  | x :: a', y :: b' =>
      (if String.eqb x y then 1 else 0) + common_groups_len a' b'
  | _, _ => 0
  end.

(** The two entities are passed by the only field that is read, their
    name. *)
Definition _get_uncommon_ancestors (op_groups opsgroup_groups : gmap string (list string))
    (op1 op2 : string) : result (list string * list string) :=
  op1_groups ←
    match op_groups !! op1 with
    | Some l => Ok l
    | None =>
        match opsgroup_groups !! op1 with
        | Some l => Ok l
        | None => Raise (ValueError (op1 +:+ " does not exist."))
        end
    end;
  op2_groups ←
    match op_groups !! op2 with
    | Some l => Ok l
    | None =>
        match opsgroup_groups !! op2 with
        | Some l => Ok l
        | None => Raise (ValueError (op1 +:+ " does not exist."))
        end
    end;
  let n := common_groups_len op1_groups op2_groups in
  Ok (drop n op1_groups, drop n op2_groups).

(** ** Tables of sets *)

(** An entry [(param_name, producing_op_name)] of the tables [inputs] and
    [outputs]; the second component is [None] for Python's [None]. *)
Abbreviation Ref := (string * option string)%type.

Global Instance PipelineParam_eq_dec : EqDecision PipelineParam.
Proof. solve_decision. Defined.

Global Instance PipelineParam_countable : Countable PipelineParam.
Proof.
  refine (inj_countable'
            (λ p, (param_name p, param_op_name p, param_value p))
            (λ t, {| param_name := t.1.1; param_op_name := t.1.2;
                     param_value := t.2 |}) _).
  by intros [].
Defined.

(** [table[k]] of a [defaultdict(set)]. *)
Definition table_get `{Countable A} (table : gmap string (gset A)) (k : string)
  : gset A :=
  default ∅ (table !! k).

(** [table[k].add(x)] *)
Definition table_add `{Countable A} (table : gmap string (gset A)) (k : string)
    (x : A) : gmap string (gset A) :=
  <[k := {[x]} ∪ table_get table k]> table.

(** The order in which a run iterates over each of its sets.  Python fixes
    no order for a set of strings or of tuples of strings: it changes with
    the hash seed of the process.  Every set of a run is named by the table
    it belongs to and its key. *)
Record SetOrder := {
  order_conditions : string → gset PipelineParam → list PipelineParam;
  order_upstream_ops : string → gset string → list string;
  order_upstream_groups : string → gset string → list string;
  order_inputs : string → gset Ref → list Ref;
  order_outputs : string → gset Ref → list Ref;
  order_dependencies : string → gset string → list string
}.

(** An order lists the elements of the set, each once. *)
Record order_valid (ord : SetOrder) : Prop := {
  valid_conditions : ∀ k s, order_conditions ord k s ≡ₚ elements s;
  valid_upstream_ops : ∀ k s, order_upstream_ops ord k s ≡ₚ elements s;
  valid_upstream_groups : ∀ k s, order_upstream_groups ord k s ≡ₚ elements s;
  valid_inputs : ∀ k s, order_inputs ord k s ≡ₚ elements s;
  valid_outputs : ∀ k s, order_outputs ord k s ≡ₚ elements s;
  valid_dependencies : ∀ k s, order_dependencies ord k s ≡ₚ elements s
}.

(** ** Condition propagator *)

Definition operand_params (o : Operand) : list PipelineParam :=
  match o with
  | OperandParam p => [p]
  | OperandValue _ => []
  end.

(** What a set tells two [dsl.PipelineParam] apart by: the hash of a
    parameter is that of [(op_name, name)], and [==] between parameters
    builds a condition, which is true. *)
Definition param_key (param : PipelineParam) : option string * string :=
  (param_op_name param, param_name param).

(** [conditions[name].add(param)]: the set keeps the parameter it holds
    when that one has the key of [param]. *)
Definition conditions_add (conditions : gmap string (gset PipelineParam))
    (name : string) (param : PipelineParam)
  : gmap string (gset PipelineParam) :=
  if decide (param_key param
               ∈ param_key <$> elements (table_get conditions name))
  then conditions
  else table_add conditions name param.

Definition add_conditions (name : string) (params : list PipelineParam)
    (conditions : gmap string (gset PipelineParam))
  : gmap string (gset PipelineParam) :=
  fold_left (λ m param, conditions_add m name param) params conditions.

Fixpoint _get_condition_params_for_ops_helper (group : Group)
    (current_conditions_params : list PipelineParam)
    (conditions : gmap string (gset PipelineParam))
  : gmap string (gset PipelineParam) :=
  let new_current_conditions_params :=
    match group_type group with
    | type_condition c =>
        current_conditions_params
          ++ operand_params (operand1 c) ++ operand_params (operand2 c)
    | _ => current_conditions_params
    end in
  let after_ops :=
    fold_left
      (λ m op, add_conditions (op_name op) new_current_conditions_params m)
      (group_ops group) conditions in
  fold_left
    (λ m g,
       if is_recursive g
       then add_conditions (group_name g) new_current_conditions_params m
       else _get_condition_params_for_ops_helper g new_current_conditions_params m)
    (group_groups group) after_ops.

Definition _get_condition_params_for_ops (root_group : Group)
  : gmap string (gset PipelineParam) :=
  _get_condition_params_for_ops_helper root_group [] ∅.

(** ** Input/output lifter *)

(** [upstream_groups[0]] *)
Definition first_group (groups : list string) : result string :=
  match groups !! 0 with
  | Some g => Ok g
  | None => Raise IndexError
  end.

(** Lines 211-218: the input of the downstream group [g] at index [i]. *)
Definition downstream_step (full_name : string) (upstream_groups : list string)
    (entry : nat * string) (inputs : gmap string (gset Ref))
  : result (gmap string (gset Ref)) :=
  let '(i, g) := entry in
  if decide (i = 0)
  then u ← first_group upstream_groups;
       Ok (table_add inputs g (full_name, Some u))
  else Ok (table_add inputs g (full_name, None)).

(** Lines 210-218: the inputs of the downstream groups of an op. *)
Definition lift_downstream (full_name : string)
    (upstream_groups downstream_groups : list string)
    (inputs : gmap string (gset Ref)) : result (gmap string (gset Ref)) :=
  for_each (downstream_step full_name upstream_groups)
    (enumerate downstream_groups) inputs.

(** Lines 220-225 and 255-258: the output of the upstream group [g] at
    index [i]. *)
Definition upstream_step (full_name : string) (upstream_groups : list string)
    (entry : nat * string) (outputs : gmap string (gset Ref))
  : result (gmap string (gset Ref)) :=
  let '(i, g) := entry in
  if decide (i = length upstream_groups - 1)
  then Ok (table_add outputs g (full_name, None))
  else match upstream_groups !! (i + 1) with
       | Some u => Ok (table_add outputs g (full_name, Some u))
       | None => Raise IndexError
       end.

(** Lines 219-225 and 254-258: the outputs of the upstream groups. *)
Definition lift_upstream (full_name : string) (upstream_groups : list string)
    (outputs : gmap string (gset Ref)) : result (gmap string (gset Ref)) :=
  for_each (upstream_step full_name upstream_groups)
    (enumerate upstream_groups) outputs.

(** Lines 246-253: the input of the downstream group [g] at index [i], for
    a recursive group. *)
Definition downstream_recursive_step (full_name : string)
    (upstream_groups downstream_groups : list string) (is_condition_param : bool)
    (entry : nat * string) (inputs : gmap string (gset Ref))
  : result (gmap string (gset Ref)) :=
  let '(i, g) := entry in
  if decide (i = 0)
  then u ← first_group upstream_groups;
       Ok (table_add inputs g (full_name, Some u))
  else if bool_decide (i = length downstream_groups - 1) && is_condition_param
  then Ok inputs
  else Ok (table_add inputs g (full_name, None)).

(** Lines 245-253: the inputs of the downstream groups of a recursive
    group. *)
Definition lift_downstream_recursive (full_name : string)
    (upstream_groups downstream_groups : list string) (is_condition_param : bool)
    (inputs : gmap string (gset Ref)) : result (gmap string (gset Ref)) :=
  for_each
    (downstream_recursive_step full_name upstream_groups downstream_groups
       is_condition_param)
    (enumerate downstream_groups) inputs.

(** Lines 228-229 and 260-261: an input on every group of the list. *)
Definition lift_pipeline_param (full_name : string) (groups : list string)
    (inputs : gmap string (gset Ref)) : gmap string (gset Ref) :=
  fold_left (λ inputs g, table_add inputs g (full_name, None)) groups inputs.

(** [op_groups[name]] *)
Definition groups_item (op_groups : gmap string (list string)) (name : string)
  : result (list string) :=
  match op_groups !! name with
  | Some l => Ok l
  | None => Raise (KeyError name)
  end.

(** Lines 201-229: the body of the loop over the parameters of [op]. *)
Definition lift_op_param (ops : list (string * Op))
    (op_groups opsgroup_groups : gmap string (list string))
    (op : Op) (param : PipelineParam)
    (st : gmap string (gset Ref) * gmap string (gset Ref))
  : result (gmap string (gset Ref) * gmap string (gset Ref)) :=
  if truthy (param_value param) then Ok st
  else
    let full_name := _pipelineparam_full_name param in
    if truthy (param_op_name param)
    then
      upstream_op ← dict_item ops (str (param_op_name param));
      '(upstream_groups, downstream_groups) ←
        _get_uncommon_ancestors op_groups opsgroup_groups
          (op_name upstream_op) (op_name op);
      inputs ← lift_downstream full_name upstream_groups downstream_groups st.1;
      outputs ← lift_upstream full_name upstream_groups st.2;
      Ok (inputs, outputs)
    else if negb (op_is_exit_handler op)
    then
      groups ← groups_item op_groups (op_name op);
      Ok (lift_pipeline_param full_name groups st.1, st.2)
    else Ok st.

(** Lines 238-261: the body of the loop over the parameters of a
    recursive [group]. *)
Definition lift_recursive_param (ops : list (string * Op))
    (op_groups opsgroup_groups : gmap string (list string)) (group : Group)
    (param_flag : PipelineParam * bool)
    (st : gmap string (gset Ref) * gmap string (gset Ref))
  : result (gmap string (gset Ref) * gmap string (gset Ref)) :=
  let '(param, is_condition_param) := param_flag in
  if truthy (param_value param) then Ok st
  else
    let full_name := _pipelineparam_full_name param in
    if truthy (param_op_name param)
    then
      upstream_op ← dict_item ops (str (param_op_name param));
      '(upstream_groups, downstream_groups) ←
        _get_uncommon_ancestors op_groups opsgroup_groups
          (op_name upstream_op) (group_name group);
      inputs ← lift_downstream_recursive full_name upstream_groups
                  downstream_groups is_condition_param st.1;
      outputs ← lift_upstream full_name upstream_groups st.2;
      Ok (inputs, outputs)
    else if negb is_condition_param
    then
      groups ← groups_item op_groups (group_name group);
      Ok (lift_pipeline_param full_name groups st.1, st.2)
    else Ok st.

(** [op.inputs + list(condition_params[op.name])] *)
Definition op_params (ord : SetOrder)
    (condition_params : gmap string (gset PipelineParam)) (op : Op)
  : list PipelineParam :=
  op_inputs op
    ++ order_conditions ord (op_name op) (table_get condition_params (op_name op)).

(** Lines 235-236: the parameters of a recursive group, each with the flag
    that says whether it comes from the conditions. *)
Definition recursive_params (ord : SetOrder)
    (condition_params : gmap string (gset PipelineParam)) (group : Group)
  : list (PipelineParam * bool) :=
  map (λ param, (param, false)) (group_inputs group)
    ++ map (λ param, (param, true))
         (order_conditions ord (group_name group)
            (table_get condition_params (group_name group))).

Fixpoint _get_inputs_outputs_recursive_opsgroup (ord : SetOrder)
    (ops : list (string * Op))
    (op_groups opsgroup_groups : gmap string (list string))
    (condition_params : gmap string (gset PipelineParam)) (group : Group)
    (st : gmap string (gset Ref) * gmap string (gset Ref))
  : result (gmap string (gset Ref) * gmap string (gset Ref)) :=
  st1 ← (if is_recursive group
         then for_each (lift_recursive_param ops op_groups opsgroup_groups group)
                (recursive_params ord condition_params group) st
         else Ok st);
  for_each
    (λ subgroup st,
       _get_inputs_outputs_recursive_opsgroup ord ops op_groups opsgroup_groups
         condition_params subgroup st)
    (group_groups group) st1.

Definition _get_inputs_outputs (ord : SetOrder) (pipeline : Pipeline)
    (root_group : Group) (op_groups opsgroup_groups : gmap string (list string))
    (condition_params : gmap string (gset PipelineParam))
  : result (gmap string (gset Ref) * gmap string (gset Ref)) :=
  st ← for_each
         (λ op st,
            for_each
              (lift_op_param (pipeline_ops pipeline) op_groups opsgroup_groups op)
              (op_params ord condition_params op) st)
         (pipeline_ops pipeline).*2 (∅, ∅);
  _get_inputs_outputs_recursive_opsgroup ord (pipeline_ops pipeline) op_groups
    opsgroup_groups condition_params root_group st.

(** ** Dependency lifter *)

(** Lines 294-296 and 316-318:
    [dependencies[downstream_groups[0]].add(upstream_groups[0])]. *)
Definition add_dependency (op_groups opsgroups_groups : gmap string (list string))
    (upstream downstream : string) (dependencies : gmap string (gset string))
  : result (gmap string (gset string)) :=
  '(upstream_groups, downstream_groups) ←
    _get_uncommon_ancestors op_groups opsgroups_groups upstream downstream;
  d ← first_group downstream_groups;
  u ← first_group upstream_groups;
  Ok (table_add dependencies d u).

(** The [op_name]s of the parameters that have one. *)
Definition producer_names (params : list PipelineParam) : gset string :=
  list_to_set
    (omap (λ param, if truthy (param_op_name param)
                    then param_op_name param else None) params).

(** Lines 279-283 *)
Definition op_upstream_op_names (ord : SetOrder)
    (condition_params : gmap string (gset PipelineParam)) (op : Op) : gset string :=
  producer_names (op_params ord condition_params op)
    ∪ list_to_set (op_dependent_names op).

(** Lines 287-292: the name of the op or group that [name] denotes. *)
Definition find_upstream_of_op (ops : list (string * Op))
    (opsgroups : list (string * Group)) (name : string) : result string :=
  match dict_get ops name with
  | Some upstream_op => Ok (op_name upstream_op)
  | None =>
      match dict_get opsgroups name with
      | Some upstream_op => Ok (group_name upstream_op)
      | None => Raise (ValueError ("compiler cannot find the " +:+ name))
      end
  end.

(** Lines 301-307 *)
Definition group_upstream_op_names (ord : SetOrder)
    (condition_params : gmap string (gset PipelineParam)) (group : Group)
  : gset string :=
  if is_recursive group
  then producer_names
         (group_inputs group
            ++ order_conditions ord (group_name group)
                 (table_get condition_params (group_name group)))
  else list_to_set (group_dependencies group).

(** Lines 310-315.  In the second branch [upstream_op] is bound to an entry
    of [opsgroups_groups], a list of names, and the read of its [name] at
    the head of [_get_uncommon_ancestors] raises. *)
Definition find_upstream_of_group (ops : list (string * Op))
    (opsgroups_groups : gmap string (list string)) (name : string)
  : result string :=
  match dict_get ops name with
  | Some upstream_op => Ok (op_name upstream_op)
  | None =>
      match opsgroups_groups !! name with
      | Some _ => Raise AttributeError
      | None => Raise (ValueError ("compiler cannot find the " +:+ name))
      end
  end.

Fixpoint _get_dependency_opsgroup (ord : SetOrder) (ops : list (string * Op))
    (op_groups opsgroups_groups : gmap string (list string))
    (condition_params : gmap string (gset PipelineParam)) (group : Group)
    (dependencies : gmap string (gset string))
  : result (gmap string (gset string)) :=
  deps1 ←
    for_each
      (λ name deps,
         upstream ← find_upstream_of_group ops opsgroups_groups name;
         add_dependency op_groups opsgroups_groups upstream (group_name group) deps)
      (order_upstream_groups ord (group_name group)
         (group_upstream_op_names ord condition_params group))
      dependencies;
  for_each
    (λ subgroup deps,
       _get_dependency_opsgroup ord ops op_groups opsgroups_groups
         condition_params subgroup deps)
    (group_groups group) deps1.

Definition _get_dependencies (ord : SetOrder) (pipeline : Pipeline)
    (root_group : Group) (op_groups opsgroups_groups : gmap string (list string))
    (opsgroups : list (string * Group))
    (condition_params : gmap string (gset PipelineParam))
  : result (gmap string (gset string)) :=
  deps ←
    for_each
      (λ op deps,
         for_each
           (λ name deps,
              upstream ← find_upstream_of_op (pipeline_ops pipeline) opsgroups name;
              add_dependency op_groups opsgroups_groups upstream (op_name op) deps)
           (order_upstream_ops ord (op_name op)
              (op_upstream_op_names ord condition_params op))
           deps)
      (pipeline_ops pipeline).*2 ∅;
  _get_dependency_opsgroup ord (pipeline_ops pipeline) op_groups opsgroups_groups
    condition_params root_group deps.

(** ** Reference resolver *)

Definition input_reference (parameter_name : string) : string :=
  "{{inputs.parameters." +:+ parameter_name +:+ "}}".

Definition task_reference (task_name parameter_name : string) : string :=
  "{{tasks." +:+ task_name +:+ ".outputs.parameters." +:+ parameter_name +:+ "}}".

(** [potential_references] is the set of inputs of the group, in the order
    in which the run iterates over it. *)
Definition _resolve_value_or_reference (value_or_reference : Operand)
    (potential_references : list Ref) : string :=
  match value_or_reference with
  | OperandParam p =>
      let parameter_name := _pipelineparam_full_name p in
      let task_names :=
        (filter (λ r : Ref, r.1 = parameter_name) potential_references).*2 in
      match task_names with
      | task_name :: _ =>
          match task_name with
          | None => input_reference parameter_name
          | Some t => task_reference t parameter_name
          end
      | [] => input_reference parameter_name
      end
  | OperandValue s => s
  end.

(** ** Sorting *)

(** [list.sort(key=...)] is stable: entries with equal keys keep their
    order. *)
Fixpoint insert_by {A : Type} (key : A → string) (x : A) (l : list A) : list A :=
  match l with
  | [] => [x]
  | y :: l' =>
      if String.leb (key x) (key y) then x :: y :: l' else y :: insert_by key x l'
  end.

Definition sort_by {A : Type} (key : A → string) (l : list A) : list A :=
  foldr (insert_by key) [] l.

(** ** Template synthesizer *)

Record ParameterEntry := {
  entry_name : string;
  entry_value : string
}.

Record Task := {
  task_name : string;
  task_template : string;
  task_when : option string;
  task_dependencies : option (list string);
  task_arguments : option (list ParameterEntry)
}.

(** The template of a group.  [template_outputs] holds each output with its
    [valueFrom.parameter]. *)
Record DagTemplate := {
  template_name : string;
  template_inputs : option (list string);
  template_outputs : option (list ParameterEntry);
  template_tasks : list Task
}.

(** A template of the manifest: that of a group, or whatever the op handler
    returns, of which the compiler reads the name. *)
Inductive Template :=
| GroupTemplate (t : DagTemplate)
| OpTemplate (name : string) (body : string).

Definition name_of_template (t : Template) : string :=
  match t with
  | GroupTemplate t => template_name t
  | OpTemplate name _ => name
  end.

(** [group.groups + group.ops] *)
Inductive SubGroup :=
| SubOpsGroup (g : Group)
| SubOp (op : Op).

Definition sub_groups (group : Group) : list SubGroup :=
  map SubOpsGroup (group_groups group) ++ map SubOp (group_ops group).

Definition sub_group_name (sub_group : SubGroup) : string :=
  match sub_group with
  | SubOpsGroup g => group_name g
  | SubOp op => op_name op
  end.

(** [sub_group.recursive_ref] when [sub_group] is a recursive [OpsGroup]. *)
Definition recursive_subgroup (sub_group : SubGroup)
  : option (Group * GroupRef) :=
  match sub_group with
  | SubOpsGroup g =>
      match group_recursive_ref g with
      | Some ref => Some (g, ref)
      | None => None
      end
  | SubOp _ => None
  end.

(** Lines 413-415 and 431-433: the value of [index] after
    [for index, input in enumerate(sub_group.inputs)], which stops at the
    first input of that name.  The variable is local to
    [_group_to_template]: over an empty list it keeps the value it had. *)
Definition search_input (sub_group_inputs : list PipelineParam)
    (param_name : string) (index : option nat) : option nat :=
  match list_find (λ input, param_name = _pipelineparam_full_name input)
          sub_group_inputs with
  | Some (i, _) => Some i
  | None =>
      match sub_group_inputs with
      | [] => index
      | _ => Some (length sub_group_inputs - 1)
      end
  end.

(** [sub_group.recursive_ref.inputs[index]] *)
Definition referenced_input (ref : GroupRef) (index : option nat)
  : result PipelineParam :=
  match index with
  | None => Raise UnboundLocalError
  | Some i =>
      match ref_inputs ref !! i with
      | Some p => Ok p
      | None => Raise IndexError
      end
  end.

(** Lines 409-444: the argument of one entry of [inputs[sub_group.name]].
    The state is the list of arguments and the variable [index]. *)
Definition add_argument (sub_group : SubGroup) (entry : Ref)
    (st : list ParameterEntry * option nat) : result (list ParameterEntry * option nat) :=
  let '(param_name, dependent_name) := entry in
  let '(arguments, index) := st in
  let value :=
    if truthy dependent_name
    then task_reference (str dependent_name) param_name
    else input_reference param_name in
  match recursive_subgroup sub_group with
  | Some (g, ref) =>
      let index := search_input (group_inputs g) param_name index in
      referenced_input ← referenced_input ref index;
      Ok (arguments
            ++ [{| entry_name := _pipelineparam_full_name referenced_input;
                   entry_value := value |}], index)
  | None =>
      Ok (arguments
            ++ [{| entry_name := param_name; entry_value := value |}],
          index)
  end.

(** [inputs.get(name, None)], [None] when the entry is absent or empty. *)
Definition table_lookup `{Countable A} (table : gmap string (gset A))
    (name : string) : option (gset A) :=
  match table !! name with
  | Some s => if decide (s = ∅) then None else Some s
  | None => None
  end.

(** Lines 379-447: the task of one child.  [index] is threaded through. *)
Definition sub_group_task (ord : SetOrder)
    (inputs : gmap string (gset Ref)) (dependencies : gmap string (gset string))
    (sub_group : SubGroup) (index : option nat) : result (Task * option nat) :=
  let name :=
    match recursive_subgroup sub_group with
    | Some (_, ref) => ref_name ref
    | None => sub_group_name sub_group
    end in
  let when :=
    match sub_group with
    | SubOpsGroup g =>
        match group_type g with
        | type_condition condition =>
            let subgroup_inputs :=
              match inputs !! group_name g with
              | Some s => order_inputs ord (group_name g) s
              | None => []
              end in
            let operand1_value :=
              _resolve_value_or_reference (operand1 condition) subgroup_inputs in
            let operand2_value :=
              _resolve_value_or_reference (operand2 condition) subgroup_inputs in
            Some (operand1_value +:+ " " +:+ operator condition +:+ " "
                    +:+ operand2_value)
        | _ => None
        end
    | SubOp _ => None
    end in
  let group_dependencies :=
    match table_lookup dependencies (sub_group_name sub_group) with
    | Some s =>
        Some (sort_by id (order_dependencies ord (sub_group_name sub_group) s))
    | None => None
    end in
  '(arguments, index) ←
    match table_lookup inputs (sub_group_name sub_group) with
    | Some s =>
        '(arguments, index) ←
          for_each (add_argument sub_group)
            (order_inputs ord (sub_group_name sub_group) s) ([], index);
        Ok (Some (sort_by entry_name arguments), index)
    | None => Ok (None, index)
    end;
  Ok ({| task_name := name; task_template := name; task_when := when;
         task_dependencies := group_dependencies;
         task_arguments := arguments |}, index).

(** The loop over the children, collecting the tasks. *)
Definition sub_group_tasks (ord : SetOrder)
    (inputs : gmap string (gset Ref)) (dependencies : gmap string (gset string))
    (subs : list SubGroup) : result (list Task * option nat) :=
  for_each
    (λ sub_group '(tasks, index),
       '(task, index) ← sub_group_task ord inputs dependencies sub_group index;
       Ok (tasks ++ [task], index))
    subs ([], None).

Definition _group_to_template (ord : SetOrder) (group : Group)
    (inputs outputs : gmap string (gset Ref))
    (dependencies : gmap string (gset string)) : result DagTemplate :=
  let template_inputs :=
    match table_lookup inputs (group_name group) with
    | Some s =>
        Some (sort_by id (order_inputs ord (group_name group) s).*1)
    | None => None
    end in
  let template_outputs :=
    match table_lookup outputs (group_name group) with
    | Some s =>
        Some (sort_by entry_name
                (map (λ '(param_name, dependent_name),
                        {| entry_name := param_name;
                           entry_value :=
                             task_reference (str dependent_name) param_name |})
                   (order_outputs ord (group_name group) s)))
    | None => None
    end in
  '(tasks, _) ← sub_group_tasks ord inputs dependencies (sub_groups group);
  Ok {| template_name := group_name group;
        template_inputs := template_inputs;
        template_outputs := template_outputs;
        template_tasks := sort_by task_name tasks |}.

(** ** Workflow assembler *)

(** The collaborators of the compiler that are not part of this file. *)
Record Collaborators := {
  _op_to_template : Op → Template;
  convert_k8s_obj_to_json : string → string
}.

(** The transformers are applied to the ops of [pipeline.ops]; the groups
    hold the same ops, of which the analyses read the name only, and a
    transformer is taken not to rename an op. *)
Definition apply_transformers (op_transformers : list (Op → Op))
    (ops : list (string * Op)) : list (string * Op) :=
  map (λ '(k, op), (k, fold_left (λ op transformer, transformer op) op_transformers op))
    ops.

Definition _create_templates (ord : SetOrder) (ext : Collaborators)
    (pipeline : Pipeline) (op_transformers : list (Op → Op))
  : result (list Template) :=
  let new_root_group := pipeline_root pipeline in
  let pipeline :=
    {| pipeline_name := pipeline_name pipeline;
       pipeline_root := pipeline_root pipeline;
       pipeline_ops := apply_transformers op_transformers (pipeline_ops pipeline);
       pipeline_conf := pipeline_conf pipeline |} in
  let opsgroups := _get_groups new_root_group in
  let op_groups := _get_groups_for_ops new_root_group in
  let opsgroups_groups := _get_groups_for_opsgroups new_root_group in
  let condition_params := _get_condition_params_for_ops new_root_group in
  '(inputs, outputs) ←
    _get_inputs_outputs ord pipeline new_root_group op_groups opsgroups_groups
      condition_params;
  dependencies ←
    _get_dependencies ord pipeline new_root_group op_groups opsgroups_groups
      opsgroups condition_params;
  templates ←
    for_each
      (λ '(_, opsgroup) templates,
         template ← _group_to_template ord opsgroup inputs outputs dependencies;
         Ok (templates ++ [GroupTemplate template]))
      opsgroups [];
  Ok (templates ++ map (_op_to_template ext) (pipeline_ops pipeline).*2).

(** Lines 501-508: the volumes of the ops, the first of each name. *)
Definition _create_volumes (pipeline : Pipeline) : list Volume :=
  let '(volumes, _) :=
    fold_left
      (λ '(volumes, volume_name_set) v,
         if decide (volume_name v ∈ (volume_name_set : gset string))
         then (volumes, volume_name_set)
         else (volumes ++ [v], {[volume_name v]} ∪ volume_name_set))
      (concat (map op_volumes (pipeline_ops pipeline).*2))
      ([], ∅) in
  sort_by volume_name volumes.

Record InputParam := {
  input_name : string;
  input_value : option string
}.

Record Workflow := {
  apiVersion : string;
  kind : string;
  generateName : string;
  entrypoint : string;
  templates : list Template;
  arguments : list InputParam;
  serviceAccountName : string;
  imagePullSecrets : option (list string);
  activeDeadlineSeconds : option nat;
  onExit : option string;
  volumes : option (list Volume)
}.

(** Lines 528-532 *)
Definition exit_handler_of (pipeline : Pipeline) : option Op :=
  match group_groups (pipeline_root pipeline) with
  | first_group :: _ =>
      match group_type first_group with
      | type_exit_handler exit_op => Some exit_op
      | _ => None
      end
  | [] => None
  end.

(** [_create_templates] applies the transformers to the ops in place, before
    anything of it can raise: the volumes, read at line 535, are those of
    the ops as the transformers left them. *)
Definition _create_pipeline_workflow (ord : SetOrder) (ext : Collaborators)
    (args : list PipelineParam) (pipeline : Pipeline)
    (op_transformers : list (Op → Op)) : result Workflow :=
  let input_params :=
    map (λ arg, {| input_name := param_name arg; input_value := param_value arg |})
      args in
  templates ← _create_templates ord ext pipeline op_transformers;
  let templates := sort_by name_of_template templates in
  let exit_handler := exit_handler_of pipeline in
  let volumes :=
    _create_volumes
      {| pipeline_name := pipeline_name pipeline;
         pipeline_root := pipeline_root pipeline;
         pipeline_ops :=
           apply_transformers op_transformers (pipeline_ops pipeline);
         pipeline_conf := pipeline_conf pipeline |} in
  let pipeline_name :=
    if truthy (pipeline_name pipeline) then str (pipeline_name pipeline)
    else "Pipeline" in
  Ok {| apiVersion := "argoproj.io/v1alpha1";
        kind := "Workflow";
        generateName := pipeline_name +:+ "-";
        entrypoint := pipeline_name;
        templates := templates;
        arguments := input_params;
        serviceAccountName := "pipeline-runner";
        imagePullSecrets :=
          match image_pull_secrets (pipeline_conf pipeline) with
          | [] => None
          | secrets => Some (map (convert_k8s_obj_to_json ext) secrets)
          end;
        activeDeadlineSeconds :=
          match timeout (pipeline_conf pipeline) with
          | 0 => None
          | t => Some t
          end;
        onExit := op_name <$> exit_handler;
        volumes :=
          match volumes with
          | [] => None
          | _ => Some volumes
          end |}.

(** ** Exit handler validation *)

(** [exiting_op_names] is one list, extended in place by every call;
    [handler_exists] is a local of each call. *)
Fixpoint _validate_exit_handler_helper (group : Group)
    (exiting_op_names : list string) (handler_exists : bool)
  : result (list string) :=
  handler_exists ←
    match group_type group with
    | type_exit_handler _ =>
        if handler_exists || Nat.ltb 1 (length exiting_op_names)
        then Raise (ValueError
               "Only one global exit_handler is allowed and all ops need to be included.")
        else Ok true
    | _ => Ok handler_exists
    end;
  for_each
    (λ g names, _validate_exit_handler_helper g names handler_exists)
    (group_groups group)
    (exiting_op_names ++ map op_name (group_ops group)).

Definition _validate_exit_handler (pipeline : Pipeline) : result unit :=
  _ ← _validate_exit_handler_helper (pipeline_root pipeline) [] false;
  Ok ().

(** Lines 607-656 of [_compile], for a pipeline that the pipeline function
    has built and whose names are sanitized already: the validation, then
    the workflow. *)
Definition _compile (ord : SetOrder) (ext : Collaborators)
    (args_list_with_defaults : list PipelineParam) (p : Pipeline)
    (op_transformers : list (Op → Op)) : result Workflow :=
  _ ← _validate_exit_handler p;
  _create_pipeline_workflow ord ext args_list_with_defaults p op_transformers.

(** ** Growth of the tables *)

(** Every set of [t1] is included in the set of [t2] at the same key. *)
Definition table_le `{Countable A} (t1 t2 : gmap string (gset A)) : Prop :=
  ∀ k, table_get t1 k ⊆ table_get t2 k.

(** What a step that adds entries named [F] leaves of a table: the old
    entries, and new ones that all bear the name [F]. *)
Definition extends_with (F : string) (t t' : gmap string (gset Ref)) : Prop :=
  table_le t t' ∧ ∀ g r, r ∈ table_get t' g → r ∈ table_get t g ∨ r.1 = F.

(** The same for the pair of the tables [inputs] and [outputs]. *)
Definition state_extends (F : string)
    (st st' : gmap string (gset Ref) * gmap string (gset Ref)) : Prop :=
  extends_with F st.1 st'.1 ∧ extends_with F st.2 st'.2.

Definition state_le (st st' : gmap string (gset Ref) * gmap string (gset Ref))
  : Prop :=
  table_le st.1 st'.1 ∧ table_le st.2 st'.2.

(** Every entry of the two tables bears a name that satisfies [Q]. *)
Definition names_in (Q : string → Prop)
    (st : gmap string (gset Ref) * gmap string (gset Ref)) : Prop :=
  ∀ g r, r ∈ table_get st.1 g ∨ r ∈ table_get st.2 g → Q r.1.

(** The groups of the tree of [g], [g] first. *)
Fixpoint all_groups (g : Group) : list Group :=
  g :: (group_groups g ≫= all_groups).

(** The parameters that the lifter walks: those of the ops of
    [pipeline.ops], and those of the recursive groups of the tree. *)
Definition lifted_param (ord : SetOrder) (pipeline : Pipeline) (root : Group)
    (condition_params : gmap string (gset PipelineParam)) (param : PipelineParam)
  : Prop :=
  (∃ op, op ∈ (pipeline_ops pipeline).*2
         ∧ param ∈ op_params ord condition_params op)
  ∨ (∃ group flag,
       group ∈ all_groups root ∧ is_recursive group = true
       ∧ (param, flag) ∈ recursive_params ord condition_params group).

(** [F] is the full name of a parameter that the lifter walks and whose
    value is [None] or empty. *)
Definition lifted_name (ord : SetOrder) (pipeline : Pipeline) (root : Group)
    (condition_params : gmap string (gset PipelineParam)) (F : string) : Prop :=
  ∃ param, lifted_param ord pipeline root condition_params param
           ∧ truthy (param_value param) = false
           ∧ _pipelineparam_full_name param = F.

(** ** The walked part of the tree *)

(** The groups that the walkers visit: the root and, below it, the groups
    that are not recursive calls. *)
Fixpoint walked_groups (g : Group) : list Group :=
  g :: (group_groups g
          ≫= λ g', if is_recursive g' then [] else walked_groups g').

(** The table holds lists that go from [r] to their key. *)
Definition ancestry_shape (r : string) (m : gmap string (list string)) : Prop :=
  ∀ k l, m !! k = Some l → ∃ middle, l = r :: middle ++ [k].

(** [k] names an op of a walked group of the tree of [g], or a recursive
    call in one. *)
Definition leaf_of (g : Group) (k : string) : Prop :=
  ∃ g', g' ∈ walked_groups g
        ∧ ((∃ op, op ∈ group_ops g' ∧ op_name op = k)
           ∨ (∃ sub, sub ∈ group_groups g' ∧ is_recursive sub = true
                     ∧ group_name sub = k)).

(** [k] names a walked group of the tree of [g] other than [g] itself. *)
Definition inner_group_of (g : Group) (k : string) : Prop :=
  ∃ g' sub, g' ∈ walked_groups g ∧ sub ∈ group_groups g'
            ∧ is_recursive sub = false ∧ group_name sub = k.

(** ** Notions of the specification *)

Definition is_exit_handler_group (g : Group) : bool :=
  match group_type g with
  | type_exit_handler _ => true
  | _ => false
  end.

(** The number of groups of kind [exit_handler] in the tree of [g]. *)
Fixpoint count_exit_handlers (g : Group) : nat :=
  (if is_exit_handler_group g then 1 else 0)
  + sum_list (map count_exit_handlers (group_groups g)).

(** The names of all the ops in the tree of [g]. *)
Fixpoint ops_of_tree (g : Group) : list string :=
  map op_name (group_ops g) ++ concat (map ops_of_tree (group_groups g)).

(** The child groups of the root that are of kind [exit_handler]. *)
Definition exit_handler_children (pipeline : Pipeline) : list Group :=
  filter (λ g, is_exit_handler_group g = true)
    (group_groups (pipeline_root pipeline)).

(** The name of the exit op of an [exit_handler] group. *)
Definition exit_op_name (g : Group) : option string :=
  match group_type g with
  | type_exit_handler exit_op => Some (op_name exit_op)
  | _ => None
  end.

(** The sentence of the specification on [onExit]: it is set exactly when
    the root has one child of kind [exit_handler], to the name of the exit
    op of that child. *)
Definition onExit_of_the_only_handler (pipeline : Pipeline) (w : Workflow) : Prop :=
  match exit_handler_children pipeline with
  | [handler] => onExit w = exit_op_name handler
  | _ => onExit w = None
  end.

(** A recursive group seen as the op that stands for it: an op of the same
    name and inputs that is not an exit handler. *)
Definition as_op (group : Group) : Op :=
  {| op_name := group_name group; op_inputs := group_inputs group;
     op_dependent_names := []; op_is_exit_handler := false; op_volumes := [] |}.





(** ** Example pipelines *)

(** An order of iteration: that of [elements], and its reverse. *)
Definition elements_order : SetOrder :=
  {| order_conditions := λ _ s, elements s;
     order_upstream_ops := λ _ s, elements s;
     order_upstream_groups := λ _ s, elements s;
     order_inputs := λ _ s, elements s;
     order_outputs := λ _ s, elements s;
     order_dependencies := λ _ s, elements s |}.

Definition reverse_order : SetOrder :=
  {| order_conditions := λ _ s, reverse (elements s);
     order_upstream_ops := λ _ s, reverse (elements s);
     order_upstream_groups := λ _ s, reverse (elements s);
     order_inputs := λ _ s, reverse (elements s);
     order_outputs := λ _ s, reverse (elements s);
     order_dependencies := λ _ s, reverse (elements s) |}.

Definition container_handler : Collaborators :=
  {| _op_to_template := λ op, OpTemplate (op_name op) "container";
     convert_k8s_obj_to_json := id |}.

Definition container_op (name : string) (inputs : list PipelineParam) : Op :=
  {| op_name := name; op_inputs := inputs; op_dependent_names := [];
     op_is_exit_handler := false; op_volumes := [] |}.

(** The output [name] of the op [op]. *)
Definition output_of (op name : string) : PipelineParam :=
  {| param_name := name; param_op_name := Some op; param_value := None |}.

(** The parameter [name] of the pipeline. *)
Definition pipeline_param (name : string) : PipelineParam :=
  {| param_name := name; param_op_name := None; param_value := None |}.

Definition plain_group (name : string) (type : GroupType) (groups : list Group)
    (ops : list Op) : Group :=
  mkGroup name type groups ops None [] [].

Definition no_conf : PipelineConf := {| image_pull_secrets := []; timeout := 0 |}.

Definition op_a : Op := container_op "a" [].
Definition op_b : Op := container_op "b" [output_of "a" "x"].
Definition op_e : Op := container_op "e" [].

(** Op [a] produces [x]; op [b], inside the condition [c] on [a.x],
    consumes it.  The pipeline has no name. *)
Definition cross_scope_pipeline : Pipeline :=
  {| pipeline_name := None;
     pipeline_root :=
       plain_group "p" type_pipeline
         [plain_group "c"
            (type_condition {| operand1 := OperandParam (output_of "a" "x");
                               operator := "==";
                               operand2 := OperandValue "v" |})
            [] [op_b]]
         [op_a];
     pipeline_ops := [("a", op_a); ("b", op_b)];
     pipeline_conf := no_conf |}.

(** Two exit handlers on the same exit op [e], side by side under the
    root; the second one holds the op [a]. *)
Definition first_handler : Group :=
  plain_group "h1" (type_exit_handler op_e) [] [].

Definition second_handler : Group :=
  plain_group "h2" (type_exit_handler op_e) [] [op_a].

Definition two_handlers_pipeline : Pipeline :=
  {| pipeline_name := Some "p";
     pipeline_root :=
       plain_group "p" type_pipeline [first_handler; second_handler] [op_e];
     pipeline_ops := [("e", op_e); ("a", op_a)];
     pipeline_conf := no_conf |}.

(** An exit handler around the op [a], followed by a group that holds the
    op [b]. *)
Definition uncovered_op_pipeline : Pipeline :=
  {| pipeline_name := Some "p";
     pipeline_root :=
       plain_group "p" type_pipeline
         [plain_group "h" (type_exit_handler op_e) [] [op_a];
          plain_group "g" (type_other "graph") [] [op_b]]
         [op_e];
     pipeline_ops := [("e", op_e); ("a", op_a); ("b", op_b)];
     pipeline_conf := no_conf |}.

(** An empty condition on the pipeline parameter [q], then the exit
    handler, which holds the op [a]. *)
Definition late_handler_pipeline : Pipeline :=
  {| pipeline_name := Some "p";
     pipeline_root :=
       plain_group "p" type_pipeline
         [plain_group "c"
            (type_condition {| operand1 := OperandParam (pipeline_param "q");
                               operator := "==";
                               operand2 := OperandValue "v" |})
            [] [];
          plain_group "h" (type_exit_handler op_e) [] [op_a]]
         [op_e];
     pipeline_ops := [("e", op_e); ("a", op_a)];
     pipeline_conf := no_conf |}.

(** The op [d] takes the immediate value [5] for [k] and the output [x] of
    the op [a]. *)
Definition op_d : Op :=
  container_op "d"
    [{| param_name := "k"; param_op_name := None; param_value := Some "5" |};
     output_of "a" "x"].

Definition immediate_pipeline : Pipeline :=
  {| pipeline_name := Some "p";
     pipeline_root := plain_group "p" type_pipeline [] [op_a; op_d];
     pipeline_ops := [("a", op_a); ("d", op_d)];
     pipeline_conf := no_conf |}.

(** The graph [g] runs the op [f] and, under the condition [c] on the
    pipeline parameter [q], calls itself with the output [x] of [f]: [r] is
    the recursive call. *)
Definition op_f : Op := container_op "f" [].

Definition recursive_call : Group :=
  mkGroup "r" (type_other "graph") [] []
    (Some {| ref_name := "g"; ref_inputs := [pipeline_param "n"] |})
    [output_of "f" "x"] [].



(** The tables that a run of the lifter returns, empty when it raises. *)
Definition tables_of
    (run : result (gmap string (gset Ref) * gmap string (gset Ref)))
  : gmap string (gset Ref) * gmap string (gset Ref) :=
  match run with
  | Ok st => st
  | Raise _ => (∅, ∅)
  end.

(** The run of the lifter on a pipeline, with the tables of the walker and
    of the condition propagator. *)
Definition lifter_run (ord : SetOrder) (pipeline : Pipeline)
  : result (gmap string (gset Ref) * gmap string (gset Ref)) :=
  _get_inputs_outputs ord pipeline (pipeline_root pipeline)
    (_get_groups_for_ops (pipeline_root pipeline))
    (_get_groups_for_opsgroups (pipeline_root pipeline))
    (_get_condition_params_for_ops (pipeline_root pipeline)).

(** The lists agree at no position. *)
Definition nowhere_equal (a b : list string) : Prop :=
  ∀ i x, a !! i = Some x → b !! i ≠ Some x.

(** The lookup of an entity in the two tables, the ancestry of ops first. *)
Definition ancestry_of (op_groups opsgroup_groups : gmap string (list string))
    (name : string) : option (list string) :=
  match op_groups !! name with
  | Some l => Some l
  | None => opsgroup_groups !! name
  end.

(** The operands of the condition of [g] that are parameters. *)
Definition condition_operands (g : Group) : list PipelineParam :=
  match group_type g with
  | type_condition c =>
      operand_params (operand1 c) ++ operand_params (operand2 c)
  | _ => []
  end.

(** [param] is an operand of the condition of a walked group of the tree of
    [g], and [k] names an op or a recursive call of the walked part of that
    group. *)
Definition guards (g : Group) (param : PipelineParam) (k : string) : Prop :=
  ∃ g', g' ∈ walked_groups g ∧ param ∈ condition_operands g' ∧ leaf_of g' k.

(** The op [u] takes the parameter [n] of the pipeline. *)
Definition op_u : Op := container_op "u" [pipeline_param "n"].

Definition passthrough_pipeline : Pipeline :=
  {| pipeline_name := Some "p";
     pipeline_root := plain_group "p" type_pipeline [] [op_u];
     pipeline_ops := [("u", op_u)];
     pipeline_conf := no_conf |}.

(** The op [b] takes the output of an op [a] that the pipeline does not
    have. *)
Definition dangling_pipeline : Pipeline :=
  {| pipeline_name := Some "p";
     pipeline_root := plain_group "p" type_pipeline [] [op_b];
     pipeline_ops := [("b", op_b)];
     pipeline_conf := no_conf |}.

(** The body of the loop over the upstream names of a group (lines
    309-318). *)
Definition group_dependency_step (ops : list (string * Op))
    (op_groups opsgroups_groups : gmap string (list string)) (group : Group)
    (name : string) (deps : gmap string (gset string))
  : result (gmap string (gset string)) :=
  upstream ← find_upstream_of_group ops opsgroups_groups name;
  add_dependency op_groups opsgroups_groups upstream (group_name group) deps.

(** The body of the loop over the upstream names of an op (lines
    285-296). *)
Definition op_dependency_step (ops : list (string * Op))
    (opsgroups : list (string * Group))
    (op_groups opsgroups_groups : gmap string (list string)) (op : Op)
    (name : string) (deps : gmap string (gset string))
  : result (gmap string (gset string)) :=
  upstream ← find_upstream_of_op ops opsgroups name;
  add_dependency op_groups opsgroups_groups upstream (op_name op) deps.

(** The edge [d ← u] joins the first uncommon ancestors of [upstream] and
    [downstream]. *)
Definition first_uncommon (op_groups opsgroups_groups : gmap string (list string))
    (upstream downstream u d : string) : Prop :=
  ∃ up down,
    _get_uncommon_ancestors op_groups opsgroups_groups upstream downstream
    = Ok (up, down)
    ∧ up !! 0 = Some u ∧ down !! 0 = Some d.

(** The table that a run of the dependency lifter returns, empty when it
    raises. *)
Definition dependencies_of (run : result (gmap string (gset string)))
  : gmap string (gset string) :=
  match run with
  | Ok deps => deps
  | Raise _ => ∅
  end.

(** The op [w] is to run after [zz], which the pipeline does not have. *)
Definition op_w : Op :=
  {| op_name := "w"; op_inputs := []; op_dependent_names := ["zz"];
     op_is_exit_handler := false; op_volumes := [] |}.

Definition unknown_dependency_pipeline : Pipeline :=
  {| pipeline_name := Some "p";
     pipeline_root := plain_group "p" type_pipeline [] [op_w];
     pipeline_ops := [("w", op_w)];
     pipeline_conf := no_conf |}.

(** The group [k] is to run after the group [h]. *)
Definition group_after_group : Group :=
  mkGroup "k" (type_other "graph") [] [op_f] None [] ["h"].

Definition group_dependency_pipeline : Pipeline :=
  {| pipeline_name := Some "p";
     pipeline_root :=
       plain_group "p" type_pipeline
         [plain_group "h" (type_other "graph") [] [op_a]; group_after_group] [];
     pipeline_ops := [("a", op_a); ("f", op_f)];
     pipeline_conf := no_conf |}.

(** The list is in the order of the keys. *)
Definition sorted_by {A : Type} (key : A → string) (l : list A) : Prop :=
  StronglySorted (λ x y, String.leb (key x) (key y) = true) l.

(** Lines 382-391: the name of the task of a child, for a recursive call
    that of the group it refers to. *)
Definition task_name_of (sub_group : SubGroup) : string :=
  match recursive_subgroup sub_group with
  | Some (_, ref) => ref_name ref
  | None => sub_group_name sub_group
  end.

(** Lines 400-403: the dependencies of the task of a child, whatever the
    order in which the set is walked. *)
Definition sorted_dependencies (dependencies : gmap string (gset string))
    (name : string) : option (list string) :=
  if decide (table_get dependencies name = ∅) then None
  else Some (sort_by id (elements (table_get dependencies name))).

(** The body of the loop of [sub_group_tasks]. *)
Definition tasks_step (ord : SetOrder) (inputs : gmap string (gset Ref))
    (dependencies : gmap string (gset string)) (sub_group : SubGroup)
    (st : list Task * option nat) : result (list Task * option nat) :=
  '(task, index) ← sub_group_task ord inputs dependencies sub_group st.2;
  Ok (st.1 ++ [task], index).

(** Lines 409-444: the argument for an entry of the inputs of a child that
    is not a recursive call. *)
Definition argument_of (entry : Ref) : ParameterEntry :=
  {| entry_name := entry.1;
     entry_value := if truthy entry.2
                    then task_reference (str entry.2) entry.1
                    else input_reference entry.1 |}.

(** Lines 501-503: the volumes of all the ops, in the order of the loops. *)
Definition declared_volumes (pipeline : Pipeline) : list Volume :=
  concat (map op_volumes (pipeline_ops pipeline).*2).

Definition exit_handler_error : Error :=
  ValueError
    "Only one global exit_handler is allowed and all ops need to be included.".

(** An [exit_handler] group inside an [exit_handler] group. *)
Definition nested_handlers_pipeline : Pipeline :=
  {| pipeline_name := Some "p";
     pipeline_root :=
       plain_group "p" type_pipeline
         [plain_group "h" (type_exit_handler op_e)
            [plain_group "g" (type_other "graph")
               [plain_group "k" (type_exit_handler op_e) [] [op_b]] []]
            [op_a]]
         [op_e];
     pipeline_ops := [("e", op_e); ("a", op_a); ("b", op_b)];
     pipeline_conf := no_conf |}.

(** Two ops of the root, then an exit handler below a plain group. *)
Definition two_ops_pipeline : Pipeline :=
  {| pipeline_name := Some "p";
     pipeline_root :=
       plain_group "p" type_pipeline
         [plain_group "g" (type_other "graph")
            [plain_group "h" (type_exit_handler op_e) [] [op_b]] []]
         [op_e; op_a];
     pipeline_ops := [("e", op_e); ("a", op_a); ("b", op_b)];
     pipeline_conf := no_conf |}.

(** Lines 337-346: what an entry of the inputs of a group, or the lack of
    one, makes of a parameter name. *)
Definition reference_of (parameter_name : string)
    (entry : option (option string)) : string :=
  match entry with
  | Some (Some task_name) => task_reference task_name parameter_name
  | _ => input_reference parameter_name
  end.

(** Lines 367-373: the output of a template for an entry of the outputs of
    its group. *)
Definition output_entry (entry : Ref) : ParameterEntry :=
  {| entry_name := entry.1;
     entry_value := task_reference (str entry.2) entry.1 |}.

(** The condition [c] of the first example, with an input of the name of
    its operand. *)
Definition condition_c : Group :=
  plain_group "c"
    (type_condition {| operand1 := OperandParam (output_of "a" "x");
                       operator := "==";
                       operand2 := OperandValue "v" |})
    [] [op_b].

Definition inputs_of_c : gmap string (gset Ref) :=
  table_add (table_add ∅ "c" ("a-x", Some "a")) "c" ("n", None).

(** Lines 413-415: the position of the first declared input of the
    recursive call [g] whose full name is [param_name]. *)
Definition declared_position (g : Group) (param_name : string) : option nat :=
  fst <$> list_find (λ input, param_name = _pipelineparam_full_name input)
            (group_inputs g).

(** Lines 416-417: the full name of the input, at that position, of the
    group that the call refers to. *)
Definition callee_name (g : Group) (ref : GroupRef) (param_name : string)
  : option string :=
  i ← declared_position g param_name;
  _pipelineparam_full_name <$> ref_inputs ref !! i.

(** The argument [arg] is the one that the entry [entry] of the inputs of
    the recursive call [g] gives. *)
Definition recursive_argument (g : Group) (ref : GroupRef) (entry : Ref)
    (arg : ParameterEntry) : Prop :=
  callee_name g ref entry.1 = Some (entry_name arg)
  ∧ entry_value arg = entry_value (argument_of entry).

(** The inputs of the recursive call [r]: the output [x] of [f]. *)
Definition inputs_of_r : gmap string (gset Ref) :=
  table_add ∅ "r" ("f-x", Some "f").

(** A recursive call that declares no input. *)
Definition bare_call : Group :=
  mkGroup "r" (type_other "graph") [] []
    (Some {| ref_name := "g"; ref_inputs := [pipeline_param "n"] |}) [] [].

(** The templates that a run of [_create_templates] returns, none when it
    raises. *)
Definition templates_of (run : result (list Template)) : list Template :=
  match run with
  | Ok templates => templates
  | Raise _ => []
  end.




(** Lines 392-397: the [when] of the task of a child, its operands resolved
    against [references]. *)
Definition when_with (references : list Ref) (sub_group : SubGroup)
  : option string :=
  match sub_group with
  | SubOpsGroup g =>
      match group_type g with
      | type_condition condition =>
          Some (_resolve_value_or_reference (operand1 condition) references
                  +:+ " " +:+ operator condition +:+ " "
                  +:+ _resolve_value_or_reference (operand2 condition)
                        references)
      | _ => None
      end
  | SubOp _ => None
  end.

(** * Properties *)

(** ** The result monad *)

Lemma bind_Ok {A B : Type} (m : result A) (f : A → result B) (b : B) :
  m ≫= f = Ok b ↔ ∃ a, m = Ok a ∧ f a = Ok b.
Proof.
  destruct m as [a|e]; simpl; split.
  - eauto.
  - by intros (a' & [= <-] & ?).
  - done.
  - by intros (? & ? & ?).
Qed.

(** ** Loops *)

Lemma for_each_app {A S : Type} (f : A → S → result S) (l1 l2 : list A) (st : S) :
  for_each f (l1 ++ l2) st = for_each f l1 st ≫= for_each f l2.
Proof.
  revert st. induction l1 as [|x l1 IH]; intros st; simpl; [done |].
  destruct (f x st) as [st'|e]; simpl; [apply IH | done].
Qed.

(** A property that every step preserves holds after the loop. *)
Lemma for_each_invariant {A S : Type} (P : S → Prop) (f : A → S → result S)
    (l : list A) (st st' : S) :
  (∀ x s s', x ∈ l → P s → f x s = Ok s' → P s') →
  P st → for_each f l st = Ok st' → P st'.
Proof.
  revert st. induction l as [|x l IH]; intros st Hstep HP Hrun; simpl in Hrun.
  - by injection Hrun as <-.
  - apply bind_Ok in Hrun as (s1 & Hx & Hrest).
    apply (IH s1); [| | done].
    + intros y s s' Hy. apply Hstep. by right.
    + apply (Hstep x st); [by left | done | done].
Qed.

(** When every step goes up in a preorder, the loop goes up, and the step
    of each element of the list lies between the two ends. *)
Lemma for_each_step {A S : Type} (R : relation S) `{!PreOrder R}
    (f : A → S → result S) (l : list A) (st st' : S) (x : A) :
  (∀ y s s', y ∈ l → f y s = Ok s' → R s s') →
  for_each f l st = Ok st' → x ∈ l →
  ∃ s1 s2, R st s1 ∧ f x s1 = Ok s2 ∧ R s2 st'.
Proof.
  revert st. induction l as [|y l IH]; intros st Hmono Hrun Hx.
  - by apply elem_of_nil in Hx.
  - simpl in Hrun. apply bind_Ok in Hrun as (s1 & Hy & Hrest).
    assert (Hup : R s1 st').
    { apply (for_each_invariant (R s1) f l s1 st'); [| done | done].
      intros z s s' Hz Hs Hf. etrans; [done |]. apply (Hmono z); [by right | done]. }
    apply elem_of_cons in Hx as [-> | Hx].
    + exists st, s1. done.
    + destruct (IH s1) as (t1 & t2 & H1 & H2 & H3); [| done | done |].
      * intros z s s' Hz. apply Hmono. by right.
      * exists t1, t2. split; [| done]. etrans; [| done].
        apply (Hmono y); [by left | done].
Qed.

Lemma for_each_increasing {A S : Type} (R : relation S) `{!PreOrder R}
    (f : A → S → result S) (l : list A) (st st' : S) :
  (∀ y s s', y ∈ l → f y s = Ok s' → R s s') →
  for_each f l st = Ok st' → R st st'.
Proof.
  intros Hmono Hrun.
  apply (for_each_invariant (R st) f l st st'); [| done | done].
  intros z s s' Hz Hs Hf. etrans; [done |]. by apply (Hmono z).
Qed.

(** ** Tables *)

Global Instance table_le_preorder `{Countable A} : PreOrder (table_le (A:=A)).
Proof.
  split.
  - intros t k. reflexivity.
  - intros t1 t2 t3 H12 H23 k. etrans; [apply H12 | apply H23].
Qed.

Lemma elem_of_table_add `{Countable A} (table : gmap string (gset A))
    (k k' : string) (x y : A) :
  y ∈ table_get (table_add table k x) k' ↔
  y ∈ table_get table k' ∨ (k = k' ∧ y = x).
Proof.
  unfold table_add, table_get. destruct (decide (k = k')) as [<- | Hne].
  - rewrite lookup_insert_eq. simpl. set_solver.
  - rewrite lookup_insert_ne by done. set_solver.
Qed.

Lemma table_add_le `{Countable A} (table : gmap string (gset A)) (k : string) (x : A) :
  table_le table (table_add table k x).
Proof. intros k' y Hy. apply elem_of_table_add. by left. Qed.

Lemma table_get_empty `{Countable A} (k : string) :
  table_get (∅ : gmap string (gset A)) k = ∅.
Proof. unfold table_get. by rewrite lookup_empty. Qed.

(** ** Workflow assembly *)

(** C10. When the name of the pipeline is absent or empty, the assembled
    workflow is named by the literal [Pipeline]: its [generateName] is
    [Pipeline-] and its [entrypoint] is [Pipeline]. *)
Theorem workflow_default_name (ord : SetOrder) (ext : Collaborators)
    (args : list PipelineParam) (pipeline : Pipeline)
    (op_transformers : list (Op → Op)) (w : Workflow) :
  pipeline_name pipeline = None ∨ pipeline_name pipeline = Some "" →
  _create_pipeline_workflow ord ext args pipeline op_transformers = Ok w →
  generateName w = "Pipeline-" ∧ entrypoint w = "Pipeline".
Proof.
  intros Hname Hw. unfold _create_pipeline_workflow in Hw.
  apply bind_Ok in Hw as (templates & _ & [= <-]). simpl.
  by destruct Hname as [-> | ->].
Qed.

Lemma workflow_default_name_witness :
  ∃ w, _create_pipeline_workflow elements_order container_handler []
         cross_scope_pipeline [] = Ok w
       ∧ generateName w = "Pipeline-" ∧ entrypoint w = "Pipeline".
Proof.
  eexists. split; [vm_compute; reflexivity |].
  eapply (workflow_default_name elements_order container_handler []
            cross_scope_pipeline []).
  - left. reflexivity.
  - vm_compute. reflexivity.
Defined.

(** C2, as the specification states it, fails: the root of
    [late_handler_pipeline] has exactly one child of kind [exit_handler],
    the pipeline passes the validation, and its workflow has no
    [onExit]. *)
Lemma onExit_only_handler_counterexample :
  _validate_exit_handler late_handler_pipeline = Ok ()
  ∧ ¬ (∀ w, _create_pipeline_workflow elements_order container_handler []
              late_handler_pipeline [] = Ok w →
            onExit_of_the_only_handler late_handler_pipeline w).
Proof.
  split; [reflexivity |]. intros Hclaim.
  specialize (Hclaim _ ltac:(vm_compute; reflexivity)).
  vm_compute in Hclaim. discriminate Hclaim.
Qed.

(** C2, amended. [onExit] is set exactly when the root has a child group
    and the first of its child groups is of kind [exit_handler]; its value
    is the name of the exit op of that first child. *)
Theorem onExit_first_child (ord : SetOrder) (ext : Collaborators)
    (args : list PipelineParam) (pipeline : Pipeline)
    (op_transformers : list (Op → Op)) (w : Workflow) :
  _create_pipeline_workflow ord ext args pipeline op_transformers = Ok w →
  (is_Some (onExit w) ↔
     ∃ first rest, group_groups (pipeline_root pipeline) = first :: rest
                   ∧ is_exit_handler_group first = true)
  ∧ (∀ first rest, group_groups (pipeline_root pipeline) = first :: rest →
       onExit w = exit_op_name first).
Proof.
  intros Hw. unfold _create_pipeline_workflow in Hw.
  apply bind_Ok in Hw as (ts & _ & [= <-]). simpl.
  unfold exit_handler_of, is_exit_handler_group, exit_op_name.
  destruct (group_groups (pipeline_root pipeline)) as [|first rest]; simpl.
  - split; [| done]. split; [by intros [? [=]] | by intros (? & ? & [=] & _)].
  - split.
    + split.
      * intros Hsome. exists first, rest. split; [done |].
        by destruct (group_type first); simpl in *; try by destruct Hsome.
      * intros (f & r & [= <- <-] & Hk).
        by destruct (group_type first); simpl in *.
    + intros f r [= <- <-]. by destruct (group_type first).
Qed.

Lemma onExit_first_child_witness :
  ∃ w, _create_pipeline_workflow elements_order container_handler []
         two_handlers_pipeline [] = Ok w
       ∧ onExit w = Some "e".
Proof.
  eexists. split; [vm_compute; reflexivity |].
  refine (proj2 (onExit_first_child elements_order container_handler []
                   two_handlers_pipeline [] _ _) first_handler [second_handler] _);
    [vm_compute; reflexivity | reflexivity].
Defined.

(** ** Exit handler validation *)

(** C1. The validation accepts [two_handlers_pipeline], which has two
    groups of kind [exit_handler], and [uncovered_op_pipeline], whose exit
    handler leaves the op [b] outside. *)
Theorem validate_exit_handler_accepts :
  count_exit_handlers (pipeline_root two_handlers_pipeline) = 2
  ∧ _validate_exit_handler two_handlers_pipeline = Ok ()
  ∧ count_exit_handlers (pipeline_root uncovered_op_pipeline) = 1
  ∧ "b" ∈ ops_of_tree (pipeline_root uncovered_op_pipeline)
  ∧ (∀ h, h ∈ exit_handler_children uncovered_op_pipeline →
          "b" ∉ ops_of_tree h)
  ∧ _validate_exit_handler uncovered_op_pipeline = Ok ().
Proof.
  repeat split; try reflexivity.
  - vm_compute. set_solver.
  - intros h Hh. vm_compute in Hh.
    apply list_elem_of_singleton in Hh as ->. vm_compute. set_solver.
Qed.

(** ** Uncommon ancestors *)

(** C3. When the second name is in neither table, the error names the
    first one. *)
Theorem uncommon_ancestors_second_unknown :
  _get_uncommon_ancestors {["a" := ["p"; "a"]]} ∅ "a" "b"
  = Raise (ValueError "a does not exist.").
Proof. reflexivity. Qed.

(** ** Input/output lifting *)

Lemma elem_of_enumerate {A : Type} (l : list A) (i : nat) (x : A) :
  (i, x) ∈ enumerate l ↔ l !! i = Some x.
Proof.
  unfold enumerate. rewrite elem_of_lookup_imap. split.
  - by intros (j & y & [= -> ->] & ?).
  - intros ?. by exists i, x.
Qed.

Global Instance extends_with_preorder (F : string) : PreOrder (extends_with F).
Proof.
  split.
  - intros t. split; [reflexivity | auto].
  - intros t1 t2 t3 [H12 G12] [H23 G23]. split; [by etrans |].
    intros g r Hr. destruct (G23 g r Hr) as [H2 | ?]; [| by right].
    apply G12, H2.
Qed.

Lemma table_add_extends (F : string) (t : gmap string (gset Ref)) (g : string)
    (m : option string) :
  extends_with F t (table_add t g (F, m)).
Proof.
  split; [apply table_add_le |].
  intros g' r Hr. apply elem_of_table_add in Hr as [? | [_ ->]]; auto.
Qed.

Lemma downstream_step_extends (F : string) (up : list string)
    (entry : nat * string) (inputs inputs' : gmap string (gset Ref)) :
  downstream_step F up entry inputs = Ok inputs' → extends_with F inputs inputs'.
Proof.
  destruct entry as [i g]. simpl. intros Hstep. case_decide.
  - apply bind_Ok in Hstep as (u & _ & [= <-]). apply table_add_extends.
  - injection Hstep as <-. apply table_add_extends.
Qed.

Lemma downstream_recursive_step_extends (F : string) (up down : list string)
    (flag : bool) (entry : nat * string) (inputs inputs' : gmap string (gset Ref)) :
  downstream_recursive_step F up down flag entry inputs = Ok inputs' →
  extends_with F inputs inputs'.
Proof.
  destruct entry as [i g]. simpl. intros Hstep. case_decide.
  - apply bind_Ok in Hstep as (u & _ & [= <-]). apply table_add_extends.
  - destruct (_ && _); injection Hstep as <-;
      [reflexivity | apply table_add_extends].
Qed.

Lemma upstream_step_extends (F : string) (up : list string)
    (entry : nat * string) (outputs outputs' : gmap string (gset Ref)) :
  upstream_step F up entry outputs = Ok outputs' → extends_with F outputs outputs'.
Proof.
  destruct entry as [i g]. simpl. intros Hstep. case_decide.
  - injection Hstep as <-. apply table_add_extends.
  - destruct (up !! (i + 1)); [| done].
    injection Hstep as <-. apply table_add_extends.
Qed.

Lemma lift_downstream_extends (F : string) (up down : list string)
    (inputs inputs' : gmap string (gset Ref)) :
  lift_downstream F up down inputs = Ok inputs' → extends_with F inputs inputs'.
Proof.
  apply for_each_increasing; [apply _ |].
  intros entry s s' _. apply downstream_step_extends.
Qed.

Lemma lift_downstream_recursive_extends (F : string) (up down : list string)
    (flag : bool) (inputs inputs' : gmap string (gset Ref)) :
  lift_downstream_recursive F up down flag inputs = Ok inputs' →
  extends_with F inputs inputs'.
Proof.
  apply for_each_increasing; [apply _ |].
  intros entry s s' _. apply downstream_recursive_step_extends.
Qed.

Lemma lift_upstream_extends (F : string) (up : list string)
    (outputs outputs' : gmap string (gset Ref)) :
  lift_upstream F up outputs = Ok outputs' → extends_with F outputs outputs'.
Proof.
  apply for_each_increasing; [apply _ |].
  intros entry s s' _. apply upstream_step_extends.
Qed.

Lemma lift_pipeline_param_extends (F : string) (groups : list string)
    (inputs : gmap string (gset Ref)) :
  extends_with F inputs (lift_pipeline_param F groups inputs).
Proof.
  unfold lift_pipeline_param. revert inputs.
  induction groups as [|g groups IH]; intros inputs; simpl; [reflexivity |].
  etrans; [apply table_add_extends | apply IH].
Qed.

(** The entries that the loop over the downstream groups leaves. *)
Lemma lift_downstream_entries (F : string) (up down : list string)
    (inputs inputs' : gmap string (gset Ref)) (i : nat) (g : string) :
  lift_downstream F up down inputs = Ok inputs' → down !! i = Some g →
  (F, if decide (i = 0) then up !! 0 else None) ∈ table_get inputs' g.
Proof.
  intros Hrun Hg. apply elem_of_enumerate in Hg.
  destruct (for_each_step (extends_with F) _ _ _ _ (i, g)
              (λ y s s' _, downstream_step_extends F up y s s') Hrun Hg)
    as (s1 & s2 & _ & Hstep & [Hle _]).
  apply Hle. simpl in Hstep. case_decide.
  - apply bind_Ok in Hstep as (u & Hu & [= <-]).
    unfold first_group in Hu. destruct (up !! 0) as [u'|]; [| done].
    injection Hu as ->. apply elem_of_table_add. by right.
  - injection Hstep as <-. apply elem_of_table_add. by right.
Qed.

(** The entries that the loop over the upstream groups leaves. *)
Lemma lift_upstream_entries (F : string) (up : list string)
    (outputs outputs' : gmap string (gset Ref)) (i : nat) (g : string) :
  lift_upstream F up outputs = Ok outputs' → up !! i = Some g →
  (F, if decide (i < length up - 1) then up !! (i + 1) else None)
    ∈ table_get outputs' g.
Proof.
  intros Hrun Hg. pose proof (lookup_lt_Some _ _ _ Hg) as Hlt.
  apply elem_of_enumerate in Hg.
  destruct (for_each_step (extends_with F) _ _ _ _ (i, g)
              (λ y s s' _, upstream_step_extends F up y s s') Hrun Hg)
    as (s1 & s2 & _ & Hstep & [Hle _]).
  apply Hle. simpl in Hstep. case_decide as Hi.
  - injection Hstep as <-. rewrite decide_False by lia.
    apply elem_of_table_add. by right.
  - rewrite decide_True by lia. destruct (up !! (i + 1)) as [u|]; [| done].
    injection Hstep as <-. apply elem_of_table_add. by right.
Qed.

Global Instance state_le_preorder : PreOrder state_le.
Proof.
  split.
  - intros st. split; reflexivity.
  - intros s1 s2 s3 [? ?] [? ?]. split; by etrans.
Qed.

Global Instance state_extends_preorder (F : string) : PreOrder (state_extends F).
Proof.
  split.
  - intros st. split; reflexivity.
  - intros s1 s2 s3 [? ?] [? ?]. split; by etrans.
Qed.

Lemma state_extends_le (F : string)
    (st st' : gmap string (gset Ref) * gmap string (gset Ref)) :
  state_extends F st st' → state_le st st'.
Proof. intros [[? _] [? _]]. by split. Qed.

(** Induction on the tree of groups. *)
Lemma Group_tree_ind (P : Group → Prop) :
  (∀ g, Forall P (group_groups g) → P g) → ∀ g, P g.
Proof.
  intros Hnode. fix IH 1. intros g. apply Hnode.
  destruct g as [n t gs os r i d]. simpl.
  induction gs as [|g gs IHgs]; constructor; [apply IH | apply IHgs].
Qed.

Lemma all_groups_self (g : Group) : g ∈ all_groups g.
Proof. destruct g. simpl. by left. Qed.

Lemma all_groups_child (g sub g' : Group) :
  sub ∈ group_groups g → g' ∈ all_groups sub → g' ∈ all_groups g.
Proof.
  intros Hsub Hg'. destruct g as [n t gs os r i d]. simpl in *. right.
  apply list_elem_of_bind. by exists sub.
Qed.

(** A parameter whose value is true changes nothing; another one adds
    entries that bear its full name. *)
Lemma lift_op_param_extends (ops : list (string * Op))
    (op_groups opsgroup_groups : gmap string (list string)) (op : Op)
    (param : PipelineParam)
    (st st' : gmap string (gset Ref) * gmap string (gset Ref)) :
  lift_op_param ops op_groups opsgroup_groups op param st = Ok st' →
  st' = st
  ∨ (truthy (param_value param) = false
     ∧ state_extends (_pipelineparam_full_name param) st st').
Proof.
  unfold lift_op_param. intros Hrun.
  destruct (truthy (param_value param)); [left; congruence |].
  right. split; [done |]. destruct (truthy (param_op_name param)).
  - apply bind_Ok in Hrun as (U & _ & Hrun).
    apply bind_Ok in Hrun as ([up down] & _ & Hrun).
    apply bind_Ok in Hrun as (ins & Hins & Hrun).
    apply bind_Ok in Hrun as (outs & Houts & [= <-]).
    split; simpl;
      eauto using lift_downstream_extends, lift_upstream_extends.
  - destruct (negb (op_is_exit_handler op)).
    + apply bind_Ok in Hrun as (groups & _ & [= <-]).
      split; simpl; [apply lift_pipeline_param_extends | reflexivity].
    + injection Hrun as <-. reflexivity.
Qed.

Lemma lift_recursive_param_extends (ops : list (string * Op))
    (op_groups opsgroup_groups : gmap string (list string)) (group : Group)
    (param : PipelineParam) (flag : bool)
    (st st' : gmap string (gset Ref) * gmap string (gset Ref)) :
  lift_recursive_param ops op_groups opsgroup_groups group (param, flag) st
  = Ok st' →
  st' = st
  ∨ (truthy (param_value param) = false
     ∧ state_extends (_pipelineparam_full_name param) st st').
Proof.
  unfold lift_recursive_param. intros Hrun.
  destruct (truthy (param_value param)); [left; congruence |].
  right. split; [done |]. destruct (truthy (param_op_name param)).
  - apply bind_Ok in Hrun as (U & _ & Hrun).
    apply bind_Ok in Hrun as ([up down] & _ & Hrun).
    apply bind_Ok in Hrun as (ins & Hins & Hrun).
    apply bind_Ok in Hrun as (outs & Houts & [= <-]).
    split; simpl;
      eauto using lift_downstream_recursive_extends, lift_upstream_extends.
  - destruct (negb flag).
    + apply bind_Ok in Hrun as (groups & _ & [= <-]).
      split; simpl; [apply lift_pipeline_param_extends | reflexivity].
    + injection Hrun as <-. reflexivity.
Qed.

(** A property of the tables that the lifting of every parameter of every
    recursive group of the tree preserves holds after the walk. *)
Lemma recursive_opsgroup_invariant
    (P : gmap string (gset Ref) * gmap string (gset Ref) → Prop)
    (ord : SetOrder) (ops : list (string * Op))
    (op_groups opsgroup_groups : gmap string (list string))
    (condition_params : gmap string (gset PipelineParam)) (root : Group) :
  (∀ group pf s s',
     group ∈ all_groups root → is_recursive group = true →
     pf ∈ recursive_params ord condition_params group → P s →
     lift_recursive_param ops op_groups opsgroup_groups group pf s = Ok s' →
     P s') →
  ∀ st st', P st →
    _get_inputs_outputs_recursive_opsgroup ord ops op_groups opsgroup_groups
      condition_params root st = Ok st' →
    P st'.
Proof.
  induction root as [g IH] using Group_tree_ind. intros Hstep st st' HP Hrun.
  destruct g as [n t gs os r i d]. simpl in Hrun.
  apply bind_Ok in Hrun as (st1 & Hown & Hsubs).
  set (g := mkGroup n t gs os r i d) in *.
  assert (HP1 : P st1).
  { destruct (is_recursive g) eqn:Hrec; [| by injection Hown as <-].
    apply (for_each_invariant P _ _ _ _) with (3 := Hown); [| done].
    intros pf s s' Hpf Hs. apply (Hstep g); [apply all_groups_self | done..]. }
  apply (for_each_invariant P _ _ _ _) with (3 := Hsubs); [| done].
  intros sub s s' Hsub Hs. simpl in IH. rewrite Forall_forall in IH.
  apply (IH sub Hsub); [| done].
  intros group pf s1 s2 Hgroup. apply Hstep.
  by apply (all_groups_child g sub).
Qed.

Lemma ops_loop_le (ord : SetOrder) (ops : list (string * Op))
    (op_groups opsgroup_groups : gmap string (list string))
    (condition_params : gmap string (gset PipelineParam)) (op : Op)
    (st st' : gmap string (gset Ref) * gmap string (gset Ref)) :
  for_each (lift_op_param ops op_groups opsgroup_groups op)
    (op_params ord condition_params op) st = Ok st' →
  state_le st st'.
Proof.
  apply for_each_increasing; [apply _ |].
  intros param s s' _ Hstep.
  apply lift_op_param_extends in Hstep as [-> | [_ Hext]];
    [reflexivity | by eapply state_extends_le].
Qed.

Lemma recursive_opsgroup_le (ord : SetOrder) (ops : list (string * Op))
    (op_groups opsgroup_groups : gmap string (list string))
    (condition_params : gmap string (gset PipelineParam)) (root : Group)
    (st st' : gmap string (gset Ref) * gmap string (gset Ref)) :
  _get_inputs_outputs_recursive_opsgroup ord ops op_groups opsgroup_groups
    condition_params root st = Ok st' →
  state_le st st'.
Proof.
  apply (recursive_opsgroup_invariant (state_le st)); [| reflexivity].
  intros group [param flag] s s' _ _ _ Hs Hstep. etrans; [done |].
  apply lift_recursive_param_extends in Hstep as [-> | [_ Hext]];
    [reflexivity | by eapply state_extends_le].
Qed.

(** C4. Let an op consume a parameter that has no immediate value and
    whose producer is the op [upstream_op], and let [(up, down)] be the
    uncommon ancestors of the producer and the consumer.  In the tables
    that the lifter returns, the group at index [i] of [down] has the input
    [(F, up[0])] when [i = 0] and [(F, None)] otherwise, and the group at
    index [i] of [up] has the output [(F, up[i+1])] when [i < len(up) - 1]
    and [(F, None)] when it is the last one. *)
Theorem producer_param_lifted (ord : SetOrder) (pipeline : Pipeline)
    (root_group : Group) (op_groups opsgroup_groups : gmap string (list string))
    (condition_params : gmap string (gset PipelineParam))
    (inputs outputs : gmap string (gset Ref)) (key : string) (op : Op)
    (param : PipelineParam) (upstream_op : Op) (up down : list string) :
  _get_inputs_outputs ord pipeline root_group op_groups opsgroup_groups
    condition_params = Ok (inputs, outputs) →
  (key, op) ∈ pipeline_ops pipeline →
  param ∈ op_params ord condition_params op →
  truthy (param_value param) = false →
  truthy (param_op_name param) = true →
  dict_get (pipeline_ops pipeline) (str (param_op_name param))
  = Some upstream_op →
  _get_uncommon_ancestors op_groups opsgroup_groups (op_name upstream_op)
    (op_name op) = Ok (up, down) →
  (∀ i g, down !! i = Some g →
     (_pipelineparam_full_name param, if decide (i = 0) then up !! 0 else None)
       ∈ table_get inputs g)
  ∧ (∀ i g, up !! i = Some g →
       (_pipelineparam_full_name param,
        if decide (i < length up - 1) then up !! (i + 1) else None)
         ∈ table_get outputs g).
Proof.
  intros Hrun Hop Hparam Hvalue Hproducer Hupstream Hancestors.
  unfold _get_inputs_outputs in Hrun.
  apply bind_Ok in Hrun as (st1 & Hops & Hrec).
  apply recursive_opsgroup_le in Hrec as [Hrec1 Hrec2]. simpl in Hrec1, Hrec2.
  assert (Hop' : op ∈ (pipeline_ops pipeline).*2).
  { apply list_elem_of_fmap. by exists (key, op). }
  destruct (for_each_step state_le _ _ _ _ op
              (λ y s s' _, ops_loop_le ord _ _ _ _ y s s') Hops Hop')
    as (s1 & s2 & _ & Hinner & [Hs1 Hs2]).
  assert (Hmono : ∀ y s s', y ∈ op_params ord condition_params op →
            lift_op_param (pipeline_ops pipeline) op_groups opsgroup_groups op y s
            = Ok s' → state_le s s').
  { intros y s s' _ Hstep.
    apply lift_op_param_extends in Hstep as [-> | [_ Hext]];
      [reflexivity | by eapply state_extends_le]. }
  destruct (for_each_step state_le _ _ _ _ param Hmono Hinner Hparam)
    as (t1 & t2 & _ & Hstep & [Ht1 Ht2]).
  unfold lift_op_param in Hstep. rewrite Hvalue, Hproducer in Hstep.
  unfold dict_item in Hstep. rewrite Hupstream in Hstep. simpl in Hstep.
  rewrite Hancestors in Hstep. simpl in Hstep.
  apply bind_Ok in Hstep as (ins & Hins & Hstep).
  apply bind_Ok in Hstep as (outs & Houts & [= <-]). simpl in Ht1, Ht2.
  split; intros i g Hg.
  - apply Hrec1, Hs1, Ht1. by eapply lift_downstream_entries.
  - apply Hrec2, Hs2, Ht2. by eapply lift_upstream_entries.
Qed.

Lemma producer_param_lifted_witness :
  ∃ inputs outputs,
    _get_inputs_outputs elements_order cross_scope_pipeline
      (pipeline_root cross_scope_pipeline)
      (_get_groups_for_ops (pipeline_root cross_scope_pipeline))
      (_get_groups_for_opsgroups (pipeline_root cross_scope_pipeline))
      (_get_condition_params_for_ops (pipeline_root cross_scope_pipeline))
    = Ok (inputs, outputs)
    ∧ (∀ i g, ["c"; "b"] !! i = Some g →
         ("a-x", if decide (i = 0) then ["a"] !! 0 else None)
           ∈ table_get inputs g)
    ∧ (∀ i g, ["a"] !! i = Some g →
         ("a-x", if decide (i < length ["a"] - 1) then ["a"] !! (i + 1) else None)
           ∈ table_get outputs g).
Proof.
  exists (tables_of (lifter_run elements_order cross_scope_pipeline)).1,
    (tables_of (lifter_run elements_order cross_scope_pipeline)).2.
  assert (Hrun : lifter_run elements_order cross_scope_pipeline
                 = Ok ((tables_of (lifter_run elements_order cross_scope_pipeline)).1,
                       (tables_of (lifter_run elements_order cross_scope_pipeline)).2)).
  { vm_cast_no_check
      (eq_refl (lifter_run elements_order cross_scope_pipeline)). }
  split; [exact Hrun |].
  apply (producer_param_lifted elements_order cross_scope_pipeline
           (pipeline_root cross_scope_pipeline)
           (_get_groups_for_ops (pipeline_root cross_scope_pipeline))
           (_get_groups_for_opsgroups (pipeline_root cross_scope_pipeline))
           (_get_condition_params_for_ops (pipeline_root cross_scope_pipeline))
           _ _ "b" op_b (output_of "a" "x") op_a ["a"] ["c"; "b"]).
  - exact Hrun.
  - vm_compute. right. left.
  - vm_compute. left.
  - reflexivity.
  - reflexivity.
  - reflexivity.
  - vm_compute. reflexivity.
Defined.

(** ** Sorting *)

Lemma insert_by_perm {A : Type} (key : A → string) (x : A) (l : list A) :
  insert_by key x l ≡ₚ x :: l.
Proof.
  induction l as [|y l IH]; simpl; [done |].
  destruct (String.leb (key x) (key y)); [done |].
  rewrite IH. apply Permutation_swap.
Qed.

Lemma sort_by_perm {A : Type} (key : A → string) (l : list A) :
  sort_by key l ≡ₚ l.
Proof.
  induction l as [|x l IH]; simpl; [done |].
  by rewrite insert_by_perm, IH.
Qed.

Lemma elem_of_sort_by {A : Type} (key : A → string) (l : list A) (x : A) :
  x ∈ sort_by key l ↔ x ∈ l.
Proof. by rewrite sort_by_perm. Qed.

(** ** Values and lifting *)

Lemma table_lookup_get `{Countable A} (table : gmap string (gset A))
    (name : string) (s : gset A) :
  table_lookup table name = Some s → table_get table name = s.
Proof.
  unfold table_lookup, table_get. destruct (table !! name) as [s'|]; [| done].
  by case_decide; intros [= <-].
Qed.

Lemma names_in_extends (Q : string → Prop) (F : string)
    (st st' : gmap string (gset Ref) * gmap string (gset Ref)) :
  Q F → names_in Q st → state_extends F st st' → names_in Q st'.
Proof.
  intros HF Hst [[_ Hin] [_ Hout]] g r [Hr | Hr].
  - destruct (Hin g r Hr) as [? | ->]; [apply (Hst g); by left | done].
  - destruct (Hout g r Hr) as [? | ->]; [apply (Hst g); by right | done].
Qed.

Lemma lifted_names (ord : SetOrder) (pipeline : Pipeline) (root_group : Group)
    (op_groups opsgroup_groups : gmap string (list string))
    (condition_params : gmap string (gset PipelineParam))
    (inputs outputs : gmap string (gset Ref)) :
  _get_inputs_outputs ord pipeline root_group op_groups opsgroup_groups
    condition_params = Ok (inputs, outputs) →
  names_in (lifted_name ord pipeline root_group condition_params)
    (inputs, outputs).
Proof.
  intros Hrun. unfold _get_inputs_outputs in Hrun.
  apply bind_Ok in Hrun as (st1 & Hops & Hrec).
  set (Q := lifted_name ord pipeline root_group condition_params).
  assert (H1 : names_in Q st1).
  { apply (for_each_invariant (names_in Q) _ _ _ _) with (3 := Hops).
    - intros op s s' Hop Hs Hinner.
      apply (for_each_invariant (names_in Q) _ _ _ _) with (3 := Hinner);
        [| done].
      intros param t t' Hparam Ht Hstep.
      apply lift_op_param_extends in Hstep as [-> | [Hvalue Hext]]; [done |].
      apply (names_in_extends Q (_pipelineparam_full_name param) t);
        [| done | done].
      exists param. split; [| done]. left. by exists op.
    - intros g r [Hr | Hr]; simpl in Hr; rewrite table_get_empty in Hr;
        by apply not_elem_of_empty in Hr. }
  apply (recursive_opsgroup_invariant (names_in Q)) with (3 := Hrec); [| done].
  intros group [param flag] s s' Hgroup Hrecursive Hparam Hs Hstep.
  apply lift_recursive_param_extends in Hstep as [-> | [Hvalue Hext]]; [done |].
  apply (names_in_extends Q (_pipelineparam_full_name param) s);
    [| done | done].
  exists param. split; [| done]. right. by exists group, flag.
Qed.

(** Every entry of the tables of inputs and of outputs bears the full name
    of a parameter that the lifter walks and whose value is [None] or
    empty: what lines 203 and 238 skip is a parameter whose value is true.
    So do the entries of [inputs.parameters] and [outputs.parameters] of
    every template made from the tables. *)
Theorem only_valueless_lifted (ord : SetOrder) (pipeline : Pipeline)
    (root_group : Group) (op_groups opsgroup_groups : gmap string (list string))
    (condition_params : gmap string (gset PipelineParam))
    (inputs outputs : gmap string (gset Ref)) :
  order_valid ord →
  _get_inputs_outputs ord pipeline root_group op_groups opsgroup_groups
    condition_params = Ok (inputs, outputs) →
  (∀ g F m, (F, m) ∈ table_get inputs g ∨ (F, m) ∈ table_get outputs g →
     ∃ param, lifted_param ord pipeline root_group condition_params param
              ∧ truthy (param_value param) = false
              ∧ _pipelineparam_full_name param = F)
  ∧ (∀ group dependencies t,
       _group_to_template ord group inputs outputs dependencies = Ok t →
       (∀ F, F ∈ default [] (template_inputs t) →
          ∃ param, lifted_param ord pipeline root_group condition_params param
                   ∧ truthy (param_value param) = false
                   ∧ _pipelineparam_full_name param = F)
       ∧ (∀ e, e ∈ default [] (template_outputs t) →
            ∃ param, lifted_param ord pipeline root_group condition_params param
                     ∧ truthy (param_value param) = false
                     ∧ _pipelineparam_full_name param = entry_name e)).
Proof.
  intros Hord Hrun. pose proof (lifted_names _ _ _ _ _ _ _ _ Hrun) as Hnames.
  split.
  - intros g F m Hr. apply (Hnames g (F, m) Hr).
  - intros group dependencies t Ht. unfold _group_to_template in Ht.
    apply bind_Ok in Ht as ([tasks index] & _ & [= <-]). simpl. split.
    + intros F HF.
      destruct (table_lookup inputs (group_name group)) as [s|] eqn:Hs;
        simpl in HF; [| by apply elem_of_nil in HF].
      apply elem_of_sort_by, list_elem_of_fmap in HF as ([F' m] & -> & Hr).
      rewrite (valid_inputs ord Hord), elem_of_elements in Hr.
      apply table_lookup_get in Hs as <-.
      apply (Hnames (group_name group) (F', m)). by left.
    + intros e He.
      destruct (table_lookup outputs (group_name group)) as [s|] eqn:Hs;
        simpl in He; [| by apply elem_of_nil in He].
      apply elem_of_sort_by, list_elem_of_fmap in He as ([F' m] & -> & Hr).
      rewrite (valid_outputs ord Hord), elem_of_elements in Hr.
      apply table_lookup_get in Hs as <-.
      apply (Hnames (group_name group) (F', m)). by right.
Qed.

Lemma elements_order_valid : order_valid elements_order.
Proof. by split. Qed.

Lemma only_valueless_lifted_witness :
  ∃ inputs outputs,
    _get_inputs_outputs elements_order immediate_pipeline
      (pipeline_root immediate_pipeline)
      (_get_groups_for_ops (pipeline_root immediate_pipeline))
      (_get_groups_for_opsgroups (pipeline_root immediate_pipeline))
      (_get_condition_params_for_ops (pipeline_root immediate_pipeline))
    = Ok (inputs, outputs)
    ∧ (∀ g F m, (F, m) ∈ table_get inputs g ∨ (F, m) ∈ table_get outputs g →
         ∃ param,
           lifted_param elements_order immediate_pipeline
             (pipeline_root immediate_pipeline)
             (_get_condition_params_for_ops (pipeline_root immediate_pipeline))
             param
           ∧ truthy (param_value param) = false
           ∧ _pipelineparam_full_name param = F).
Proof.
  exists (tables_of (lifter_run elements_order immediate_pipeline)).1,
    (tables_of (lifter_run elements_order immediate_pipeline)).2.
  assert (Hrun : lifter_run elements_order immediate_pipeline
                 = Ok ((tables_of (lifter_run elements_order immediate_pipeline)).1,
                       (tables_of (lifter_run elements_order immediate_pipeline)).2)).
  { vm_cast_no_check
      (eq_refl (lifter_run elements_order immediate_pipeline)). }
  split; [exact Hrun |].
  apply (only_valueless_lifted elements_order immediate_pipeline
           (pipeline_root immediate_pipeline)
           (_get_groups_for_ops (pipeline_root immediate_pipeline))
           (_get_groups_for_opsgroups (pipeline_root immediate_pipeline))
           (_get_condition_params_for_ops (pipeline_root immediate_pipeline))).
  - apply elements_order_valid.
  - exact Hrun.
Defined.

(** ** Recursive groups *)

Lemma for_each_ext {A S : Type} (f g : A → S → result S) (l : list A) (st : S) :
  (∀ x s, x ∈ l → f x s = g x s) → for_each f l st = for_each g l st.
Proof.
  revert st. induction l as [|x l IH]; intros st Hfg; simpl; [done |].
  rewrite (Hfg x st) by by left. destruct (g x st) as [st'|e]; simpl; [| done].
  apply IH. intros y s Hy. apply Hfg. by right.
Qed.

Lemma bind_Ok_r {A : Type} (m : result A) : m ≫= Ok = m.
Proof. by destruct m. Qed.

Lemma enumerate_snoc {A : Type} (l : list A) (x : A) :
  enumerate (l ++ [x]) = enumerate l ++ [(length l, x)].
Proof.
  unfold enumerate. rewrite imap_app. simpl. by rewrite Nat.add_0_r.
Qed.

(** ** The tree walker *)

Lemma fold_left_invariant {A B : Type} (P : A → Prop) (f : A → B → A)
    (l : list B) (a : A) :
  (∀ a x, x ∈ l → P a → P (f a x)) → P a → P (fold_left f l a).
Proof.
  revert a. induction l as [|x l IH]; intros a Hstep Ha; simpl; [done |].
  apply IH.
  - intros a' y Hy. apply Hstep. by right.
  - apply Hstep; [by left | done].
Qed.

Lemma ancestry_shape_insert (r : string) (m : gmap string (list string))
    (current_groups : list string) (name : string) :
  head current_groups = Some r → ancestry_shape r m →
  ancestry_shape r (<[name := current_groups ++ [name]]> m).
Proof.
  intros Hhead Hm k l. destruct (decide (name = k)) as [<- | Hne].
  - rewrite lookup_insert_eq. intros [= <-].
    destruct current_groups as [|r' c]; [done |]. injection Hhead as ->.
    by exists c.
  - rewrite lookup_insert_ne by done. apply Hm.
Qed.

Lemma head_snoc {A : Type} (l : list A) (x r : A) :
  head l = Some r → head (l ++ [x]) = Some r.
Proof. by destruct l. Qed.

Lemma op_groups_helper_shape (r : string) (g : Group) :
  ∀ current_groups m,
    head current_groups = Some r → ancestry_shape r m →
    ancestry_shape r (_get_op_groups_helper current_groups g m).
Proof.
  induction g as [g IH] using Group_tree_ind. intros cur m Hhead Hm.
  destruct g as [n t gs os rr i d]. simpl in *.
  apply fold_left_invariant.
  - intros a op _ Ha. by apply ancestry_shape_insert.
  - apply fold_left_invariant; [| done].
    intros a sub Hsub Ha. rewrite Forall_forall in IH.
    destruct (is_recursive sub).
    + by apply ancestry_shape_insert.
    + apply (IH sub Hsub); [by apply head_snoc | done].
Qed.

Lemma opsgroup_groups_helper_shape (r : string) (g : Group) :
  ∀ current_groups m,
    head current_groups = Some r → ancestry_shape r m →
    ancestry_shape r (_get_opsgroup_groups_helper current_groups g m).
Proof.
  induction g as [g IH] using Group_tree_ind. intros cur m Hhead Hm.
  destruct g as [n t gs os rr i d]. simpl in *.
  apply fold_left_invariant; [| done].
  intros a sub Hsub Ha. rewrite Forall_forall in IH.
  destruct (is_recursive sub); [done |].
  apply (IH sub Hsub); [by apply head_snoc |].
  by apply ancestry_shape_insert.
Qed.

(** Every list of the two ancestry tables starts with the name of the root
    and ends with its own key, so it has at least two elements. *)
Theorem ancestry_from_root_to_key (root_group : Group) (k : string)
    (l : list string) :
  _get_groups_for_ops root_group !! k = Some l
  ∨ _get_groups_for_opsgroups root_group !! k = Some l →
  ∃ middle, l = group_name root_group :: middle ++ [k].
Proof.
  intros [Hl | Hl]; revert Hl.
  - apply (op_groups_helper_shape (group_name root_group)); [done |].
    intros k' l'. by rewrite lookup_empty.
  - apply (opsgroup_groups_helper_shape (group_name root_group)); [done |].
    intros k' l'. by rewrite lookup_empty.
Qed.

Lemma ancestry_from_root_to_key_witness :
  ∃ middle, ["p"; "c"; "b"] = "p" :: middle ++ ["b"].
Proof.
  apply (ancestry_from_root_to_key (pipeline_root cross_scope_pipeline) "b").
  left. vm_compute. reflexivity.
Defined.

Lemma fold_left_or {A B : Type} (Q : A → Prop) (f : A → B → A) (c : B → Prop)
    (l : list B) (a : A) :
  (∀ a x, x ∈ l → Q (f a x) ↔ Q a ∨ c x) →
  Q (fold_left f l a) ↔ Q a ∨ ∃ x, x ∈ l ∧ c x.
Proof.
  revert a. induction l as [|x l IH]; intros a Hstep; simpl.
  - split; [by left |]. intros [? | (x & Hx & _)]; [done |].
    by apply elem_of_nil in Hx.
  - rewrite IH by (intros a' y Hy; apply Hstep; by right).
    rewrite (Hstep a x) by by left. split.
    + intros [[? | ?] | (y & Hy & ?)]; [by left | right | right].
      * exists x. split; [by left | done].
      * exists y. split; [by right | done].
    + intros [? | (y & Hy & ?)]; [by left; left |].
      apply elem_of_cons in Hy as [-> | Hy]; [by left; right |].
      right. by exists y.
Qed.

Lemma is_Some_insert {V : Type} (m : gmap string V) (k k' : string) (v : V) :
  is_Some (<[k := v]> m !! k') ↔ is_Some (m !! k') ∨ k = k'.
Proof.
  destruct (decide (k = k')) as [<- | Hne].
  - rewrite lookup_insert_eq. split; [by right | by eexists].
  - rewrite lookup_insert_ne by done. split; [by left |].
    by intros [? | ?].
Qed.

Lemma walked_groups_unfold (g g' : Group) :
  g' ∈ walked_groups g ↔
  g' = g ∨ ∃ sub, sub ∈ group_groups g ∧ is_recursive sub = false
                  ∧ g' ∈ walked_groups sub.
Proof.
  destruct g as [n t gs os rr i d]. simpl.
  rewrite elem_of_cons, list_elem_of_bind. split.
  - intros [-> | (sub & Hg' & Hsub)]; [by left | right].
    exists sub. destruct (is_recursive sub); [by apply elem_of_nil in Hg' | done].
  - intros [-> | (sub & Hsub & Hrec & Hg')]; [by left | right].
    exists sub. by rewrite Hrec.
Qed.

Lemma walked_groups_self (g : Group) : g ∈ walked_groups g.
Proof. apply walked_groups_unfold. by left. Qed.

Lemma leaf_of_unfold (g : Group) (k : string) :
  leaf_of g k ↔
  (∃ op, op ∈ group_ops g ∧ op_name op = k)
  ∨ ∃ sub, sub ∈ group_groups g
           ∧ (if is_recursive sub then group_name sub = k else leaf_of sub k).
Proof.
  unfold leaf_of. split.
  - intros (g' & Hg' & Hk). apply walked_groups_unfold in Hg'
      as [-> | (sub & Hsub & Hrec & Hg')].
    + destruct Hk as [? | (sub & Hsub & Hrec & <-)]; [by left | right].
      exists sub. by rewrite Hrec.
    + right. exists sub. rewrite Hrec. split; [done |]. by exists g'.
  - intros [Hop | (sub & Hsub & Hk)].
    + exists g. split; [apply walked_groups_self | by left].
    + destruct (is_recursive sub) eqn:Hrec.
      * exists g. split; [apply walked_groups_self | right]. by exists sub.
      * destruct Hk as (g' & Hg' & Hk). exists g'. split; [| done].
        apply walked_groups_unfold. right. by exists sub.
Qed.

Lemma inner_group_of_unfold (g : Group) (k : string) :
  inner_group_of g k ↔
  ∃ sub, sub ∈ group_groups g ∧ is_recursive sub = false
         ∧ (group_name sub = k ∨ inner_group_of sub k).
Proof.
  unfold inner_group_of. split.
  - intros (g' & sub & Hg' & Hsub & Hrec & Hk).
    apply walked_groups_unfold in Hg' as [-> | (sub' & Hsub' & Hrec' & Hg')].
    + exists sub. auto.
    + exists sub'. split; [done |]. split; [done |]. right. by exists g', sub.
  - intros (sub & Hsub & Hrec & [Hk | (g' & sub' & Hg' & Hsub' & Hrec' & Hk)]).
    + exists g, sub. split; [apply walked_groups_self | done].
    + exists g', sub'. split; [| done].
      apply walked_groups_unfold. right. by exists sub.
Qed.

Lemma op_groups_helper_keys (g : Group) (k : string) :
  ∀ current_groups m,
    is_Some (_get_op_groups_helper current_groups g m !! k)
    ↔ is_Some (m !! k) ∨ leaf_of g k.
Proof.
  induction g as [g IH] using Group_tree_ind. intros cur m.
  rewrite leaf_of_unfold. destruct g as [n t gs os rr i d]. simpl in *.
  rewrite (fold_left_or (λ a, is_Some (a !! k)) _ (λ op, op_name op = k) os).
  - rewrite (fold_left_or (λ a, is_Some (a !! k)) _
               (λ sub, if is_recursive sub then group_name sub = k
                       else leaf_of sub k) gs).
    + tauto.
    + intros a sub Hsub. rewrite Forall_forall in IH.
      destruct (is_recursive sub); [apply is_Some_insert | by apply IH].
  - intros a op _. apply is_Some_insert.
Qed.

Lemma opsgroup_groups_helper_keys (g : Group) (k : string) :
  ∀ current_groups m,
    is_Some (_get_opsgroup_groups_helper current_groups g m !! k)
    ↔ is_Some (m !! k) ∨ inner_group_of g k.
Proof.
  induction g as [g IH] using Group_tree_ind. intros cur m.
  rewrite inner_group_of_unfold. destruct g as [n t gs os rr i d]. simpl in *.
  rewrite (fold_left_or (λ a, is_Some (a !! k)) _
             (λ sub, is_recursive sub = false
                     ∧ (group_name sub = k ∨ inner_group_of sub k)) gs).
  - naive_solver.
  - intros a sub Hsub. rewrite Forall_forall in IH.
    destruct (is_recursive sub); [naive_solver |].
    rewrite (IH sub Hsub), is_Some_insert. naive_solver.
Qed.

(** The table of the ancestries of ops has an entry exactly for the ops of
    the walked groups and for the recursive calls in them; the table of the
    ancestries of groups has one exactly for the walked groups other than
    the root.  An op or a group below a recursive call has none. *)
Theorem ancestry_keys (root_group : Group) (k : string) :
  (is_Some (_get_groups_for_ops root_group !! k) ↔ leaf_of root_group k)
  ∧ (is_Some (_get_groups_for_opsgroups root_group !! k)
     ↔ inner_group_of root_group k).
Proof.
  unfold _get_groups_for_ops, _get_groups_for_opsgroups.
  rewrite op_groups_helper_keys, opsgroup_groups_helper_keys, lookup_empty.
  split; split; try (by right); by intros [[? [=]] | ?].
Qed.

(** ** The table of groups *)

Lemma dict_get_set {V : Type} (d : list (string * V)) (k k' : string) (v : V) :
  dict_get (dict_set d k v) k' = if decide (k = k') then Some v else dict_get d k'.
Proof.
  induction d as [|[k0 v0] d IH]; simpl.
  - case_decide as Hk.
    + subst. by rewrite String.eqb_refl.
    + by apply String.eqb_neq in Hk as ->.
  - destruct (String.eqb_spec k0 k) as [-> | Hk0]; simpl.
    + case_decide as Hk.
      * subst. by rewrite String.eqb_refl.
      * by apply String.eqb_neq in Hk as ->.
    + destruct (String.eqb_spec k0 k') as [-> | Hk0']; [| done].
      by rewrite decide_False by congruence.
Qed.

Lemma dict_set_elem {V : Type} (d : list (string * V)) (k : string) (v : V)
    (e : string * V) :
  e ∈ dict_set d k v → e ∈ d ∨ e = (k, v).
Proof.
  induction d as [|[k0 v0] d IH]; simpl.
  - intros ->%list_elem_of_singleton. by right.
  - destruct (String.eqb_spec k0 k) as [-> | Hk0].
    + intros [-> | He]%elem_of_cons; [by right | left; by right].
    + intros [-> | He]%elem_of_cons; [left; by left |].
      destruct (IH He) as [? | ?]; [left; by right | by right].
Qed.

Lemma dict_set_keys {V : Type} (d : list (string * V)) (k : string) (v : V) :
  NoDup d.*1 → NoDup (dict_set d k v).*1.
Proof.
  induction d as [|[k0 v0] d IH]; simpl.
  - intros _. apply NoDup_singleton.
  - intros [Hk0 Hd]%NoDup_cons.
    destruct (String.eqb_spec k0 k) as [-> | Hne]; simpl.
    + by apply NoDup_cons.
    + apply NoDup_cons. split; [| by apply IH].
      intros ([k1 v1] & Hk1 & He)%list_elem_of_fmap. simpl in Hk1. subst k1.
      apply dict_set_elem in He as [He | [= -> ->]]; [| done].
      apply Hk0. apply list_elem_of_fmap. by exists (k0, v1).
Qed.

Lemma dict_get_elem {V : Type} (d : list (string * V)) (k : string) (v : V) :
  dict_get d k = Some v → (k, v) ∈ d.
Proof.
  induction d as [|[k0 v0] d IH]; simpl; [done |].
  destruct (String.eqb_spec k0 k) as [-> | Hne].
  - intros [= ->]. by left.
  - intros Hd. right. by apply IH.
Qed.

Lemma dict_update_get {V : Type} (e d : list (string * V)) (k : string) :
  is_Some (dict_get (dict_update d e) k)
  ↔ is_Some (dict_get d k) ∨ is_Some (dict_get e k).
Proof.
  unfold dict_update.
  rewrite (fold_left_or (λ a, is_Some (dict_get a k)) _ (λ kv, kv.1 = k) e).
  - assert (Hkeys : (∃ x, x ∈ e ∧ x.1 = k) ↔ is_Some (dict_get e k));
      [| by rewrite Hkeys].
    induction e as [|[k0 v0] e IH]; simpl.
    + split; [by intros (? & ?%elem_of_nil & _) | by intros [? [=]]].
    + destruct (String.eqb_spec k0 k) as [-> | Hne].
      * split; [by eexists |]. intros _. exists (k, v0). split; [by left | done].
      * rewrite <- IH. split.
        -- intros (x & [-> | Hx]%elem_of_cons & Hk); [done | by exists x].
        -- intros (x & Hx & Hk). exists x. split; [by right | done].
  - intros a [k0 v0] _. simpl. rewrite dict_get_set. case_decide.
    + split; [by right | by eexists].
    + split; [by left | by intros [? | ?]].
Qed.

Lemma dict_update_elem {V : Type} (e d : list (string * V)) (x : string * V) :
  x ∈ dict_update d e → x ∈ d ∨ x ∈ e.
Proof.
  unfold dict_update. revert d.
  induction e as [|[k v] e IH]; intros d; simpl; [by left |].
  intros [Hx | Hx]%IH; [| right; by right].
  apply dict_set_elem in Hx as [? | ->]; [by left | right; by left].
Qed.

Lemma dict_update_keys {V : Type} (e d : list (string * V)) :
  NoDup d.*1 → NoDup (dict_update d e).*1.
Proof.
  unfold dict_update. revert d.
  induction e as [|[k v] e IH]; intros d Hd; simpl; [done |].
  by apply IH, dict_set_keys.
Qed.

Lemma groups_helper_table (g : Group) :
  (∀ k g', (k, g') ∈ _get_groups_helper g →
           k = group_name g' ∧ g' ∈ walked_groups g)
  ∧ NoDup (_get_groups_helper g).*1
  ∧ (∀ k, is_Some (dict_get (_get_groups_helper g) k)
          ↔ ∃ g', g' ∈ walked_groups g ∧ group_name g' = k).
Proof.
  induction g as [g IH] using Group_tree_ind. rewrite Forall_forall in IH.
  split; [| split].
  - destruct g as [n t gs os rr i d]. simpl in IH.
    set (g := mkGroup n t gs os rr i d) in *.
    change (_get_groups_helper g) with
      (fold_left (λ groups g', if is_recursive g' then groups
                               else dict_update groups (_get_groups_helper g'))
         gs [(n, g)]).
    apply (fold_left_invariant
             (λ d', ∀ k g', (k, g') ∈ d' →
                            k = group_name g' ∧ g' ∈ walked_groups g)).
    + intros a sub Hsub Ha k g' Hin.
      destruct (is_recursive sub) eqn:Hrec; [by apply Ha |].
      apply dict_update_elem in Hin as [Hin | Hin]; [by apply Ha |].
      destruct (IH sub Hsub) as (Helem & _ & _).
      destruct (Helem k g' Hin) as [-> Hg']. split; [done |].
      apply walked_groups_unfold. right. by exists sub.
    + intros k g' [= -> ->]%list_elem_of_singleton.
      split; [done | apply walked_groups_self].
  - destruct g as [n t gs os rr i d]. simpl.
    apply (fold_left_invariant (λ d' : list (string * Group), NoDup d'.*1)).
    + intros a sub _ Ha. destruct (is_recursive sub); [done |].
      by apply dict_update_keys.
    + apply NoDup_singleton.
  - intros k. destruct g as [n t gs os rr i d]. simpl in IH.
    set (g := mkGroup n t gs os rr i d) in *.
    change (_get_groups_helper g) with
      (fold_left (λ groups g', if is_recursive g' then groups
                               else dict_update groups (_get_groups_helper g'))
         gs [(n, g)]).
    rewrite (fold_left_or (λ a, is_Some (dict_get a k)) _
               (λ sub, is_recursive sub = false
                       ∧ ∃ g', g' ∈ walked_groups sub ∧ group_name g' = k) gs).
    + assert (Hroot : is_Some (dict_get [(n, g)] k) ↔ n = k).
      { cbn [dict_get]. destruct (String.eqb_spec n k) as [Hnk | Hnk].
        - split; [done | by eexists].
        - split; [by intros [? [=]] | done]. }
      rewrite Hroot. split.
      * intros [<- | (sub & Hsub & Hrec & g' & Hg' & Hk)].
        -- exists g. split; [apply walked_groups_self | done].
        -- exists g'. split; [| done].
           apply (walked_groups_unfold g). right. by exists sub.
      * intros (g' & Hg' & Hk).
        apply (walked_groups_unfold g) in Hg'
          as [-> | (sub & Hsub & Hrec & Hg')].
        -- by left.
        -- right. exists sub. split; [done |]. split; [done |]. by exists g'.
    + intros a sub Hsub. destruct (is_recursive sub) eqn:Hrec; [naive_solver |].
      rewrite dict_update_get. destruct (IH sub Hsub) as (_ & _ & ->).
      naive_solver.
Qed.

(** The table of groups has one entry for each name of a walked group and
    no other: its keys are distinct, each key is the name of the group it
    maps to, and that group is a walked one.  A recursive call, which is
    not walked, is in the table only when it is the root. *)
Theorem groups_table (root_group : Group) :
  NoDup (_get_groups root_group).*1
  ∧ (∀ k g, dict_get (_get_groups root_group) k = Some g →
            group_name g = k ∧ g ∈ walked_groups root_group)
  ∧ (∀ g, g ∈ walked_groups root_group →
          is_Some (dict_get (_get_groups root_group) (group_name g))).
Proof.
  destruct (groups_helper_table root_group) as (Helem & Hkeys & Hget).
  split; [done |]. split.
  - intros k g Hg%dict_get_elem. by destruct (Helem k g Hg) as [-> ?].
  - intros g Hg. apply Hget. by exists g.
Qed.

(** ** The uncommon ancestors *)

Lemma common_groups_len_comm (a b : list string) :
  common_groups_len a b = common_groups_len b a.
Proof.
  revert b. induction a as [|x a IH]; intros [|y b]; simpl; try done.
  rewrite (IH b). by rewrite (String.eqb_sym x y).
Qed.

Lemma common_groups_len_diag (a : list string) :
  common_groups_len a a = length a.
Proof.
  induction a as [|x a IH]; simpl; [done |].
  by rewrite String.eqb_refl, IH.
Qed.

Lemma common_groups_len_nowhere (a b : list string) :
  nowhere_equal a b → common_groups_len a b = 0.
Proof.
  revert b. induction a as [|x a IH]; intros [|y b] Hab; simpl; try done.
  destruct (String.eqb_spec x y) as [-> | Hne].
  - by destruct (Hab 0 y).
  - simpl. apply IH. intros i z Ha. apply (Hab (S i) z Ha).
Qed.

Lemma common_groups_len_prefix (c a b : list string) :
  common_groups_len (c ++ a) (c ++ b) = length c + common_groups_len a b.
Proof.
  induction c as [|x c IH]; simpl; [done |].
  by rewrite String.eqb_refl, IH.
Qed.

Lemma uncommon_ancestors_unfold
    (op_groups opsgroup_groups : gmap string (list string)) (op1 op2 : string) :
  _get_uncommon_ancestors op_groups opsgroup_groups op1 op2
  = match ancestry_of op_groups opsgroup_groups op1,
          ancestry_of op_groups opsgroup_groups op2 with
    | Some a, Some b =>
        Ok (drop (common_groups_len a b) a, drop (common_groups_len a b) b)
    | _, _ => Raise (ValueError (op1 +:+ " does not exist."))
    end.
Proof.
  unfold _get_uncommon_ancestors, ancestry_of.
  destruct (op_groups !! op1), (opsgroup_groups !! op1),
    (op_groups !! op2), (opsgroup_groups !! op2); done.
Qed.

(** The resolver returns exactly when both names are in one of the two
    tables; otherwise it raises the [ValueError] that names the first
    entity, also when only that one is unknown. *)
Theorem uncommon_ancestors_raises
    (op_groups opsgroup_groups : gmap string (list string)) (op1 op2 : string) :
  (ancestry_of op_groups opsgroup_groups op1 = None
   ∨ ancestry_of op_groups opsgroup_groups op2 = None →
   _get_uncommon_ancestors op_groups opsgroup_groups op1 op2
   = Raise (ValueError (op1 +:+ " does not exist.")))
  ∧ (is_Some (ancestry_of op_groups opsgroup_groups op1) →
     is_Some (ancestry_of op_groups opsgroup_groups op2) →
     ∃ up down,
       _get_uncommon_ancestors op_groups opsgroup_groups op1 op2
       = Ok (up, down)).
Proof.
  rewrite uncommon_ancestors_unfold. split.
  - intros [-> | ->]; [done |].
    by destruct (ancestry_of op_groups opsgroup_groups op1).
  - intros [a ->] [b ->]. by eexists _, _.
Qed.

Lemma uncommon_ancestors_raises_witness :
  _get_uncommon_ancestors {["a" := ["p"; "a"]]} ∅ "z" "a"
  = Raise (ValueError "z does not exist.").
Proof.
  apply (uncommon_ancestors_raises {["a" := ["p"; "a"]]} ∅ "z" "a").
  left. reflexivity.
Defined.

(** Swapping the two entities swaps the two tails. *)
Theorem uncommon_ancestors_swap
    (op_groups opsgroup_groups : gmap string (list string)) (op1 op2 : string)
    (up down : list string) :
  _get_uncommon_ancestors op_groups opsgroup_groups op1 op2 = Ok (up, down) →
  _get_uncommon_ancestors op_groups opsgroup_groups op2 op1 = Ok (down, up).
Proof.
  rewrite !uncommon_ancestors_unfold.
  destruct (ancestry_of op_groups opsgroup_groups op1) as [a|]; [| done].
  destruct (ancestry_of op_groups opsgroup_groups op2) as [b|]; [| done].
  rewrite (common_groups_len_comm b a). by intros [= <- <-].
Qed.

Lemma uncommon_ancestors_swap_witness :
  _get_uncommon_ancestors
    (_get_groups_for_ops (pipeline_root cross_scope_pipeline))
    (_get_groups_for_opsgroups (pipeline_root cross_scope_pipeline)) "b" "a"
  = Ok (["c"; "b"], ["a"]).
Proof.
  apply (uncommon_ancestors_swap
           (_get_groups_for_ops (pipeline_root cross_scope_pipeline))
           (_get_groups_for_opsgroups (pipeline_root cross_scope_pipeline))
           "a" "b" ["a"] ["c"; "b"]).
  vm_compute. reflexivity.
Defined.

(** When the two ancestries are a common part followed by two tails that
    agree at no position, the resolver returns the two tails: the ancestry
    of an entity against itself leaves nothing. *)
Theorem uncommon_ancestors_tails
    (op_groups opsgroup_groups : gmap string (list string)) (op1 op2 : string)
    (common up down : list string) :
  ancestry_of op_groups opsgroup_groups op1 = Some (common ++ up) →
  ancestry_of op_groups opsgroup_groups op2 = Some (common ++ down) →
  nowhere_equal up down →
  _get_uncommon_ancestors op_groups opsgroup_groups op1 op2 = Ok (up, down).
Proof.
  intros H1 H2 Hnowhere. rewrite uncommon_ancestors_unfold, H1, H2.
  rewrite common_groups_len_prefix, common_groups_len_nowhere by done.
  by rewrite Nat.add_0_r, !drop_app_length.
Qed.

Lemma uncommon_ancestors_tails_witness :
  _get_uncommon_ancestors {["a" := ["p"; "g"; "a"]; "b" := ["p"; "h"; "k"; "b"]]}
    ∅ "a" "b"
  = Ok (["g"; "a"], ["h"; "k"; "b"]).
Proof.
  apply (uncommon_ancestors_tails
           {["a" := ["p"; "g"; "a"]; "b" := ["p"; "h"; "k"; "b"]]} ∅ "a" "b"
           ["p"] ["g"; "a"] ["h"; "k"; "b"]).
  - reflexivity.
  - reflexivity.
  - intros [|[|[|i]]] x; simpl; intros [= <-]; done.
Defined.

(** ** The condition propagator *)

Lemma elem_of_conditions_add (conditions : gmap string (gset PipelineParam))
    (name : string) (param q : PipelineParam) (k : string) :
  q ∈ table_get (conditions_add conditions name param) k
  ↔ q ∈ table_get conditions k
    ∨ (name = k ∧ q = param
       ∧ param_key param ∉ param_key <$> elements (table_get conditions name)).
Proof.
  unfold conditions_add. case_decide as Hheld.
  - split; [by left | by intros [? | (_ & _ & ?)]].
  - rewrite elem_of_table_add. naive_solver.
Qed.

(** The set of [k] holds a parameter of the key [key] once a parameter of
    that key was added to it. *)
Lemma key_of_conditions_add (conditions : gmap string (gset PipelineParam))
    (name : string) (param : PipelineParam) (k : string)
    (key : option string * string) :
  (∃ q, q ∈ table_get (conditions_add conditions name param) k
        ∧ param_key q = key)
  ↔ (∃ q, q ∈ table_get conditions k ∧ param_key q = key)
    ∨ (name = k ∧ param_key param = key).
Proof.
  split.
  - intros (q & [Hq | (-> & -> & _)]%elem_of_conditions_add & Hkey).
    + left. by exists q.
    + by right.
  - intros [(q & Hq & Hkey) | [-> Hkey]].
    + exists q. split; [| done]. apply elem_of_conditions_add. by left.
    + destruct (decide (param_key param
                          ∈ param_key <$> elements (table_get conditions k)))
        as [Hheld | Hheld].
      * apply list_elem_of_fmap in Hheld as (q & Hq & Hin).
        apply elem_of_elements in Hin. exists q. split; [| congruence].
        apply elem_of_conditions_add. by left.
      * exists param. split; [| done]. apply elem_of_conditions_add.
        by right.
Qed.

Lemma key_of_add_conditions (name : string) (params : list PipelineParam)
    (conditions : gmap string (gset PipelineParam)) (k : string)
    (key : option string * string) :
  (∃ q, q ∈ table_get (add_conditions name params conditions) k
        ∧ param_key q = key)
  ↔ (∃ q, q ∈ table_get conditions k ∧ param_key q = key)
    ∨ (name = k ∧ key ∈ param_key <$> params).
Proof.
  unfold add_conditions.
  rewrite (fold_left_or (λ a, ∃ q, q ∈ table_get a k ∧ param_key q = key) _
             (λ p, name = k ∧ param_key p = key) params).
  - split; intros [? | H]; try (by left); right.
    + destruct H as (p & Hp & -> & Hkey). split; [done |].
      apply list_elem_of_fmap. by exists p.
    + destruct H as [-> (p & -> & Hp)%list_elem_of_fmap]. by exists p.
  - intros a p _. apply key_of_conditions_add.
Qed.

Lemma guards_unfold (g : Group) (param : PipelineParam) (k : string) :
  guards g param k ↔
  (param ∈ condition_operands g ∧ leaf_of g k)
  ∨ ∃ sub, sub ∈ group_groups g ∧ is_recursive sub = false
           ∧ guards sub param k.
Proof.
  unfold guards. split.
  - intros (g' & Hg' & Hp & Hk).
    apply walked_groups_unfold in Hg' as [-> | (sub & Hsub & Hrec & Hg')];
      [by left | right].
    exists sub. split; [done |]. split; [done |]. by exists g'.
  - intros [[Hp Hk] | (sub & Hsub & Hrec & g' & Hg' & Hp & Hk)].
    + exists g. split; [apply walked_groups_self | done].
    + exists g'. split; [| done].
      apply walked_groups_unfold. right. by exists sub.
Qed.

(** What the walk of a group adds to the table: parameters of the list it
    was given, under the names of the ops and recursive calls below the
    group, and operands of the conditions of the group, under the names
    they guard. *)
Lemma condition_params_helper_invariant
    (P : gmap string (gset PipelineParam) → Prop) (g : Group) :
  ∀ current conditions,
    (∀ m name param,
       (param ∈ current ∧ leaf_of g name) ∨ guards g param name →
       P m → P (conditions_add m name param)) →
    P conditions →
    P (_get_condition_params_for_ops_helper g current conditions).
Proof.
  induction g as [g IH] using Group_tree_ind. rewrite Forall_forall in IH.
  intros cur m Hstep Hm.
  assert (Hleaf : ∀ name,
            (∃ op, op ∈ group_ops g ∧ op_name op = name)
            ∨ (∃ sub, sub ∈ group_groups g
                 ∧ (if is_recursive sub then group_name sub = name
                    else leaf_of sub name)) →
            leaf_of g name).
  { intros name. by rewrite (leaf_of_unfold g name). }
  assert (Hguards : ∀ param name sub,
            sub ∈ group_groups g → is_recursive sub = false →
            guards sub param name → guards g param name).
  { intros param name sub Hsub Hrec Hguard. apply guards_unfold. right.
    by exists sub. }
  assert (Hown : ∀ param name,
            param ∈ condition_operands g → leaf_of g name →
            guards g param name).
  { intros param name Hp Hname. apply guards_unfold. by left. }
  destruct g as [n t gs os rr i d]. unfold condition_operands in Hown.
  simpl in *.
  set (new := match t with
              | type_condition c =>
                  cur ++ operand_params (operand1 c) ++ operand_params (operand2 c)
              | _ => cur
              end).
  assert (Hnew : ∀ param name,
            param ∈ new → leaf_of (mkGroup n t gs os rr i d) name →
            P m → ∀ m', P m' → P (conditions_add m' name param)).
  { intros param name Hp Hname _ m' Hm'. apply Hstep; [| done].
    unfold new in Hp. destruct t as [| c | |];
      try (left; by split).
    apply elem_of_app in Hp as [Hp | Hp]; [left; by split |].
    right. by apply Hown. }
  apply fold_left_invariant.
  - intros a sub Hsub Ha. destruct (is_recursive sub) eqn:Hrec.
    + unfold add_conditions. apply fold_left_invariant; [| done].
      intros a' param Hp Ha'. apply (Hnew param (group_name sub)); try done.
      apply Hleaf. right. exists sub. by rewrite Hrec.
    + apply (IH sub Hsub); [| done].
      intros m' name param [[Hp Hname] | Hguard] Hm'.
      * apply (Hnew param name); try done.
        apply Hleaf. right. exists sub. by rewrite Hrec.
      * apply Hstep; [| done]. right. by apply (Hguards param name sub).
  - apply fold_left_invariant; [| done].
    intros a op Hop Ha. unfold add_conditions.
    apply fold_left_invariant; [| done].
    intros a' param Hp Ha'. apply (Hnew param (op_name op)); try done.
    apply Hleaf. left. by exists op.
Qed.

Lemma condition_keys_helper_spec (key : option string * string) (k : string)
    (g : Group) :
  ∀ current conditions,
    (∃ q, q ∈ table_get
                (_get_condition_params_for_ops_helper g current conditions) k
          ∧ param_key q = key)
    ↔ (∃ q, q ∈ table_get conditions k ∧ param_key q = key)
      ∨ (key ∈ param_key <$> current ∧ leaf_of g k)
      ∨ ∃ param, param_key param = key ∧ guards g param k.
Proof.
  induction g as [g IH] using Group_tree_ind. rewrite Forall_forall in IH.
  intros cur m.
  assert (Hguards : (∃ param, param_key param = key ∧ guards g param k)
            ↔ (key ∈ param_key <$> condition_operands g ∧ leaf_of g k)
              ∨ ∃ sub, sub ∈ group_groups g ∧ is_recursive sub = false
                       ∧ ∃ param, param_key param = key ∧ guards sub param k).
  { split.
    - intros (param & Hkey & [[Hp Hk] | (sub & Hsub & Hrec & Hg)]%guards_unfold).
      + left. split; [| done]. apply list_elem_of_fmap. by exists param.
      + right. exists sub. split; [done |]. split; [done |]. by exists param.
    - intros [[(param & -> & Hp)%list_elem_of_fmap Hk]
             | (sub & Hsub & Hrec & param & Hkey & Hg)].
      + exists param. split; [done |]. apply guards_unfold. by left.
      + exists param. split; [done |]. apply guards_unfold. right.
        by exists sub. }
  rewrite Hguards, (leaf_of_unfold g k). clear Hguards.
  destruct g as [n t gs os rr i d]. unfold condition_operands. simpl in *.
  set (own := match t with
              | type_condition c =>
                  operand_params (operand1 c) ++ operand_params (operand2 c)
              | _ => []
              end).
  set (new := match t with
              | type_condition c =>
                  cur ++ operand_params (operand1 c) ++ operand_params (operand2 c)
              | _ => cur
              end).
  set (Q := λ a : gmap string (gset PipelineParam),
              ∃ q, q ∈ table_get a k ∧ param_key q = key).
  set (G := λ sub : Group, ∃ param, param_key param = key ∧ guards sub param k).
  assert (Hnew : key ∈ param_key <$> new
                 ↔ key ∈ param_key <$> cur ∨ key ∈ param_key <$> own).
  { unfold new, own. destruct t; rewrite ?fmap_app, ?elem_of_app;
      split; try tauto; try (by left); by intros [? | ?%elem_of_nil]. }
  set (L := (∃ op, op ∈ os ∧ op_name op = k)
            ∨ ∃ sub, sub ∈ gs
                ∧ (if is_recursive sub then group_name sub = k
                   else leaf_of sub k)).
  change ((Q (fold_left
                (λ m0 g0,
                   if is_recursive g0
                   then add_conditions (group_name g0) new m0
                   else _get_condition_params_for_ops_helper g0 new m0)
                gs
                (fold_left (λ m0 op, add_conditions (op_name op) new m0) os m)))
          ↔ Q m ∨ (key ∈ param_key <$> cur ∧ L)
            ∨ ((key ∈ param_key <$> own ∧ L)
               ∨ ∃ sub, sub ∈ gs ∧ is_recursive sub = false ∧ G sub)).
  rewrite (fold_left_or Q _
             (λ sub, if is_recursive sub
                     then group_name sub = k ∧ key ∈ param_key <$> new
                     else (key ∈ param_key <$> new ∧ leaf_of sub k) ∨ G sub)
             gs).
  - rewrite (fold_left_or Q _
               (λ op, op_name op = k ∧ key ∈ param_key <$> new) os).
    + assert (Hin : key ∈ param_key <$> new → L →
                Q m ∨ (key ∈ param_key <$> cur ∧ L)
                ∨ (key ∈ param_key <$> own ∧ L)
                  ∨ ∃ sub, sub ∈ gs ∧ is_recursive sub = false ∧ G sub).
      { intros [? | ?]%Hnew HL; [right; left | right; right; left]; done. }
      split.
      * intros [[? | (op & Hop & Hk & Hp)] | (sub & Hsub & Hc)].
        -- by left.
        -- apply Hin; [done |]. left. by exists op.
        -- destruct (is_recursive sub) eqn:Hrec.
           ++ destruct Hc as [Hk Hp]. apply Hin; [done |].
              right. exists sub. by rewrite Hrec.
           ++ destruct Hc as [[Hp Hk] | Hguard].
              ** apply Hin; [done |]. right. exists sub. by rewrite Hrec.
              ** right. right. right. by exists sub.
      * assert (Hout : key ∈ param_key <$> new → L →
                  (Q m ∨ ∃ op, op ∈ os ∧ op_name op = k
                               ∧ key ∈ param_key <$> new)
                  ∨ ∃ sub, sub ∈ gs
                      ∧ (if is_recursive sub
                         then group_name sub = k ∧ key ∈ param_key <$> new
                         else (key ∈ param_key <$> new ∧ leaf_of sub k)
                              ∨ G sub)).
        { intros Hp [(op & Hop & Hk) | (sub & Hsub & Hk)].
          - left. right. by exists op.
          - right. exists sub. split; [done |].
            destruct (is_recursive sub); auto. }
        intros [? | [[Hp HL] | [[Hp HL] | (sub & Hsub & Hrec & Hguard)]]].
        -- by left; left.
        -- apply Hout; [apply Hnew; by left | done].
        -- apply Hout; [apply Hnew; by right | done].
        -- right. exists sub. split; [done |]. rewrite Hrec. by right.
    + intros a op _. unfold Q. rewrite key_of_add_conditions. naive_solver.
  - intros a sub Hsub. unfold Q, G. destruct (is_recursive sub).
    + rewrite key_of_add_conditions. naive_solver.
    + rewrite (IH sub Hsub). naive_solver.
Qed.

(** Every parameter recorded under a name is an operand of the condition of
    a walked group, the name being that of an op, or of a recursive call,
    of the walked part of that group.  Conversely such an operand is
    recorded, or a recorded parameter stands for it: one of the same
    [op_name] and [name].  No two parameters recorded under one name have
    the same [op_name] and [name].  A plain value as operand is never
    recorded. *)
Theorem condition_params_exact (root_group : Group) (k : string) :
  (∀ param, param ∈ table_get (_get_condition_params_for_ops root_group) k →
            guards root_group param k)
  ∧ (∀ param, guards root_group param k →
       ∃ q, q ∈ table_get (_get_condition_params_for_ops root_group) k
            ∧ param_key q = param_key param)
  ∧ (∀ p q, p ∈ table_get (_get_condition_params_for_ops root_group) k →
            q ∈ table_get (_get_condition_params_for_ops root_group) k →
            param_key p = param_key q → p = q).
Proof.
  unfold _get_condition_params_for_ops. split; [| split].
  - apply (condition_params_helper_invariant
             (λ m, ∀ param, param ∈ table_get m k → guards root_group param k)).
    + intros m name param [[?%elem_of_nil _] | Hguard] Hm q; [done |].
      intros [Hq | (-> & -> & _)]%elem_of_conditions_add; [by apply Hm | done].
    + intros param. rewrite table_get_empty. by intros ?%not_elem_of_empty.
  - intros param Hguard. apply condition_keys_helper_spec. right. right.
    by exists param.
  - apply (condition_params_helper_invariant
             (λ m, ∀ p q, p ∈ table_get m k → q ∈ table_get m k →
                          param_key p = param_key q → p = q)).
    + intros m name param _ Hm p q.
      intros [Hp | (-> & -> & Hnew)]%elem_of_conditions_add
        [Hq | (Hname & -> & Hnew')]%elem_of_conditions_add Hkey.
      * by apply Hm.
      * subst name. destruct Hnew'. rewrite <- Hkey.
        apply list_elem_of_fmap. exists p. split; [done |].
        by apply elem_of_elements.
      * destruct Hnew. rewrite Hkey.
        apply list_elem_of_fmap. exists q. split; [done |].
        by apply elem_of_elements.
      * done.
    + intros p q. rewrite table_get_empty. by intros ?%not_elem_of_empty.
Qed.

(** ** Pipeline parameters and missing producers *)

Lemma lift_pipeline_param_entries (F : string) (groups : list string)
    (inputs : gmap string (gset Ref)) (g : string) :
  g ∈ groups → (F, None) ∈ table_get (lift_pipeline_param F groups inputs) g.
Proof.
  unfold lift_pipeline_param. intros Hg.
  apply (fold_left_or (λ a, (F, None) ∈ table_get a g) _ (λ g', g' = g)).
  - intros a g' _. rewrite elem_of_table_add. naive_solver.
  - right. by exists g.
Qed.

(** The step of a parameter of an op of [pipeline.ops], in a run of the
    lifter that returns: the tables it leaves are part of the result. *)
Lemma op_param_step (ord : SetOrder) (pipeline : Pipeline)
    (root_group : Group) (op_groups opsgroup_groups : gmap string (list string))
    (condition_params : gmap string (gset PipelineParam))
    (inputs outputs : gmap string (gset Ref)) (key : string) (op : Op)
    (param : PipelineParam) :
  _get_inputs_outputs ord pipeline root_group op_groups opsgroup_groups
    condition_params = Ok (inputs, outputs) →
  (key, op) ∈ pipeline_ops pipeline →
  param ∈ op_params ord condition_params op →
  ∃ st st',
    lift_op_param (pipeline_ops pipeline) op_groups opsgroup_groups op param st
    = Ok st'
    ∧ state_le st' (inputs, outputs).
Proof.
  intros Hrun Hop Hparam. unfold _get_inputs_outputs in Hrun.
  apply bind_Ok in Hrun as (st1 & Hops & Hrec).
  apply recursive_opsgroup_le in Hrec.
  assert (Hop' : op ∈ (pipeline_ops pipeline).*2).
  { apply list_elem_of_fmap. by exists (key, op). }
  destruct (for_each_step state_le _ _ _ _ op
              (λ y s s' _, ops_loop_le ord _ _ _ _ y s s') Hops Hop')
    as (s1 & s2 & _ & Hinner & Hs2).
  assert (Hmono : ∀ y s s', y ∈ op_params ord condition_params op →
            lift_op_param (pipeline_ops pipeline) op_groups opsgroup_groups op y s
            = Ok s' → state_le s s').
  { intros y s s' _ Hstep.
    apply lift_op_param_extends in Hstep as [-> | [_ Hext]];
      [reflexivity | by eapply state_extends_le]. }
  destruct (for_each_step state_le _ _ _ _ param Hmono Hinner Hparam)
    as (t1 & t2 & _ & Hstep & Ht2).
  exists t1, t2. split; [done |]. by repeat (etrans; [done |]).
Qed.

(** A parameter of the pipeline (no producer, no immediate value) that an
    op other than an exit handler takes is recorded, with no producer, as
    an input of every group of the ancestry of the op, the op included. *)
Theorem pipeline_param_lifted (ord : SetOrder) (pipeline : Pipeline)
    (root_group : Group) (op_groups opsgroup_groups : gmap string (list string))
    (condition_params : gmap string (gset PipelineParam))
    (inputs outputs : gmap string (gset Ref)) (key : string) (op : Op)
    (param : PipelineParam) (groups : list string) (g : string) :
  _get_inputs_outputs ord pipeline root_group op_groups opsgroup_groups
    condition_params = Ok (inputs, outputs) →
  (key, op) ∈ pipeline_ops pipeline →
  param ∈ op_params ord condition_params op →
  truthy (param_value param) = false →
  truthy (param_op_name param) = false →
  op_is_exit_handler op = false →
  op_groups !! op_name op = Some groups →
  g ∈ groups →
  (_pipelineparam_full_name param, None) ∈ table_get inputs g.
Proof.
  intros Hrun Hop Hparam Hvalue Hproducer Hexit Hgroups Hg.
  destruct (op_param_step _ _ _ _ _ _ _ _ _ _ _ Hrun Hop Hparam)
    as (st & st' & Hstep & [Hle _]).
  apply Hle. unfold lift_op_param in Hstep.
  rewrite Hvalue, Hproducer, Hexit in Hstep. unfold groups_item in Hstep.
  rewrite Hgroups in Hstep. simpl in Hstep. injection Hstep as <-. simpl.
  by apply lift_pipeline_param_entries.
Qed.

Lemma for_each_raises {A S : Type} (f : A → S → result S) (l : list A) (x : A) :
  x ∈ l → (∀ s, ∃ e, f x s = Raise e) → ∀ st, ∃ e, for_each f l st = Raise e.
Proof.
  intros Hx Hraise. induction l as [|y l IH]; intros st.
  - by apply elem_of_nil in Hx.
  - simpl. apply elem_of_cons in Hx as [<- | Hx].
    + destruct (Hraise st) as [e ->]. by exists e.
    + destruct (f y st) as [st'|e]; simpl; [by apply IH | by exists e].
Qed.

(** When an op of [pipeline.ops] takes a parameter without immediate value
    whose producer is not a key of [pipeline.ops], the lifter raises. *)
Theorem missing_producer_raises (ord : SetOrder) (pipeline : Pipeline)
    (root_group : Group) (op_groups opsgroup_groups : gmap string (list string))
    (condition_params : gmap string (gset PipelineParam)) (key : string)
    (op : Op) (param : PipelineParam) :
  (key, op) ∈ pipeline_ops pipeline →
  param ∈ op_params ord condition_params op →
  truthy (param_value param) = false →
  truthy (param_op_name param) = true →
  dict_get (pipeline_ops pipeline) (str (param_op_name param)) = None →
  ∃ e, _get_inputs_outputs ord pipeline root_group op_groups opsgroup_groups
         condition_params = Raise e.
Proof.
  intros Hop Hparam Hvalue Hproducer Hmissing. unfold _get_inputs_outputs.
  assert (Hop' : op ∈ (pipeline_ops pipeline).*2).
  { apply list_elem_of_fmap. by exists (key, op). }
  destruct (for_each_raises
              (λ op st,
                 for_each
                   (lift_op_param (pipeline_ops pipeline) op_groups
                      opsgroup_groups op)
                   (op_params ord condition_params op) st)
              _ op Hop') with (st := (∅ : gmap string (gset Ref),
                                      ∅ : gmap string (gset Ref)))
    as [e ->]; [| by exists e].
  apply (for_each_raises _ _ param Hparam). intros s.
  unfold lift_op_param, dict_item.
  rewrite Hvalue, Hproducer, Hmissing. by eexists.
Qed.

Lemma pipeline_param_lifted_witness :
  ("n", None)
    ∈ table_get (tables_of (lifter_run elements_order passthrough_pipeline)).1 "p".
Proof.
  apply (pipeline_param_lifted elements_order passthrough_pipeline
           (pipeline_root passthrough_pipeline)
           (_get_groups_for_ops (pipeline_root passthrough_pipeline))
           (_get_groups_for_opsgroups (pipeline_root passthrough_pipeline))
           (_get_condition_params_for_ops (pipeline_root passthrough_pipeline))
           (tables_of (lifter_run elements_order passthrough_pipeline)).1
           (tables_of (lifter_run elements_order passthrough_pipeline)).2
           "u" op_u (pipeline_param "n") ["p"; "u"] "p").
  - vm_cast_no_check (eq_refl (lifter_run elements_order passthrough_pipeline)).
  - left.
  - vm_compute. left.
  - reflexivity.
  - reflexivity.
  - reflexivity.
  - vm_compute. reflexivity.
  - left.
Defined.

Lemma missing_producer_raises_witness :
  ∃ e, _get_inputs_outputs elements_order dangling_pipeline
         (pipeline_root dangling_pipeline)
         (_get_groups_for_ops (pipeline_root dangling_pipeline))
         (_get_groups_for_opsgroups (pipeline_root dangling_pipeline))
         (_get_condition_params_for_ops (pipeline_root dangling_pipeline))
       = Raise e.
Proof.
  apply (missing_producer_raises elements_order dangling_pipeline
           (pipeline_root dangling_pipeline)
           (_get_groups_for_ops (pipeline_root dangling_pipeline))
           (_get_groups_for_opsgroups (pipeline_root dangling_pipeline))
           (_get_condition_params_for_ops (pipeline_root dangling_pipeline))
           "b" op_b (output_of "a" "x")).
  - left.
  - vm_compute. left.
  - reflexivity.
  - reflexivity.
  - reflexivity.
Defined.

(** ** The dependency lifter *)

Lemma all_groups_unfold (g g' : Group) :
  g' ∈ all_groups g ↔ g' = g ∨ ∃ sub, sub ∈ group_groups g ∧ g' ∈ all_groups sub.
Proof.
  destruct g as [n t gs os rr i d]. simpl.
  rewrite elem_of_cons, list_elem_of_bind. naive_solver.
Qed.

Lemma first_group_Ok (groups : list string) (g : string) :
  first_group groups = Ok g ↔ groups !! 0 = Some g.
Proof.
  unfold first_group. destruct (groups !! 0); split; by intros [= <-].
Qed.

(** A dependency step that returns adds one edge, between the first
    uncommon ancestors. *)
Lemma add_dependency_Ok (op_groups opsgroups_groups : gmap string (list string))
    (upstream downstream : string) (deps deps' : gmap string (gset string)) :
  add_dependency op_groups opsgroups_groups upstream downstream deps = Ok deps' →
  ∃ u d, first_uncommon op_groups opsgroups_groups upstream downstream u d
         ∧ deps' = table_add deps d u.
Proof.
  unfold add_dependency. intros Hrun.
  apply bind_Ok in Hrun as ([up down] & Hanc & Hrun).
  apply bind_Ok in Hrun as (d & Hd%first_group_Ok & Hrun).
  apply bind_Ok in Hrun as (u & Hu%first_group_Ok & [= <-]).
  exists u, d. split; [| done]. by exists up, down.
Qed.

Lemma op_dependency_step_le (ops : list (string * Op))
    (opsgroups : list (string * Group))
    (op_groups opsgroups_groups : gmap string (list string)) (op : Op)
    (name : string) (deps deps' : gmap string (gset string)) :
  op_dependency_step ops opsgroups op_groups opsgroups_groups op name deps
  = Ok deps' →
  table_le deps deps'.
Proof.
  intros (upstream & _ & Hadd)%bind_Ok.
  apply add_dependency_Ok in Hadd as (u & d & _ & ->). apply table_add_le.
Qed.

Lemma group_dependency_step_le (ops : list (string * Op))
    (op_groups opsgroups_groups : gmap string (list string)) (group : Group)
    (name : string) (deps deps' : gmap string (gset string)) :
  group_dependency_step ops op_groups opsgroups_groups group name deps
  = Ok deps' →
  table_le deps deps'.
Proof.
  intros (upstream & _ & Hadd)%bind_Ok.
  apply add_dependency_Ok in Hadd as (u & d & _ & ->). apply table_add_le.
Qed.

Lemma dependency_opsgroup_unfold (ord : SetOrder) (ops : list (string * Op))
    (op_groups opsgroups_groups : gmap string (list string))
    (condition_params : gmap string (gset PipelineParam)) (group : Group)
    (deps : gmap string (gset string)) :
  _get_dependency_opsgroup ord ops op_groups opsgroups_groups condition_params
    group deps
  = (for_each
       (group_dependency_step ops op_groups opsgroups_groups group)
       (order_upstream_groups ord (group_name group)
          (group_upstream_op_names ord condition_params group)) deps
     ≫= for_each
          (_get_dependency_opsgroup ord ops op_groups opsgroups_groups
             condition_params)
          (group_groups group)).
Proof. by destruct group. Qed.

(** A property of the table that every step of every group of the tree
    preserves holds after the walk. *)
Lemma dependency_opsgroup_invariant (P : gmap string (gset string) → Prop)
    (ord : SetOrder) (ops : list (string * Op))
    (op_groups opsgroups_groups : gmap string (list string))
    (condition_params : gmap string (gset PipelineParam)) (root : Group) :
  (∀ group name s s',
     group ∈ all_groups root →
     name ∈ order_upstream_groups ord (group_name group)
              (group_upstream_op_names ord condition_params group) →
     P s →
     group_dependency_step ops op_groups opsgroups_groups group name s = Ok s' →
     P s') →
  ∀ st st', P st →
    _get_dependency_opsgroup ord ops op_groups opsgroups_groups condition_params
      root st = Ok st' →
    P st'.
Proof.
  induction root as [g IH] using Group_tree_ind. rewrite Forall_forall in IH.
  intros Hstep st st' HP Hrun. rewrite dependency_opsgroup_unfold in Hrun.
  apply bind_Ok in Hrun as (st1 & Hown & Hsubs).
  assert (HP1 : P st1).
  { apply (for_each_invariant P _ _ _ _) with (3 := Hown); [| done].
    intros name s s' Hname Hs. by apply (Hstep g); [apply all_groups_self |..]. }
  apply (for_each_invariant P _ _ _ _) with (3 := Hsubs); [| done].
  intros sub s s' Hsub Hs. apply (IH sub Hsub); [| done].
  intros group name s1 s2 Hgroup. apply Hstep.
  by apply (all_groups_child g sub).
Qed.

(** When the loop of one group of the tree raises whatever the table is,
    the walk raises. *)
Lemma dependency_opsgroup_raises (ord : SetOrder) (ops : list (string * Op))
    (op_groups opsgroups_groups : gmap string (list string))
    (condition_params : gmap string (gset PipelineParam)) (group : Group)
    (root : Group) :
  group ∈ all_groups root →
  (∀ s, ∃ e,
     for_each (group_dependency_step ops op_groups opsgroups_groups group)
       (order_upstream_groups ord (group_name group)
          (group_upstream_op_names ord condition_params group)) s
     = Raise e) →
  ∀ st, ∃ e,
    _get_dependency_opsgroup ord ops op_groups opsgroups_groups condition_params
      root st = Raise e.
Proof.
  intros Hgroup Hraise. induction root as [g IH] using Group_tree_ind.
  rewrite Forall_forall in IH. intros st.
  rewrite dependency_opsgroup_unfold.
  apply all_groups_unfold in Hgroup as [-> | (sub & Hsub & Hgroup)].
  - destruct (Hraise st) as [e ->]. by exists e.
  - destruct (for_each _ _ st) as [st1|e]; simpl; [| by exists e].
    apply (for_each_raises _ _ sub Hsub). by apply IH.
Qed.

Lemma elem_of_producer_names (params : list PipelineParam) (name : string) :
  name ∈ producer_names params
  ↔ ∃ param, param ∈ params ∧ truthy (param_op_name param) = true
             ∧ param_op_name param = Some name.
Proof.
  unfold producer_names. rewrite elem_of_list_to_set, list_elem_of_omap.
  split; intros (param & Hparam & H); exists param; split; try done.
  - by destruct (truthy (param_op_name param)).
  - by destruct H as [-> ->].
Qed.
(** The run of the dependency lifter on a pipeline, with the tables of the
    walker and of the condition propagator. *)
Definition dependencies_run (ord : SetOrder) (pipeline : Pipeline)
  : result (gmap string (gset string)) :=
  _get_dependencies ord pipeline (pipeline_root pipeline)
    (_get_groups_for_ops (pipeline_root pipeline))
    (_get_groups_for_opsgroups (pipeline_root pipeline))
    (_get_groups (pipeline_root pipeline))
    (_get_condition_params_for_ops (pipeline_root pipeline)).

Lemma op_dependencies_loop_le (ops : list (string * Op))
    (opsgroups : list (string * Group))
    (op_groups opsgroups_groups : gmap string (list string)) (op : Op)
    (names : list string) (deps deps' : gmap string (gset string)) :
  for_each (op_dependency_step ops opsgroups op_groups opsgroups_groups op)
    names deps = Ok deps' →
  table_le deps deps'.
Proof.
  apply for_each_increasing; [apply _ |].
  intros name s s' _. apply op_dependency_step_le.
Qed.

Lemma dependencies_unfold (ord : SetOrder) (pipeline : Pipeline)
    (root_group : Group) (op_groups opsgroups_groups : gmap string (list string))
    (opsgroups : list (string * Group))
    (condition_params : gmap string (gset PipelineParam)) :
  _get_dependencies ord pipeline root_group op_groups opsgroups_groups opsgroups
    condition_params
  = (for_each
       (λ op deps,
          for_each
            (op_dependency_step (pipeline_ops pipeline) opsgroups op_groups
               opsgroups_groups op)
            (order_upstream_ops ord (op_name op)
               (op_upstream_op_names ord condition_params op)) deps)
       (pipeline_ops pipeline).*2 ∅
     ≫= _get_dependency_opsgroup ord (pipeline_ops pipeline) op_groups
          opsgroups_groups condition_params root_group).
Proof. done. Qed.

Lemma elem_of_upstream_op_names (ord : SetOrder)
    (condition_params : gmap string (gset PipelineParam)) (op : Op)
    (name : string) :
  order_valid ord →
  (name ∈ order_upstream_ops ord (op_name op)
            (op_upstream_op_names ord condition_params op)
   ↔ name ∈ op_dependent_names op
     ∨ ∃ param, param ∈ op_params ord condition_params op
                ∧ truthy (param_op_name param) = true
                ∧ param_op_name param = Some name).
Proof.
  intros Hord. rewrite (valid_upstream_ops ord Hord), elem_of_elements.
  unfold op_upstream_op_names.
  rewrite elem_of_union, elem_of_producer_names, elem_of_list_to_set. tauto.
Qed.

(** When the dependency lifter returns, every name that an op is to follow
    (the producer of one of its parameters or of its condition parameters,
    or one of its [dependent_names]) denotes an op or a group, and the edge
    between the first uncommon ancestors of the two is in the table. *)
Theorem op_dependency_recorded (ord : SetOrder) (pipeline : Pipeline)
    (root_group : Group) (op_groups opsgroups_groups : gmap string (list string))
    (opsgroups : list (string * Group))
    (condition_params : gmap string (gset PipelineParam))
    (deps : gmap string (gset string)) (key : string) (op : Op) (name : string) :
  order_valid ord →
  _get_dependencies ord pipeline root_group op_groups opsgroups_groups opsgroups
    condition_params = Ok deps →
  (key, op) ∈ pipeline_ops pipeline →
  (name ∈ op_dependent_names op
   ∨ ∃ param, param ∈ op_params ord condition_params op
              ∧ truthy (param_op_name param) = true
              ∧ param_op_name param = Some name) →
  ∃ upstream u d,
    find_upstream_of_op (pipeline_ops pipeline) opsgroups name = Ok upstream
    ∧ first_uncommon op_groups opsgroups_groups upstream (op_name op) u d
    ∧ u ∈ table_get deps d.
Proof.
  intros Hord Hrun Hop Hname. rewrite dependencies_unfold in Hrun.
  apply bind_Ok in Hrun as (deps1 & Hops & Hwalk).
  assert (Hle : table_le deps1 deps).
  { apply (dependency_opsgroup_invariant (table_le deps1)) with (3 := Hwalk);
      [| reflexivity].
    intros group n s s' _ _ Hs Hstep. etrans; [done |].
    by eapply group_dependency_step_le. }
  assert (Hop' : op ∈ (pipeline_ops pipeline).*2).
  { apply list_elem_of_fmap. by exists (key, op). }
  destruct (for_each_step table_le _ _ _ _ op
              (λ y s s' _, op_dependencies_loop_le _ _ _ _ y _ s s') Hops Hop')
    as (s1 & s2 & _ & Hinner & Hs2).
  apply (elem_of_upstream_op_names ord condition_params op name Hord) in Hname.
  destruct (for_each_step table_le _ _ _ _ name
              (λ y s s' _, op_dependency_step_le _ _ _ _ op y s s') Hinner Hname)
    as (t1 & t2 & _ & Hstep & Ht2).
  apply bind_Ok in Hstep as (upstream & Hfind & Hadd).
  apply add_dependency_Ok in Hadd as (u & d & Hfirst & ->).
  exists upstream, u, d. split; [done |]. split; [done |].
  apply Hle, Hs2, Ht2, elem_of_table_add. by right.
Qed.

Lemma op_dependency_recorded_witness :
  ∃ upstream u d,
    find_upstream_of_op (pipeline_ops cross_scope_pipeline)
      (_get_groups (pipeline_root cross_scope_pipeline)) "a" = Ok upstream
    ∧ first_uncommon
        (_get_groups_for_ops (pipeline_root cross_scope_pipeline))
        (_get_groups_for_opsgroups (pipeline_root cross_scope_pipeline))
        upstream "b" u d
    ∧ u ∈ table_get
            (dependencies_of (dependencies_run elements_order cross_scope_pipeline))
            d.
Proof.
  apply (op_dependency_recorded elements_order cross_scope_pipeline
           (pipeline_root cross_scope_pipeline)
           (_get_groups_for_ops (pipeline_root cross_scope_pipeline))
           (_get_groups_for_opsgroups (pipeline_root cross_scope_pipeline))
           (_get_groups (pipeline_root cross_scope_pipeline))
           (_get_condition_params_for_ops (pipeline_root cross_scope_pipeline))
           (dependencies_of (dependencies_run elements_order cross_scope_pipeline))
           "b" op_b "a").
  - apply elements_order_valid.
  - vm_cast_no_check
      (eq_refl (dependencies_run elements_order cross_scope_pipeline)).
  - right. left.
  - right. exists (output_of "a" "x"). split; [vm_compute; left | done].
Defined.

(** An op whose [dependent_names] hold a name that is neither a key of
    [pipeline.ops] nor a key of the table of groups makes the dependency
    lifter raise. *)
Theorem unknown_dependency_raises (ord : SetOrder) (pipeline : Pipeline)
    (root_group : Group) (op_groups opsgroups_groups : gmap string (list string))
    (opsgroups : list (string * Group))
    (condition_params : gmap string (gset PipelineParam)) (key : string)
    (op : Op) (name : string) :
  order_valid ord →
  (key, op) ∈ pipeline_ops pipeline →
  name ∈ op_dependent_names op →
  dict_get (pipeline_ops pipeline) name = None →
  dict_get opsgroups name = None →
  ∃ e, _get_dependencies ord pipeline root_group op_groups opsgroups_groups
         opsgroups condition_params = Raise e.
Proof.
  intros Hord Hop Hname Hops Hgroups. rewrite dependencies_unfold.
  assert (Hop' : op ∈ (pipeline_ops pipeline).*2).
  { apply list_elem_of_fmap. by exists (key, op). }
  destruct (for_each_raises
              (λ op deps,
                 for_each
                   (op_dependency_step (pipeline_ops pipeline) opsgroups
                      op_groups opsgroups_groups op)
                   (order_upstream_ops ord (op_name op)
                      (op_upstream_op_names ord condition_params op)) deps)
              _ op Hop') with (st := (∅ : gmap string (gset string)))
    as [e ->]; [| by exists e].
  apply (for_each_raises _ _ name).
  - apply (elem_of_upstream_op_names ord condition_params op name Hord).
    by left.
  - intros s. unfold op_dependency_step, find_upstream_of_op.
    rewrite Hops, Hgroups. by eexists.
Qed.

Lemma unknown_dependency_raises_witness :
  ∃ e, _get_dependencies elements_order unknown_dependency_pipeline
         (pipeline_root unknown_dependency_pipeline)
         (_get_groups_for_ops (pipeline_root unknown_dependency_pipeline))
         (_get_groups_for_opsgroups (pipeline_root unknown_dependency_pipeline))
         (_get_groups (pipeline_root unknown_dependency_pipeline))
         (_get_condition_params_for_ops
            (pipeline_root unknown_dependency_pipeline))
       = Raise e.
Proof.
  apply (unknown_dependency_raises elements_order unknown_dependency_pipeline
           (pipeline_root unknown_dependency_pipeline)
           (_get_groups_for_ops (pipeline_root unknown_dependency_pipeline))
           (_get_groups_for_opsgroups (pipeline_root unknown_dependency_pipeline))
           (_get_groups (pipeline_root unknown_dependency_pipeline))
           (_get_condition_params_for_ops
              (pipeline_root unknown_dependency_pipeline))
           "w" op_w "zz").
  - apply elements_order_valid.
  - left.
  - left.
  - reflexivity.
  - reflexivity.
Defined.

(** A group that is not a recursive call and that is to follow something
    that is not an op of [pipeline.ops] makes the dependency lifter raise:
    for the name of a group the entry of the ancestry table, a list, is
    taken for the group, and any other name is unknown. *)
Theorem group_dependency_raises (ord : SetOrder) (pipeline : Pipeline)
    (root_group : Group) (op_groups opsgroups_groups : gmap string (list string))
    (opsgroups : list (string * Group))
    (condition_params : gmap string (gset PipelineParam)) (group : Group)
    (name : string) :
  order_valid ord →
  group ∈ all_groups root_group →
  is_recursive group = false →
  name ∈ group_dependencies group →
  dict_get (pipeline_ops pipeline) name = None →
  ∃ e, _get_dependencies ord pipeline root_group op_groups opsgroups_groups
         opsgroups condition_params = Raise e.
Proof.
  intros Hord Hgroup Hrec Hname Hops. rewrite dependencies_unfold.
  destruct (for_each _ _ ∅) as [deps1|e]; simpl; [| by exists e].
  apply (dependency_opsgroup_raises _ _ _ _ _ group); [done |].
  apply (for_each_raises _ _ name).
  - rewrite (valid_upstream_groups ord Hord), elem_of_elements.
    unfold group_upstream_op_names. rewrite Hrec.
    by apply elem_of_list_to_set.
  - intros s. unfold group_dependency_step, find_upstream_of_group.
    rewrite Hops. destruct (opsgroups_groups !! name); by eexists.
Qed.

Lemma group_dependency_raises_witness :
  ∃ e, _get_dependencies elements_order group_dependency_pipeline
         (pipeline_root group_dependency_pipeline)
         (_get_groups_for_ops (pipeline_root group_dependency_pipeline))
         (_get_groups_for_opsgroups (pipeline_root group_dependency_pipeline))
         (_get_groups (pipeline_root group_dependency_pipeline))
         (_get_condition_params_for_ops
            (pipeline_root group_dependency_pipeline))
       = Raise e.
Proof.
  apply (group_dependency_raises elements_order group_dependency_pipeline
           (pipeline_root group_dependency_pipeline)
           (_get_groups_for_ops (pipeline_root group_dependency_pipeline))
           (_get_groups_for_opsgroups (pipeline_root group_dependency_pipeline))
           (_get_groups (pipeline_root group_dependency_pipeline))
           (_get_condition_params_for_ops
              (pipeline_root group_dependency_pipeline))
           group_after_group "h").
  - apply elements_order_valid.
  - vm_compute. right. right. left.
  - reflexivity.
  - left.
  - reflexivity.
Defined.
(** Every edge of the table joins the first uncommon ancestors of two
    entities, the downstream one an op of [pipeline.ops] or a group of the
    tree. *)
Definition edges_between_first_uncommon (pipeline : Pipeline) (root_group : Group)
    (op_groups opsgroups_groups : gmap string (list string))
    (deps : gmap string (gset string)) : Prop :=
  ∀ d u, u ∈ table_get deps d →
    ∃ upstream downstream,
      first_uncommon op_groups opsgroups_groups upstream downstream u d
      ∧ ((∃ op, op ∈ (pipeline_ops pipeline).*2 ∧ op_name op = downstream)
         ∨ (∃ g, g ∈ all_groups root_group ∧ group_name g = downstream)).

(** The dependency lifter records nothing else than edges between first
    uncommon ancestors: the two ends of an edge are never taken from
    different levels of the two ancestries. *)
Theorem dependencies_between_first_uncommon (ord : SetOrder)
    (pipeline : Pipeline) (root_group : Group)
    (op_groups opsgroups_groups : gmap string (list string))
    (opsgroups : list (string * Group))
    (condition_params : gmap string (gset PipelineParam))
    (deps : gmap string (gset string)) :
  _get_dependencies ord pipeline root_group op_groups opsgroups_groups opsgroups
    condition_params = Ok deps →
  edges_between_first_uncommon pipeline root_group op_groups opsgroups_groups
    deps.
Proof.
  intros Hrun. rewrite dependencies_unfold in Hrun.
  apply bind_Ok in Hrun as (deps1 & Hops & Hwalk).
  set (P := edges_between_first_uncommon pipeline root_group op_groups
              opsgroups_groups).
  assert (Hadd : ∀ upstream downstream s s',
            ((∃ op, op ∈ (pipeline_ops pipeline).*2 ∧ op_name op = downstream)
             ∨ (∃ g, g ∈ all_groups root_group ∧ group_name g = downstream)) →
            P s →
            add_dependency op_groups opsgroups_groups upstream downstream s
            = Ok s' →
            P s').
  { intros upstream downstream s s' Hdown Hs
      (u & d & Hfirst & ->)%add_dependency_Ok d' u'
      [? | [<- ->]]%elem_of_table_add; [by apply Hs |].
    by exists upstream, downstream. }
  assert (H1 : P deps1).
  { apply (for_each_invariant P _ _ _ _) with (3 := Hops).
    - intros op s s' Hop Hs Hinner.
      apply (for_each_invariant P _ _ _ _) with (3 := Hinner); [| done].
      intros name t t' _ Ht (upstream & _ & Hstep)%bind_Ok.
      apply (Hadd upstream (op_name op) t); [| done | done].
      left. by exists op.
    - intros d u Hu. rewrite table_get_empty in Hu.
      by apply not_elem_of_empty in Hu. }
  apply (dependency_opsgroup_invariant P) with (3 := Hwalk); [| done].
  intros group name s s' Hgroup _ Hs (upstream & _ & Hstep)%bind_Ok.
  apply (Hadd upstream (group_name group) s); [| done | done].
  right. by exists group.
Qed.

Lemma dependencies_between_first_uncommon_witness :
  edges_between_first_uncommon cross_scope_pipeline
    (pipeline_root cross_scope_pipeline)
    (_get_groups_for_ops (pipeline_root cross_scope_pipeline))
    (_get_groups_for_opsgroups (pipeline_root cross_scope_pipeline))
    (dependencies_of (dependencies_run elements_order cross_scope_pipeline)).
Proof.
  apply (dependencies_between_first_uncommon elements_order cross_scope_pipeline
           (pipeline_root cross_scope_pipeline)
           (_get_groups_for_ops (pipeline_root cross_scope_pipeline))
           (_get_groups_for_opsgroups (pipeline_root cross_scope_pipeline))
           (_get_groups (pipeline_root cross_scope_pipeline))
           (_get_condition_params_for_ops (pipeline_root cross_scope_pipeline))).
  vm_cast_no_check
    (eq_refl (dependencies_run elements_order cross_scope_pipeline)).
Defined.

(** ** The order of strings and the sort *)

Lemma ascii_compare_refl (c : Ascii.ascii) : Ascii.compare c c = Eq.
Proof. unfold Ascii.compare. apply N.compare_refl. Qed.

Lemma ascii_compare_lt_trans (a b c : Ascii.ascii) :
  Ascii.compare a b = Lt → Ascii.compare b c = Lt → Ascii.compare a c = Lt.
Proof.
  unfold Ascii.compare. rewrite !N.compare_lt_iff. apply N.lt_trans.
Qed.

Lemma string_compare_trans (a b c : string) :
  String.compare a b ≠ Gt → String.compare b c ≠ Gt → String.compare a c ≠ Gt.
Proof.
  revert b c. induction a as [|x a IH]; intros [|y b] [|z c]; simpl; try done.
  destruct (Ascii.compare x y) eqn:Hxy; [| | done].
  - apply Ascii.compare_eq_iff in Hxy as ->.
    destruct (Ascii.compare y z); [apply IH | done | done].
  - destruct (Ascii.compare y z) eqn:Hyz; [| | done].
    + apply Ascii.compare_eq_iff in Hyz as ->. by rewrite Hxy.
    + by rewrite (ascii_compare_lt_trans x y z).
Qed.

Lemma string_leb_trans (a b c : string) :
  String.leb a b = true → String.leb b c = true → String.leb a c = true.
Proof.
  unfold String.leb. intros Hab Hbc.
  pose proof (string_compare_trans a b c) as Hac.
  destruct (String.compare a b), (String.compare b c), (String.compare a c);
    try done; by destruct Hac.
Qed.

Lemma string_leb_false (a b : string) :
  String.leb a b = false → String.leb b a = true.
Proof.
  intros Hab. by destruct (String.leb_total a b) as [Hle | Hle];
    [rewrite Hle in Hab |].
Qed.

Lemma insert_by_sorted {A : Type} (key : A → string) (x : A) (l : list A) :
  sorted_by key l → sorted_by key (insert_by key x l).
Proof.
  unfold sorted_by. induction l as [|y l IH]; simpl; intros Hl.
  - by repeat constructor.
  - apply StronglySorted_inv in Hl as [Hl Hy].
    destruct (String.leb (key x) (key y)) eqn:Hxy.
    + constructor; [by constructor |]. constructor; [done |].
      eapply Forall_impl; [done |]. intros z Hz. by eapply string_leb_trans.
    + constructor; [by apply IH |].
      rewrite Forall_forall in Hy. apply Forall_forall. intros z Hz.
      rewrite insert_by_perm in Hz. apply elem_of_cons in Hz as [-> | Hz].
      * by apply string_leb_false.
      * by apply Hy.
Qed.

Lemma sort_by_sorted {A : Type} (key : A → string) (l : list A) :
  sorted_by key (sort_by key l).
Proof.
  induction l as [|x l IH]; simpl; [constructor | by apply insert_by_sorted].
Qed.

Global Instance string_leb_antisym :
  AntiSymm (=) (λ x y : string, String.leb x y = true).
Proof. intros x y. apply String.leb_antisym. Qed.

(** Sorted by themselves, two lists of the same strings are the same
    list. *)
Lemma sort_by_id_perm (l1 l2 : list string) :
  l1 ≡ₚ l2 → sort_by id l1 = sort_by id l2.
Proof.
  intros Hperm.
  apply (StronglySorted_unique (λ x y : string, String.leb x y = true)).
  - apply (sort_by_sorted id).
  - apply (sort_by_sorted id).
  - by rewrite !sort_by_perm.
Qed.

(** ** The tasks of a template *)

Lemma sub_group_tasks_unfold (ord : SetOrder) (inputs : gmap string (gset Ref))
    (dependencies : gmap string (gset string)) (subs : list SubGroup) :
  sub_group_tasks ord inputs dependencies subs
  = for_each (tasks_step ord inputs dependencies) subs ([], None).
Proof.
  unfold sub_group_tasks. apply for_each_ext. by intros sub [tasks index] _.
Qed.

(** The tasks that the loop leaves: those it started with, then one for
    each child, in the order of the children. *)
Lemma tasks_loop (ord : SetOrder) (inputs : gmap string (gset Ref))
    (dependencies : gmap string (gset string)) (subs : list SubGroup) :
  ∀ st st',
    for_each (tasks_step ord inputs dependencies) subs st = Ok st' →
    ∃ tasks,
      st'.1 = st.1 ++ tasks
      ∧ Forall2 (λ sub task,
                   ∃ index index',
                     sub_group_task ord inputs dependencies sub index
                     = Ok (task, index')) subs tasks.
Proof.
  induction subs as [|sub subs IH]; intros st st' Hrun; simpl in Hrun.
  - injection Hrun as <-. exists []. by rewrite app_nil_r.
  - apply bind_Ok in Hrun as (st1 & Hstep & Hrest).
    apply bind_Ok in Hstep as ([task index'] & Htask & [= <-]).
    destruct (IH _ _ Hrest) as (tasks & Heq & Hall). simpl in Heq.
    exists (task :: tasks). split; [by rewrite Heq, <- app_assoc |].
    constructor; [| done]. by exists st.2, index'.
Qed.

Lemma sub_group_task_name (ord : SetOrder) (inputs : gmap string (gset Ref))
    (dependencies : gmap string (gset string)) (sub : SubGroup)
    (index index' : option nat) (task : Task) :
  sub_group_task ord inputs dependencies sub index = Ok (task, index') →
  task_name task = task_name_of sub ∧ task_template task = task_name_of sub.
Proof.
  unfold sub_group_task. intros Hrun.
  apply bind_Ok in Hrun as ([arguments i] & _ & [= <- _]). done.
Qed.

(** The template of a group bears the name of the group and has one task
    for each child group and each child op, sorted by name; the name and
    the template of a task are the name of the child, or the name of the
    group that the child refers to when it is a recursive call. *)
Theorem template_tasks_of_children (ord : SetOrder) (group : Group)
    (inputs outputs : gmap string (gset Ref))
    (dependencies : gmap string (gset string)) (t : DagTemplate) :
  _group_to_template ord group inputs outputs dependencies = Ok t →
  template_name t = group_name group
  ∧ task_name <$> template_tasks t ≡ₚ task_name_of <$> sub_groups group
  ∧ sorted_by task_name (template_tasks t)
  ∧ Forall (λ task, task_template task = task_name task) (template_tasks t).
Proof.
  unfold _group_to_template. intros Hrun.
  apply bind_Ok in Hrun as ([tasks index] & Htasks & [= <-]). simpl.
  rewrite sub_group_tasks_unfold in Htasks.
  apply tasks_loop in Htasks as (tasks' & [= ->] & Hall). simpl in Hall.
  split; [done |]. split; [| split].
  - rewrite sort_by_perm.
    induction Hall as [|sub task subs tasks (i & i' & Htask) _ IH];
      [done |].
    simpl. apply sub_group_task_name in Htask as [-> _]. by rewrite IH.
  - apply sort_by_sorted.
  - apply Forall_forall. intros task Htask. rewrite sort_by_perm in Htask.
    apply list_elem_of_lookup in Htask as [j Hj].
    destruct (Forall2_lookup_r _ _ _ _ _ Hall Hj) as (sub & _ & i & i' & Hsub).
    by apply sub_group_task_name in Hsub as [-> ->].
Qed.

Lemma table_lookup_cases `{Countable A} (table : gmap string (gset A))
    (name : string) :
  table_lookup table name
  = if decide (table_get table name = ∅) then None
    else Some (table_get table name).
Proof.
  unfold table_lookup, table_get. destruct (table !! name) as [s|]; simpl.
  - by destruct (decide (s = ∅)).
  - by rewrite decide_True.
Qed.

Lemma sub_group_task_dependencies (ord : SetOrder)
    (inputs : gmap string (gset Ref)) (dependencies : gmap string (gset string))
    (sub : SubGroup) (index index' : option nat) (task : Task) :
  order_valid ord →
  sub_group_task ord inputs dependencies sub index = Ok (task, index') →
  task_dependencies task = sorted_dependencies dependencies (sub_group_name sub).
Proof.
  unfold sub_group_task, sorted_dependencies. intros Hord Hrun.
  apply bind_Ok in Hrun as ([arguments i] & _ & [= <- _]). simpl.
  rewrite table_lookup_cases. case_decide; [done |]. f_equal.
  apply sort_by_id_perm, (valid_dependencies ord Hord).
Qed.

(** The dependencies of every task of a template are the elements of the
    set that the table of dependencies holds for the child, sorted and
    each once, whatever the order in which the run walks the set; the key
    is absent when the set is empty. *)
Theorem task_dependencies_sorted (ord : SetOrder) (group : Group)
    (inputs outputs : gmap string (gset Ref))
    (dependencies : gmap string (gset string)) (t : DagTemplate) (task : Task) :
  order_valid ord →
  _group_to_template ord group inputs outputs dependencies = Ok t →
  task ∈ template_tasks t →
  ∃ sub,
    sub ∈ sub_groups group ∧ task_name task = task_name_of sub
    ∧ task_dependencies task
      = (if decide (table_get dependencies (sub_group_name sub) = ∅) then None
         else Some (sort_by id
                      (elements (table_get dependencies (sub_group_name sub)))))
    ∧ (∀ l, task_dependencies task = Some l →
            sorted_by id l ∧ NoDup l
            ∧ ∀ x, x ∈ l ↔ x ∈ table_get dependencies (sub_group_name sub)).
Proof.
  unfold _group_to_template. intros Hord Hrun Htask.
  apply bind_Ok in Hrun as ([tasks index] & Htasks & [= <-]). simpl in Htask.
  rewrite sub_group_tasks_unfold in Htasks.
  apply tasks_loop in Htasks as (tasks' & [= ->] & Hall). simpl in Hall.
  rewrite sort_by_perm in Htask. apply list_elem_of_lookup in Htask as [j Hj].
  destruct (Forall2_lookup_r _ _ _ _ _ Hall Hj) as (sub & Hsub & i & i' & Hrun).
  exists sub. split; [by eapply list_elem_of_lookup_2 |].
  split; [by apply sub_group_task_name in Hrun as [-> _] |].
  apply (sub_group_task_dependencies ord _ _ _ _ _ _ Hord) in Hrun.
  split; [done |]. intros l Hl. rewrite Hrun in Hl.
  unfold sorted_dependencies in Hl. case_decide; [done |].
  injection Hl as <-. split; [apply sort_by_sorted |]. split.
  - rewrite sort_by_perm. apply NoDup_elements.
  - intros x. by rewrite sort_by_perm, elem_of_elements.
Qed.

Lemma add_argument_plain (sub : SubGroup) (entries : list Ref) :
  recursive_subgroup sub = None →
  ∀ arguments index,
    for_each (add_argument sub) entries (arguments, index)
    = Ok (arguments ++ (argument_of <$> entries), index).
Proof.
  intros Hplain. induction entries as [|[param_name dependent_name] entries IH];
    intros arguments index; simpl.
  - by rewrite app_nil_r.
  - rewrite Hplain. simpl. rewrite IH. by rewrite <- app_assoc.
Qed.

(** A child that is not a recursive call never makes the synthesis raise,
    and leaves the variable [index] as it was.  Its task has no arguments
    when the child has no inputs; otherwise it has one argument for each
    input of the child, sorted by name: the argument is named after the
    input and reads the output of the sibling that the input names, or the
    input of the enclosing template when it names none. *)
Theorem plain_task_arguments (ord : SetOrder) (inputs : gmap string (gset Ref))
    (dependencies : gmap string (gset string)) (sub : SubGroup)
    (index : option nat) :
  order_valid ord →
  recursive_subgroup sub = None →
  ∃ task,
    sub_group_task ord inputs dependencies sub index = Ok (task, index)
    ∧ match task_arguments task with
      | Some arguments =>
          arguments
            ≡ₚ argument_of <$> elements (table_get inputs (sub_group_name sub))
          ∧ sorted_by entry_name arguments
          ∧ table_get inputs (sub_group_name sub) ≠ ∅
      | None => table_get inputs (sub_group_name sub) = ∅
      end.
Proof.
  intros Hord Hplain. unfold sub_group_task.
  rewrite (table_lookup_cases inputs).
  destruct (decide (table_get inputs (sub_group_name sub) = ∅)) as [Hempty | Hempty];
    simpl.
  - eexists. split; [done |]. done.
  - rewrite (add_argument_plain sub _ Hplain). simpl.
    eexists. split; [done |]. simpl. split; [| split; [| done]].
    + by rewrite sort_by_perm, (valid_inputs ord Hord).
    + apply sort_by_sorted.
Qed.

Lemma plain_task_arguments_witness :
  ∃ task,
    sub_group_task elements_order
      (tables_of (lifter_run elements_order cross_scope_pipeline)).1
      (dependencies_of (dependencies_run elements_order cross_scope_pipeline))
      (SubOp op_b) None = Ok (task, None)
    ∧ match task_arguments task with
      | Some arguments =>
          arguments
            ≡ₚ argument_of
                 <$> elements
                       (table_get
                          (tables_of
                             (lifter_run elements_order cross_scope_pipeline)).1
                          "b")
          ∧ sorted_by entry_name arguments
          ∧ table_get
              (tables_of (lifter_run elements_order cross_scope_pipeline)).1 "b"
            ≠ ∅
      | None =>
          table_get
            (tables_of (lifter_run elements_order cross_scope_pipeline)).1 "b"
          = ∅
      end.
Proof.
  apply (plain_task_arguments elements_order
           (tables_of (lifter_run elements_order cross_scope_pipeline)).1
           (dependencies_of (dependencies_run elements_order cross_scope_pipeline))
           (SubOp op_b) None).
  - apply elements_order_valid.
  - reflexivity.
Defined.

Lemma task_dependencies_sorted_witness :
  ∃ t, _group_to_template elements_order (pipeline_root cross_scope_pipeline)
         (tables_of (lifter_run elements_order cross_scope_pipeline)).1
         (tables_of (lifter_run elements_order cross_scope_pipeline)).2
         (dependencies_of (dependencies_run elements_order cross_scope_pipeline))
       = Ok t
       ∧ ∀ task, task ∈ template_tasks t →
           ∃ sub,
             sub ∈ sub_groups (pipeline_root cross_scope_pipeline)
             ∧ task_name task = task_name_of sub
             ∧ task_dependencies task
               = (if decide
                       (table_get
                          (dependencies_of
                             (dependencies_run elements_order cross_scope_pipeline))
                          (sub_group_name sub) = ∅)
                  then None
                  else Some
                         (sort_by id
                            (elements
                               (table_get
                                  (dependencies_of
                                     (dependencies_run elements_order
                                        cross_scope_pipeline))
                                  (sub_group_name sub)))))
             ∧ (∀ l, task_dependencies task = Some l →
                     sorted_by id l ∧ NoDup l
                     ∧ ∀ x, x ∈ l
                            ↔ x ∈ table_get
                                    (dependencies_of
                                       (dependencies_run elements_order
                                          cross_scope_pipeline))
                                    (sub_group_name sub)).
Proof.
  destruct (_group_to_template elements_order (pipeline_root cross_scope_pipeline)
              (tables_of (lifter_run elements_order cross_scope_pipeline)).1
              (tables_of (lifter_run elements_order cross_scope_pipeline)).2
              (dependencies_of
                 (dependencies_run elements_order cross_scope_pipeline)))
    as [t|e] eqn:Hrun.
  - exists t. split; [done |]. intros task.
    apply (task_dependencies_sorted elements_order
             (pipeline_root cross_scope_pipeline) _ _ _ t task
             elements_order_valid Hrun).
  - exfalso. revert Hrun. vm_compute. discriminate.
Defined.

Lemma template_tasks_of_children_witness :
  ∃ t, _group_to_template elements_order (pipeline_root cross_scope_pipeline)
         ∅ ∅ ∅ = Ok t
       ∧ template_name t = "p"
       ∧ task_name <$> template_tasks t ≡ₚ ["c"; "a"]
       ∧ sorted_by task_name (template_tasks t)
       ∧ Forall (λ task, task_template task = task_name task) (template_tasks t).
Proof.
  eexists. split; [vm_compute; reflexivity |].
  apply (template_tasks_of_children elements_order
           (pipeline_root cross_scope_pipeline) ∅ ∅ ∅).
  vm_compute. reflexivity.
Defined.

(** ** Volumes *)

Lemma volumes_loop (l : list Volume) (vs : list Volume) (names : gset string) :
  fold_left
    (λ '(volumes, volume_name_set) v,
       if decide (volume_name v ∈ (volume_name_set : gset string))
       then (volumes, volume_name_set)
       else (volumes ++ [v], {[volume_name v]} ∪ volume_name_set))
    l ([], ∅) = (vs, names) →
  (∀ n, n ∈ names ↔ ∃ w, w ∈ l ∧ volume_name w = n)
  ∧ NoDup (volume_name <$> vs)
  ∧ (∀ v, v ∈ vs ↔
          ∃ i, list_find (λ w, volume_name w = volume_name v) l = Some (i, v)).
Proof.
  revert vs names. induction l as [| x l IH] using rev_ind; intros vs names.
  - simpl. intros [= <- <-]. split; [| split].
    + intros n. split; [set_solver |]. by intros (w & ?%elem_of_nil & _).
    + constructor.
    + intros v. split; [by intros ?%elem_of_nil | by intros [i [=]]].
  - rewrite fold_left_app. simpl.
    destruct (fold_left _ l ([], ∅)) as [vs0 names0] eqn:Hfold.
    destruct (IH vs0 names0 eq_refl) as (Hnames & Hdup & Hvs). clear IH.
    assert (Hfound : ∀ v, volume_name v ∈ names0 →
              list_find (λ w, volume_name w = volume_name v) l ≠ None).
    { intros v (w & Hw & Hn)%Hnames Hnone.
      apply list_find_None in Hnone. rewrite Forall_forall in Hnone.
      by apply (Hnone w). }
    assert (Hmissing : ∀ v, volume_name v ∉ names0 →
              list_find (λ w, volume_name w = volume_name v) l = None).
    { intros v Hv. apply list_find_None, Forall_forall. intros w Hw Hn.
      apply Hv, Hnames. by exists w. }
    case_decide as Hx; intros [= <- <-]; (split; [| split]).
    + intros n. rewrite Hnames. split.
      * intros (w & Hw & Hn). exists w. split; [| done].
        apply elem_of_app. by left.
      * intros (w & [Hw | ->%list_elem_of_singleton]%elem_of_app & Hn).
        -- by exists w.
        -- apply Hnames. by rewrite <- Hn.
    + done.
    + intros v. rewrite Hvs. split.
      * intros [i Hi]. exists i. apply list_find_app_Some. by left.
      * intros [i [Hi | (_ & Hnone & Hi)]%list_find_app_Some]; [by exists i |].
        simpl in Hi. case_decide as Hxv; [| done].
        destruct (Hfound v); [by rewrite <- Hxv | done].
    + intros n. rewrite elem_of_union, elem_of_singleton, Hnames. split.
      * intros [-> | (w & Hw & Hn)].
        -- exists x. split; [| done]. apply elem_of_app. right. by left.
        -- exists w. split; [| done]. apply elem_of_app. by left.
      * intros (w & [Hw | ->%list_elem_of_singleton]%elem_of_app & Hn).
        -- right. by exists w.
        -- by left.
    + rewrite fmap_app. apply NoDup_app. split; [done |]. split.
      * intros n (v & -> & Hv)%list_elem_of_fmap Hn%list_elem_of_singleton.
        apply Hvs in Hv as [i Hi]. apply Hx, Hnames.
        apply list_find_Some in Hi as (Hi & _ & _).
        exists v. split; [by eapply list_elem_of_lookup_2 | done].
      * apply NoDup_singleton.
    + intros v. rewrite elem_of_app, Hvs, list_elem_of_singleton. split.
      * intros [[i Hi] | ->].
        -- exists i. apply list_find_app_Some. by left.
        -- exists (length l + 0). apply list_find_app_Some. right.
           split; [lia |]. split; [by apply Hmissing |].
           replace (length l + 0 - length l) with 0 by lia.
           simpl. by rewrite decide_True.
      * intros [i [Hi | (_ & Hnone & Hi)]%list_find_app_Some];
          [left; by exists i |].
        right. simpl in Hi. case_decide; [| done]. by injection Hi as _ <-.
Qed.

(** The volumes of the workflow are sorted by name and bear distinct names.
    A volume is among them exactly when it is the first one of its name
    among the volumes of all the ops: every name that an op declares is
    kept once, with the first volume that bears it. *)
Theorem volumes_first_of_each_name (pipeline : Pipeline) :
  sorted_by volume_name (_create_volumes pipeline)
  ∧ NoDup (volume_name <$> _create_volumes pipeline)
  ∧ (∀ v, v ∈ _create_volumes pipeline ↔
          ∃ i, list_find (λ w, volume_name w = volume_name v)
                 (declared_volumes pipeline) = Some (i, v))
  ∧ (∀ op w, op ∈ (pipeline_ops pipeline).*2 → w ∈ op_volumes op →
             volume_name w ∈ volume_name <$> _create_volumes pipeline).
Proof.
  unfold _create_volumes.
  destruct (fold_left _ _ ([], ∅)) as [vs names] eqn:Hfold.
  apply volumes_loop in Hfold as (Hnames & Hdup & Hvs).
  fold (declared_volumes pipeline) in Hnames, Hvs.
  split; [apply sort_by_sorted |]. split; [| split].
  - by rewrite sort_by_perm.
  - intros v. by rewrite elem_of_sort_by.
  - intros op w Hop Hw. rewrite sort_by_perm.
    assert (Hin : w ∈ declared_volumes pipeline).
    { unfold declared_volumes. apply list_elem_of_In, in_concat.
      exists (op_volumes op). split; [| by apply list_elem_of_In].
      apply in_map. by apply list_elem_of_In. }
    destruct (list_find (λ w', volume_name w' = volume_name w)
                (declared_volumes pipeline)) as [[i v] |] eqn:Hfind.
    + pose proof Hfind as (_ & Hn & _)%list_find_Some. rewrite <- Hn.
      apply list_elem_of_fmap. exists v. split; [done |].
      apply Hvs. exists i. by rewrite Hn.
    + apply list_find_None in Hfind. rewrite Forall_forall in Hfind.
      by destruct (Hfind w Hin).
Qed.

(** ** The exit handler check *)

Lemma validate_helper_unfold (group : Group) (names : list string) (h : bool) :
  _validate_exit_handler_helper group names h
  = (handler_exists ←
       match group_type group with
       | type_exit_handler _ =>
           if h || Nat.ltb 1 (length names)
           then Raise exit_handler_error
           else Ok true
       | _ => Ok h
       end;
     for_each
       (λ g names, _validate_exit_handler_helper g names handler_exists)
       (group_groups group) (names ++ map op_name (group_ops group))).
Proof. by destruct group. Qed.

Lemma ops_of_tree_unfold (g : Group) :
  ops_of_tree g
  = map op_name (group_ops g) ++ concat (map ops_of_tree (group_groups g)).
Proof. by destruct g. Qed.

Lemma for_each_raises_when {A S : Type} (P : S → Prop) (f : A → S → result S)
    (l : list A) (x : A) :
  x ∈ l →
  (∀ y s s', y ∈ l → P s → f y s = Ok s' → P s') →
  (∀ s, P s → ∃ e, f x s = Raise e) →
  ∀ st, P st → ∃ e, for_each f l st = Raise e.
Proof.
  induction l as [| y l IH]; [by intros ?%elem_of_nil |].
  intros Hx Hstep Hraise st Hst. simpl.
  destruct (f y st) as [s' | e] eqn:Hy; simpl; [| by exists e].
  apply elem_of_cons in Hx as [-> | Hx].
  - destruct (Hraise st Hst) as [e He]. congruence.
  - apply IH; [done | | done |].
    + intros z s s1 Hz. apply Hstep. by right.
    + eapply Hstep; [by left | done | done].
Qed.

Lemma validate_helper_result (g : Group) :
  ∀ names h,
    match _validate_exit_handler_helper g names h with
    | Ok names' => names' = names ++ ops_of_tree g
    | Raise e => e = exit_handler_error
    end.
Proof.
  induction g as [g IH] using Group_tree_ind. rewrite Forall_forall in IH.
  intros names h. rewrite validate_helper_unfold, ops_of_tree_unfold.
  rewrite (assoc_L (++)).
  assert (Hloop : ∀ h' names,
    match for_each (λ g names, _validate_exit_handler_helper g names h')
            (group_groups g) names with
    | Ok names' => names' = names ++ concat (map ops_of_tree (group_groups g))
    | Raise e => e = exit_handler_error
    end).
  { clear names h. intros h'.
    induction (group_groups g) as [| sub subs IHsubs]; intros names.
    - simpl. by rewrite (right_id_L [] (++)).
    - simpl. pose proof (IH sub (list_elem_of_here _ _) names h') as Hsub.
      destruct (_validate_exit_handler_helper sub names h') as [a | e]; simpl;
        [| done].
      subst a. rewrite (assoc_L (++)). apply IHsubs.
      intros x Hx. apply IH. by right. }
  destruct (group_type g); simpl; try apply Hloop.
  destruct (h || _); simpl; [done | apply Hloop].
Qed.

Lemma validate_helper_no_handler (g : Group) :
  count_exit_handlers g = 0 →
  ∀ names h,
    _validate_exit_handler_helper g names h = Ok (names ++ ops_of_tree g).
Proof.
  induction g as [g IH] using Group_tree_ind. rewrite Forall_forall in IH.
  intros Hcount names h. rewrite validate_helper_unfold, ops_of_tree_unfold.
  rewrite (assoc_L (++)).
  assert (Hg : is_exit_handler_group g = false
               ∧ ∀ sub, sub ∈ group_groups g → count_exit_handlers sub = 0).
  { destruct g as [n t gs os rr i d]. simpl in *.
    destruct (is_exit_handler_group _); [done |]. split; [done |].
    simpl in Hcount. clear IH. induction gs as [| g0 gs IHgs].
    - by intros ? ?%elem_of_nil.
    - simpl in Hcount. intros sub [-> | Hsub]%elem_of_cons; [lia |].
      apply IHgs; [lia | done]. }
  destruct Hg as [Htype Hsubs]. unfold is_exit_handler_group in Htype.
  destruct (group_type g); try done; simpl;
    generalize (names ++ map op_name (group_ops g)); clear names;
    induction (group_groups g) as [| sub subs IHsubs]; intros names; simpl;
    try (by rewrite (right_id_L [] (++)));
    (rewrite (IH sub), (assoc_L (++));
      [apply IHsubs | by left | apply Hsubs; by left];
      [intros x Hx; apply IH; by right
      | intros x Hx; apply Hsubs; by right]).
Qed.

Lemma validate_helper_names_length (g : Group) (names names' : list string)
    (h : bool) :
  _validate_exit_handler_helper g names h = Ok names' →
  (length names ≤ length names')%nat.
Proof.
  intros Hrun. pose proof (validate_helper_result g names h) as Hres.
  rewrite Hrun in Hres. subst names'. rewrite length_app. lia.
Qed.

(** Below a group that is reached with a handler on the way, or with more
    than one op collected, every [exit_handler] group is refused. *)
Lemma validate_helper_refuses (g g' : Group) :
  g' ∈ all_groups g → is_exit_handler_group g' = true →
  ∀ names h,
    h = true ∨ (1 < length names)%nat →
    ∃ e, _validate_exit_handler_helper g names h = Raise e.
Proof.
  induction g as [g IH] using Group_tree_ind. rewrite Forall_forall in IH.
  intros Hg' Hhandler names h Hcond. rewrite validate_helper_unfold.
  apply all_groups_unfold in Hg' as [-> | (sub & Hsub & Hg')].
  - unfold is_exit_handler_group in Hhandler.
    destruct (group_type g); try done.
    assert (h || Nat.ltb 1 (length names) = true) as ->; [| by eexists].
    destruct Hcond as [-> | Hlen]; [done |].
    apply orb_true_iff. right. by apply Nat.ltb_lt.
  - assert (Hloop : ∀ h' names',
      h' = true ∨ (1 < length names')%nat →
      ∃ e, for_each (λ g names, _validate_exit_handler_helper g names h')
             (group_groups g) names' = Raise e).
    { intros h' names' Hcond'.
      apply (for_each_raises_when
               (λ names, h' = true ∨ (1 < length names)%nat) _ _ sub);
        [done | | | done].
      - intros y s s' _ [? | Hlen] Hrun; [by left |]. right.
        apply validate_helper_names_length in Hrun. lia.
      - intros s Hs. by apply (IH sub Hsub Hg' Hhandler). }
    assert (Hcond' : ∀ h', h' = true ∨ h' = h →
              h' = true ∨ (1 < length (names ++ map op_name (group_ops g)))%nat).
    { intros h' [-> | ->]; [by left |].
      destruct Hcond as [-> | Hlen]; [by left |]. right.
      rewrite length_app. lia. }
    destruct (group_type g); simpl;
      try (apply Hloop, Hcond'; by right).
    destruct (h || _); simpl; [by eexists |].
    apply Hloop, Hcond'. by left.
Qed.

Lemma validate_helper_propagates (g g' : Group) :
  g' ∈ all_groups g →
  (∀ names h, ∃ e, _validate_exit_handler_helper g' names h = Raise e) →
  ∀ names h, ∃ e, _validate_exit_handler_helper g names h = Raise e.
Proof.
  induction g as [g IH] using Group_tree_ind. rewrite Forall_forall in IH.
  intros Hg' Hraise names h.
  apply all_groups_unfold in Hg' as [-> | (sub & Hsub & Hg')]; [done |].
  rewrite validate_helper_unfold.
  assert (Hloop : ∀ h' names',
    ∃ e, for_each (λ g names, _validate_exit_handler_helper g names h')
           (group_groups g) names' = Raise e).
  { intros h' names'. apply (for_each_raises _ _ sub); [done |].
    intros s. by apply (IH sub Hsub Hg' Hraise). }
  destruct (group_type g); simpl; try apply Hloop.
  destruct (h || _); simpl; [by eexists | apply Hloop].
Qed.

(** The list of names that the check threads through the calls grows by the
    names of the ops of the tree of the group, the ops of a group before
    those of its children; the only exception the check raises is the
    [ValueError] about the exit handler. *)
Theorem validate_collects_ops (group : Group) (names : list string)
    (handler_exists : bool) :
  match _validate_exit_handler_helper group names handler_exists with
  | Ok names' => names' = names ++ ops_of_tree group
  | Raise e => e = exit_handler_error
  end.
Proof. apply validate_helper_result. Qed.

(** A pipeline without any [exit_handler] group passes the check. *)
Theorem validate_no_handler_accepts (pipeline : Pipeline) :
  count_exit_handlers (pipeline_root pipeline) = 0 →
  _validate_exit_handler pipeline = Ok ().
Proof.
  intros Hcount. unfold _validate_exit_handler.
  by rewrite (validate_helper_no_handler _ Hcount).
Qed.

Lemma validate_no_handler_accepts_witness :
  _validate_exit_handler cross_scope_pipeline = Ok ().
Proof. apply validate_no_handler_accepts. reflexivity. Defined.

(** An [exit_handler] group inside another one is refused, wherever the
    two are in the tree. *)
Theorem validate_nested_handler_rejected (pipeline : Pipeline)
    (outer sub inner : Group) :
  outer ∈ all_groups (pipeline_root pipeline) →
  is_exit_handler_group outer = true →
  sub ∈ group_groups outer → inner ∈ all_groups sub →
  is_exit_handler_group inner = true →
  _validate_exit_handler pipeline = Raise exit_handler_error.
Proof.
  intros Houter Hotype Hsub Hinner Hitype.
  assert (Hraise : ∃ e, _validate_exit_handler_helper (pipeline_root pipeline)
                          [] false = Raise e).
  { apply (validate_helper_propagates _ outer); [done |].
    intros names h. rewrite validate_helper_unfold.
    unfold is_exit_handler_group in Hotype.
    destruct (group_type outer); try done.
    destruct (h || _); simpl; [by eexists |].
    apply (for_each_raises _ _ sub); [done |].
    intros s. apply (validate_helper_refuses sub inner); [done | done |].
    by left. }
  destruct Hraise as [e He]. unfold _validate_exit_handler.
  pose proof (validate_helper_result (pipeline_root pipeline) [] false) as Hres.
  rewrite He in Hres. subst e. by rewrite He.
Qed.

Lemma validate_nested_handler_rejected_witness :
  _validate_exit_handler nested_handlers_pipeline = Raise exit_handler_error.
Proof.
  apply (validate_nested_handler_rejected nested_handlers_pipeline
           (plain_group "h" (type_exit_handler op_e)
              [plain_group "g" (type_other "graph")
                 [plain_group "k" (type_exit_handler op_e) [] [op_b]] []]
              [op_a])
           (plain_group "g" (type_other "graph")
              [plain_group "k" (type_exit_handler op_e) [] [op_b]] [])
           (plain_group "k" (type_exit_handler op_e) [] [op_b])).
  - simpl. right. by left.
  - reflexivity.
  - simpl. by left.
  - simpl. right. by left.
  - reflexivity.
Defined.

(** When the root group holds two ops or more, an [exit_handler] group
    anywhere below it is refused: the handler is reached with more than one
    op collected. *)
Theorem validate_handler_after_ops_rejected (pipeline : Pipeline)
    (sub handler : Group) :
  (1 < length (group_ops (pipeline_root pipeline)))%nat →
  sub ∈ group_groups (pipeline_root pipeline) →
  handler ∈ all_groups sub → is_exit_handler_group handler = true →
  _validate_exit_handler pipeline = Raise exit_handler_error.
Proof.
  intros Hops Hsub Hhandler Htype.
  assert (Hraise : ∃ e, _validate_exit_handler_helper (pipeline_root pipeline)
                          [] false = Raise e).
  { rewrite validate_helper_unfold.
    assert (Hloop : ∀ h,
      ∃ e, for_each (λ g names, _validate_exit_handler_helper g names h)
             (group_groups (pipeline_root pipeline))
             ([] ++ map op_name (group_ops (pipeline_root pipeline)))
           = Raise e).
    { intros h.
      apply (for_each_raises_when (λ names, (1 < length names)%nat) _ _ sub);
        [done | | |].
      - intros y s s' _ Hlen Hrun.
        apply validate_helper_names_length in Hrun. lia.
      - intros s Hs. apply (validate_helper_refuses sub handler); [done.. |].
        by right.
      - simpl. by rewrite length_map. }
    destruct (group_type (pipeline_root pipeline)); simpl; apply Hloop. }
  destruct Hraise as [e He]. unfold _validate_exit_handler.
  pose proof (validate_helper_result (pipeline_root pipeline) [] false) as Hres.
  rewrite He in Hres. subst e. by rewrite He.
Qed.

Lemma validate_handler_after_ops_rejected_witness :
  _validate_exit_handler two_ops_pipeline = Raise exit_handler_error.
Proof.
  apply (validate_handler_after_ops_rejected two_ops_pipeline
           (plain_group "g" (type_other "graph")
              [plain_group "h" (type_exit_handler op_e) [] [op_b]] [])
           (plain_group "h" (type_exit_handler op_e) [] [op_b])).
  - simpl. lia.
  - simpl. by left.
  - simpl. right. by left.
  - reflexivity.
Defined.

(** ** References *)

Lemma filter_name_unique (l : list Ref) (n : string) (d : option string) :
  NoDup l.*1 → (n, d) ∈ l → filter (λ r : Ref, r.1 = n) l = [(n, d)].
Proof.
  induction l as [| [n0 d0] l IH]; [by intros _ ?%elem_of_nil |].
  simpl. intros [Hn0 Hl]%NoDup_cons Hin.
  assert (Hnone : n0 ∉ l.*1 → filter (λ r : Ref, r.1 = n0) l = []).
  { clear. intros Hn0. induction l as [| [n1 d1] l IH]; [done |].
    rewrite filter_cons. simpl. rewrite decide_False.
    - apply IH. intros ?. apply Hn0. by right.
    - intros ->. apply Hn0. by left. }
  rewrite filter_cons. simpl.
  apply elem_of_cons in Hin as [[= <- <-] | Hin].
  - rewrite decide_True by done. by rewrite Hnone.
  - rewrite decide_False; [by apply IH |].
    intros ->. apply Hn0. apply list_elem_of_fmap. by exists (n, d).
Qed.

Lemma filter_name_missing (l : list Ref) (n : string) :
  n ∉ l.*1 → filter (λ r : Ref, r.1 = n) l = [].
Proof.
  intros Hn. induction l as [| [n1 d1] l IH]; [done |].
  rewrite filter_cons. simpl. rewrite decide_False.
  - apply IH. intros ?. apply Hn. by right.
  - intros ->. apply Hn. by left.
Qed.

Lemma resolve_param_by_entry (param : PipelineParam) (l : list Ref) :
  NoDup l.*1 →
  (∀ d, (_pipelineparam_full_name param, d) ∈ l →
        _resolve_value_or_reference (OperandParam param) l
        = reference_of (_pipelineparam_full_name param) (Some d))
  ∧ (_pipelineparam_full_name param ∉ l.*1 →
     _resolve_value_or_reference (OperandParam param) l
     = reference_of (_pipelineparam_full_name param) None).
Proof.
  intros Hdup. split.
  - intros d Hd. unfold _resolve_value_or_reference.
    rewrite (filter_name_unique l _ d Hdup Hd). by destruct d.
  - intros Hmissing. unfold _resolve_value_or_reference.
    by rewrite (filter_name_missing l _ Hmissing).
Qed.

(** When the entries of the inputs of a group bear distinct names, a
    parameter resolves by the entry of its full name: to the output of the
    task the entry names, to the input of the template when the entry names
    none; and to the input of the template when there is no entry of its
    name. *)
Theorem resolve_by_entry (param : PipelineParam)
    (potential_references : list Ref) :
  NoDup potential_references.*1 →
  (∀ task_name,
     (_pipelineparam_full_name param, task_name) ∈ potential_references →
     _resolve_value_or_reference (OperandParam param) potential_references
     = reference_of (_pipelineparam_full_name param) (Some task_name))
  ∧ (_pipelineparam_full_name param ∉ potential_references.*1 →
     _resolve_value_or_reference (OperandParam param) potential_references
     = input_reference (_pipelineparam_full_name param)).
Proof. apply resolve_param_by_entry. Qed.

Lemma resolve_by_entry_witness :
  _resolve_value_or_reference (OperandParam (output_of "a" "x"))
    [("n", None); ("a-x", Some "a")]
  = "{{tasks.a.outputs.parameters.a-x}}".
Proof.
  destruct (resolve_by_entry (output_of "a" "x")
              [("n", None); ("a-x", Some "a")]) as [Hentry _].
  - apply (bool_decide_unpack _). reflexivity.
  - apply (Hentry (Some "a")). right. by left.
Defined.

(** When the entries bear distinct names, what a value or a parameter
    resolves to does not depend on their order. *)
Theorem resolve_order_independent (value_or_reference : Operand)
    (l1 l2 : list Ref) :
  NoDup l1.*1 → l1 ≡ₚ l2 →
  _resolve_value_or_reference value_or_reference l1
  = _resolve_value_or_reference value_or_reference l2.
Proof.
  intros Hdup Hperm. destruct value_or_reference as [param | s]; [| done].
  assert (Hdup2 : NoDup l2.*1) by by rewrite <- Hperm.
  destruct (resolve_param_by_entry param l1 Hdup) as [Hsome1 Hnone1].
  destruct (resolve_param_by_entry param l2 Hdup2) as [Hsome2 Hnone2].
  destruct (decide (_pipelineparam_full_name param ∈ l1.*1)) as [Hin | Hout].
  - apply list_elem_of_fmap in Hin as ([n d] & Hn & Hin). simpl in Hn. subst n.
    rewrite (Hsome1 d Hin). symmetry. apply Hsome2. by rewrite <- Hperm.
  - rewrite (Hnone1 Hout). symmetry. apply Hnone2. by rewrite <- Hperm.
Qed.

Lemma resolve_order_independent_witness :
  _resolve_value_or_reference (OperandParam (output_of "a" "x"))
    [("n", None); ("a-x", Some "a")]
  = _resolve_value_or_reference (OperandParam (output_of "a" "x"))
      [("a-x", Some "a"); ("n", None)].
Proof.
  apply resolve_order_independent.
  - apply (bool_decide_unpack _). reflexivity.
  - apply Permutation_swap.
Defined.

Lemma reverse_order_valid : order_valid reverse_order.
Proof. split; intros k s; apply reverse_Permutation. Qed.

(** ** Parameters of a template *)

(** The inputs of the template of a group are the names of the entries the
    table of inputs holds for the group, sorted, whatever the order in which
    the set is walked; its outputs are, sorted by name, one for each entry
    of the table of outputs, whose value reads the output of the task the
    entry names.  Either key is absent when the set is empty or missing. *)
Theorem template_parameters (ord : SetOrder) (group : Group)
    (inputs outputs : gmap string (gset Ref))
    (dependencies : gmap string (gset string)) (t : DagTemplate) :
  order_valid ord →
  _group_to_template ord group inputs outputs dependencies = Ok t →
  template_inputs t
  = (if decide (table_get inputs (group_name group) = ∅) then None
     else Some (sort_by id (elements (table_get inputs (group_name group))).*1))
  ∧ match template_outputs t with
    | Some entries =>
        table_get outputs (group_name group) ≠ ∅
        ∧ entries ≡ₚ output_entry <$> elements (table_get outputs (group_name group))
        ∧ sorted_by entry_name entries
    | None => table_get outputs (group_name group) = ∅
    end.
Proof.
  intros Hord Hrun. unfold _group_to_template in Hrun.
  apply bind_Ok in Hrun as ([tasks index] & _ & [= <-]). simpl.
  rewrite (table_lookup_cases inputs), (table_lookup_cases outputs). split.
  - case_decide; [done |]. f_equal. apply sort_by_id_perm.
    by rewrite (valid_inputs ord Hord).
  - case_decide as Hempty; [done |]. split; [done |]. split.
    + rewrite sort_by_perm, (map_ext _ output_entry) by (by intros [n d]).
      change (map output_entry) with (fmap (M:=list) output_entry).
      by rewrite (valid_outputs ord Hord).
    + apply sort_by_sorted.
Qed.

Lemma template_parameters_witness :
  ∃ t,
    _group_to_template elements_order condition_c inputs_of_c ∅ ∅ = Ok t
    ∧ template_inputs t = Some ["a-x"; "n"]
    ∧ template_outputs t = None.
Proof.
  destruct (_group_to_template elements_order condition_c inputs_of_c ∅ ∅)
    as [t | e] eqn:Hrun.
  - exists t. split; [done |].
    destruct (template_parameters elements_order condition_c inputs_of_c ∅ ∅ t
                elements_order_valid Hrun) as [Hin Hout].
    split.
    + rewrite Hin. vm_compute. reflexivity.
    + destruct (template_outputs t) as [entries |]; [| done].
      destruct Hout as [Hne _]. exfalso. apply Hne. reflexivity.
  - exfalso. revert Hrun. vm_compute. discriminate.
Defined.

(** ** Arguments of a recursive call *)

Lemma add_argument_recursive_step (g : Group) (ref : GroupRef)
    (param_name : string) (dependent_name : option string)
    (arguments : list ParameterEntry) (index : option nat)
    (i : nat) (input p : PipelineParam) :
  group_recursive_ref g = Some ref →
  list_find (λ input, param_name = _pipelineparam_full_name input)
    (group_inputs g) = Some (i, input) →
  ref_inputs ref !! i = Some p →
  add_argument (SubOpsGroup g) (param_name, dependent_name) (arguments, index)
  = Ok (arguments
          ++ [{| entry_name := _pipelineparam_full_name p;
                 entry_value :=
                   entry_value (argument_of (param_name, dependent_name)) |}],
        Some i).
Proof.
  intros Href Hfind Hp. unfold add_argument. simpl. rewrite Href.
  unfold search_input. rewrite Hfind. simpl. by rewrite Hp.
Qed.

Lemma add_argument_recursive (g : Group) (ref : GroupRef) (entries : list Ref) :
  group_recursive_ref g = Some ref →
  (∀ entry, entry ∈ entries → is_Some (callee_name g ref entry.1)) →
  ∀ arguments index,
    ∃ added index',
      for_each (add_argument (SubOpsGroup g)) entries (arguments, index)
      = Ok (arguments ++ added, index')
      ∧ Forall2 (recursive_argument g ref) entries added.
Proof.
  intros Href. induction entries as [| [param_name dependent_name] entries IH];
    intros Hmatch arguments index.
  - exists [], index. simpl. by rewrite app_nil_r.
  - destruct (Hmatch (param_name, dependent_name)) as [n Hn]; [by left |].
    unfold callee_name, declared_position in Hn. simpl in Hn.
    destruct (list_find _ (group_inputs g)) as [[i input] |] eqn:Hfind;
      [| done].
    simpl in Hn.
    destruct (ref_inputs ref !! i) as [p |] eqn:Hp; [| done].
    injection Hn as <-.
    destruct (IH (λ entry Hentry, Hmatch entry (list_elem_of_further _ _ _ Hentry))
                (arguments
                   ++ [{| entry_name := _pipelineparam_full_name p;
                          entry_value :=
                            entry_value (argument_of (param_name, dependent_name))
                       |}])
                (Some i))
      as (added & index' & Hrun & Hadded).
    eexists (_ :: added), index'. split.
    + change (for_each ?f (?x :: ?l) ?s) with (f x s ≫= for_each f l).
      rewrite (add_argument_recursive_step g ref _ _ _ _ i input p Href Hfind Hp).
      rewrite <- (assoc_L (++)) in Hrun. exact Hrun.
    + constructor; [| done]. split; [| done].
      unfold callee_name, declared_position. simpl. rewrite Hfind. simpl.
      by rewrite Hp.
Qed.

(** The task of a recursive call bears the name of the group that the call
    refers to.  When every entry of the inputs of the call is the full name
    of one of its declared inputs, at a position that the group referred to
    has, the task is rendered, and its arguments are, sorted by name, one
    for each entry: the argument is named after the input that the group
    referred to has at the position of the declared input, and its value
    reads the entry in the scope of the caller. *)
Theorem recursive_task_arguments (ord : SetOrder)
    (inputs : gmap string (gset Ref)) (dependencies : gmap string (gset string))
    (g : Group) (ref : GroupRef) (index : option nat) :
  order_valid ord →
  group_recursive_ref g = Some ref →
  (∀ entry, entry ∈ table_get inputs (group_name g) →
            is_Some (callee_name g ref entry.1)) →
  ∃ task index',
    sub_group_task ord inputs dependencies (SubOpsGroup g) index
    = Ok (task, index')
    ∧ task_name task = ref_name ref
    ∧ task_template task = ref_name ref
    ∧ match task_arguments task with
      | Some arguments =>
          table_get inputs (group_name g) ≠ ∅
          ∧ sorted_by entry_name arguments
          ∧ length arguments = size (table_get inputs (group_name g))
          ∧ ∀ arg, arg ∈ arguments ↔
                   ∃ entry, entry ∈ table_get inputs (group_name g)
                            ∧ recursive_argument g ref entry arg
      | None => table_get inputs (group_name g) = ∅
      end.
Proof.
  intros Hord Href Hmatch. unfold sub_group_task.
  rewrite (table_lookup_cases inputs). simpl. rewrite Href.
  destruct (decide (table_get inputs (group_name g) = ∅)) as [Hempty | Hempty];
    simpl.
  - by eexists _, _.
  - set (entries := order_inputs ord (group_name g)
                      (table_get inputs (group_name g))).
    assert (Hperm : entries ≡ₚ elements (table_get inputs (group_name g)))
      by apply (valid_inputs ord Hord).
    destruct (add_argument_recursive g ref entries Href) with
      (arguments := @nil ParameterEntry) (index := index)
      as (added & index' & Hrun & Hadded).
    { intros entry Hentry. apply Hmatch. apply elem_of_elements.
      by rewrite <- Hperm. }
    rewrite Hrun. simpl. eexists _, _. split; [done |]. simpl.
    split; [done |]. split; [done |]. split; [done |].
    split; [apply sort_by_sorted |]. split.
    + rewrite sort_by_perm. rewrite <- (Forall2_length _ _ _ Hadded).
      by rewrite Hperm.
    + intros arg. rewrite elem_of_sort_by. split.
      * intros (i & Hi)%list_elem_of_lookup.
        destruct (Forall2_lookup_r _ _ _ _ _ Hadded Hi) as (entry & Hentry & Harg).
        exists entry. split; [| done]. apply elem_of_elements.
        rewrite <- Hperm. by eapply list_elem_of_lookup_2.
      * intros (entry & Hentry & [Hname Hvalue]).
        apply elem_of_elements in Hentry. rewrite <- Hperm in Hentry.
        apply list_elem_of_lookup in Hentry as (i & Hi).
        destruct (Forall2_lookup_l _ _ _ _ _ Hadded Hi)
          as (arg' & Harg' & [Hname' Hvalue']).
        assert (arg = arg') as ->; [| by eapply list_elem_of_lookup_2].
        destruct arg as [n v], arg' as [n' v']. simpl in *. congruence.
Qed.

Lemma recursive_task_arguments_witness :
  ∃ task index',
    sub_group_task elements_order inputs_of_r ∅ (SubOpsGroup recursive_call) None
    = Ok (task, index')
    ∧ task_name task = "g"
    ∧ ∀ arg, arg ∈ default [] (task_arguments task) →
             arg = {| entry_name := "n";
                      entry_value := "{{tasks.f.outputs.parameters.f-x}}" |}.
Proof.
  assert (Hr : table_get inputs_of_r (group_name recursive_call)
               = {[("f-x", Some "f")]}).
  { apply (bool_decide_unpack _). vm_compute. exact I. }
  destruct (recursive_task_arguments elements_order inputs_of_r ∅
              recursive_call {| ref_name := "g"; ref_inputs := [pipeline_param "n"] |}
              None elements_order_valid eq_refl)
    as (task & index' & Hrun & Hname & _ & Hargs).
  - intros entry Hentry. rewrite Hr in Hentry.
    apply elem_of_singleton_1 in Hentry as ->. by eexists.
  - exists task, index'. split; [done |]. split; [done |].
    intros arg Harg.
    destruct (task_arguments task) as [arguments |];
      [| by apply elem_of_nil in Harg].
    destruct Hargs as (_ & _ & _ & Hargs).
    apply Hargs in Harg as (entry & Hentry & [Hn Hv]).
    rewrite Hr in Hentry. apply elem_of_singleton_1 in Hentry as ->.
    destruct arg as [n v]. simpl in *. injection Hn as <-. by subst v.
Defined.

(** A recursive call without declared inputs, reached before the variable
    [index] was ever bound, cannot be rendered once the table of inputs
    holds an entry for it: the search leaves [index] unbound. *)
Theorem recursive_task_unbound_index (ord : SetOrder)
    (inputs : gmap string (gset Ref)) (dependencies : gmap string (gset string))
    (g : Group) (ref : GroupRef) :
  order_valid ord →
  group_recursive_ref g = Some ref →
  group_inputs g = [] →
  table_get inputs (group_name g) ≠ ∅ →
  sub_group_task ord inputs dependencies (SubOpsGroup g) None
  = Raise UnboundLocalError.
Proof.
  intros Hord Href Hinputs Hentries. unfold sub_group_task.
  rewrite (table_lookup_cases inputs). simpl.
  rewrite decide_False by done.
  pose proof (valid_inputs ord Hord (group_name g)
                (table_get inputs (group_name g))) as Hperm.
  destruct (order_inputs ord (group_name g) (table_get inputs (group_name g)))
    as [| [param_name dependent_name] entries].
  - symmetry in Hperm. apply Permutation_nil_r in Hperm.
    by apply elements_empty_inv, leibniz_equiv in Hperm.
  - cbn [for_each]. unfold add_argument at 1. simpl. rewrite Href.
    unfold search_input. by rewrite Hinputs.
Qed.

Lemma recursive_task_unbound_index_witness :
  sub_group_task elements_order inputs_of_r ∅ (SubOpsGroup bare_call) None
  = Raise UnboundLocalError.
Proof.
  apply (recursive_task_unbound_index elements_order inputs_of_r ∅ bare_call
           {| ref_name := "g"; ref_inputs := [pipeline_param "n"] |}
           elements_order_valid eq_refl eq_refl).
  apply (bool_decide_unpack _). vm_compute. exact I.
Defined.

(** ** The list of templates *)

Lemma dict_get_is_Some {V : Type} (d : list (string * V)) (k : string) :
  is_Some (dict_get d k) ↔ k ∈ d.*1.
Proof.
  induction d as [| [k0 v0] d IH]; simpl.
  - split; [by intros [? [=]] | by intros ?%elem_of_nil].
  - destruct (String.eqb_spec k0 k) as [-> | Hne].
    + split; [intros _; by left | by eexists].
    + rewrite IH. split; [by right |].
      by intros [? | ?]%elem_of_cons.
Qed.

Lemma group_to_template_name (ord : SetOrder) (group : Group)
    (inputs outputs : gmap string (gset Ref))
    (dependencies : gmap string (gset string)) (t : DagTemplate) :
  _group_to_template ord group inputs outputs dependencies = Ok t →
  template_name t = group_name group.
Proof.
  unfold _group_to_template. by intros ([tasks i] & _ & [= <-])%bind_Ok.
Qed.

Lemma group_templates_loop (ord : SetOrder)
    (inputs outputs : gmap string (gset Ref))
    (dependencies : gmap string (gset string)) (gs : list (string * Group)) :
  ∀ acc templates,
    for_each
      (λ '(_, opsgroup) templates,
         template ← _group_to_template ord opsgroup inputs outputs dependencies;
         Ok (templates ++ [GroupTemplate template]))
      gs acc = Ok templates →
    ∃ group_templates,
      templates = acc ++ (GroupTemplate <$> group_templates)
      ∧ template_name <$> group_templates = (λ kv, group_name kv.2) <$> gs.
Proof.
  induction gs as [| [k g] gs IH]; intros acc templates; simpl.
  - intros [= <-]. exists []. by rewrite app_nil_r.
  - intros (acc' & Hstep & Hrest)%bind_Ok.
    apply bind_Ok in Hstep as (t & Ht & [= <-]).
    apply IH in Hrest as (group_templates & -> & Hnames).
    exists (t :: group_templates). split.
    + by rewrite <- (assoc_L (++)).
    + simpl. f_equal; [by eapply group_to_template_name | done].
Qed.

(** The templates come in two runs: first one template for each group of
    the table of groups, in the order of the table and named after the
    group, then what the handler makes of each op of [pipeline.ops], in the
    order of the dictionary, after the transformers.  The names of the
    templates of the groups are distinct, and are the names of the groups
    that the walk reaches. *)
Theorem templates_of_groups_then_ops (ord : SetOrder) (ext : Collaborators)
    (pipeline : Pipeline) (op_transformers : list (Op → Op))
    (templates : list Template) :
  _create_templates ord ext pipeline op_transformers = Ok templates →
  ∃ group_templates,
    templates
    = (GroupTemplate <$> group_templates)
      ++ (_op_to_template ext
            <$> (apply_transformers op_transformers (pipeline_ops pipeline)).*2)
    ∧ template_name <$> group_templates
      = (_get_groups (pipeline_root pipeline)).*1
    ∧ NoDup (template_name <$> group_templates)
    ∧ ∀ n, n ∈ template_name <$> group_templates
           ↔ ∃ g, g ∈ walked_groups (pipeline_root pipeline) ∧ group_name g = n.
Proof.
  unfold _create_templates. simpl.
  intros ([inputs outputs] & _ & Hrun)%bind_Ok.
  apply bind_Ok in Hrun as (dependencies & _ & Hrun).
  apply bind_Ok in Hrun as (created & Hloop & [= <-]).
  apply group_templates_loop in Hloop as (group_templates & -> & Hnames).
  destruct (groups_helper_table (pipeline_root pipeline))
    as (Helem & Hkeys & Hget).
  assert (Hnames' : template_name <$> group_templates
                    = (_get_groups (pipeline_root pipeline)).*1).
  { rewrite Hnames. apply list_fmap_ext. intros i [k g] Hi. simpl.
    symmetry. apply (Helem k g). by eapply list_elem_of_lookup_2. }
  exists group_templates. split; [done |]. split; [done |].
  rewrite Hnames'. split; [done |].
  intros n. rewrite <- Hget. symmetry. apply dict_get_is_Some.
Qed.

Lemma templates_of_groups_then_ops_witness :
  ∃ group_templates,
    templates_of (_create_templates elements_order container_handler
                    cross_scope_pipeline [])
    = (GroupTemplate <$> group_templates)
      ++ [OpTemplate "a" "container"; OpTemplate "b" "container"]
    ∧ template_name <$> group_templates = ["p"; "c"].
Proof.
  destruct (templates_of_groups_then_ops elements_order container_handler
              cross_scope_pipeline []
              (templates_of (_create_templates elements_order container_handler
                               cross_scope_pipeline [])))
    as (group_templates & Htemplates & Hnames & _).
  - vm_cast_no_check
      (eq_refl (Ok (templates_of (_create_templates elements_order
                                    container_handler cross_scope_pipeline [])))).
  - exists group_templates. split; [exact Htemplates | exact Hnames].
Defined.

(** ** The workflow *)

(** The workflow is made exactly when the templates are, and the exception
    of the templates is that of the workflow.  Its templates are the ones
    made, sorted by name; the generated name is the entry point followed by
    a dash; there is one argument for each parameter of the pipeline
    function, in their order; image pull secrets and deadline are left out
    exactly when the configuration has no secret and no timeout. *)
Theorem workflow_of_templates (ord : SetOrder) (ext : Collaborators)
    (args : list PipelineParam) (pipeline : Pipeline)
    (op_transformers : list (Op → Op)) :
  match _create_templates ord ext pipeline op_transformers with
  | Ok created =>
      ∃ w,
        _create_pipeline_workflow ord ext args pipeline op_transformers = Ok w
        ∧ templates w ≡ₚ created
        ∧ sorted_by name_of_template (templates w)
        ∧ generateName w = entrypoint w +:+ "-"
        ∧ input_name <$> arguments w = param_name <$> args
        ∧ input_value <$> arguments w = param_value <$> args
        ∧ (imagePullSecrets w = None
           ↔ image_pull_secrets (pipeline_conf pipeline) = [])
        ∧ (activeDeadlineSeconds w = None
           ↔ timeout (pipeline_conf pipeline) = 0)
  | Raise e =>
      _create_pipeline_workflow ord ext args pipeline op_transformers = Raise e
  end.
Proof.
  unfold _create_pipeline_workflow.
  destruct (_create_templates ord ext pipeline op_transformers)
    as [created | e]; simpl; [| done].
  eexists. split; [done |]. simpl.
  split; [apply sort_by_perm |]. split; [apply sort_by_sorted |].
  split; [done |].
  split; [by rewrite <- list_fmap_compose |].
  split; [by rewrite <- list_fmap_compose |]. split.
  - by destruct (image_pull_secrets (pipeline_conf pipeline)).
  - by destruct (timeout (pipeline_conf pipeline)).
Qed.

(** ** Immediate values that are empty *)


(** ** Conditions around a recursive call *)


(** ** The condition of a task *)

Lemma resolve_permutation (value_or_reference : Operand) (l1 l2 : list Ref) :
  NoDup l1.*1 → l1 ≡ₚ l2 →
  _resolve_value_or_reference value_or_reference l1
  = _resolve_value_or_reference value_or_reference l2.
Proof.
  intros Hdup Hperm. destruct value_or_reference as [param | s]; [| done].
  assert (Hdup2 : NoDup l2.*1) by by rewrite <- Hperm.
  destruct (resolve_param_by_entry param l1 Hdup) as [Hsome1 Hnone1].
  destruct (resolve_param_by_entry param l2 Hdup2) as [Hsome2 Hnone2].
  destruct (decide (_pipelineparam_full_name param ∈ l1.*1)) as [Hin | Hout].
  - apply list_elem_of_fmap in Hin as ([n d] & Hn & Hin). simpl in Hn. subst n.
    rewrite (Hsome1 d Hin). symmetry. apply Hsome2. by rewrite <- Hperm.
  - rewrite (Hnone1 Hout). symmetry. apply Hnone2. by rewrite <- Hperm.
Qed.

(** The task of a child has a [when] exactly when the child is a condition.
    It is then made of the two operands around the operator, separated by
    spaces, the operands resolved against the inputs of the condition in
    the order in which the run walks that set.  When these inputs bear
    distinct names the order does not matter: the [when] is the one that
    any listing of the set gives. *)
Theorem task_when_of_condition (ord : SetOrder)
    (inputs : gmap string (gset Ref)) (dependencies : gmap string (gset string))
    (sub : SubGroup) (index index' : option nat) (task : Task) :
  order_valid ord →
  sub_group_task ord inputs dependencies sub index = Ok (task, index') →
  (is_Some (task_when task)
   ↔ ∃ g condition, sub = SubOpsGroup g
                    ∧ group_type g = type_condition condition)
  ∧ (∃ references,
       references ≡ₚ elements (table_get inputs (sub_group_name sub))
       ∧ task_when task = when_with references sub)
  ∧ (NoDup (elements (table_get inputs (sub_group_name sub))).*1 →
     ∀ references,
       references ≡ₚ elements (table_get inputs (sub_group_name sub)) →
       task_when task = when_with references sub).
Proof.
  intros Hord Hrun. unfold sub_group_task in Hrun.
  apply bind_Ok in Hrun as ([arguments i] & _ & [= <- _]). simpl.
  set (walked := order_inputs ord (sub_group_name sub)
                   (table_get inputs (sub_group_name sub))).
  assert (Hwalked : walked ≡ₚ elements (table_get inputs (sub_group_name sub)))
    by apply (valid_inputs ord Hord).
  assert (Hwhen : match sub with
                  | SubOpsGroup g =>
                      match group_type g with
                      | type_condition condition =>
                          Some (_resolve_value_or_reference (operand1 condition)
                                  match inputs !! group_name g with
                                  | Some s => order_inputs ord (group_name g) s
                                  | None => []
                                  end
                                  +:+ " " +:+ operator condition +:+ " "
                                  +:+ _resolve_value_or_reference
                                        (operand2 condition)
                                        match inputs !! group_name g with
                                        | Some s =>
                                            order_inputs ord (group_name g) s
                                        | None => []
                                        end)
                      | _ => None
                      end
                  | SubOp _ => None
                  end = when_with walked sub).
  { destruct sub as [g | op]; [| done]. simpl in *.
    destruct (group_type g) as [| condition | |]; try done.
    assert (match inputs !! group_name g with
            | Some s => order_inputs ord (group_name g) s
            | None => []
            end = walked) as ->; [| done].
    unfold walked, table_get in *.
    destruct (inputs !! group_name g) as [s |]; simpl in *; [done |].
    rewrite elements_empty in Hwalked. symmetry.
    by apply Permutation_nil_r. }
  rewrite Hwhen. clear Hwhen. split; [| split].
  - destruct sub as [g | op]; simpl.
    + destruct (group_type g) as [| condition | |] eqn:Htype; simpl;
        try (split; [by intros [? [=]]
                    | intros (g0 & c0 & [= <-] & Hc); congruence]).
      split; [intros _; by exists g, condition | intros _; by eexists].
    + split; [by intros [? [=]] | by intros (? & ? & [=] & _)].
  - by exists walked.
  - intros Hdup references Hreferences.
    assert (Hperm : references ≡ₚ walked) by by rewrite Hwalked.
    assert (Hdup' : NoDup references.*1) by by rewrite Hreferences.
    destruct sub as [g | op]; [| done]. simpl.
    destruct (group_type g) as [| condition | |]; try done.
    by rewrite <- !(resolve_permutation _ _ _ Hdup' Hperm).
Qed.

Lemma task_when_of_condition_witness :
  ∃ task index,
    sub_group_task reverse_order inputs_of_c ∅ (SubOpsGroup condition_c) None
    = Ok (task, index)
    ∧ task_when task = Some "{{tasks.a.outputs.parameters.a-x}} == v".
Proof.
  destruct (sub_group_task reverse_order inputs_of_c ∅
              (SubOpsGroup condition_c) None) as [[task index] | e] eqn:Hrun.
  - exists task, index. split; [done |].
    destruct (task_when_of_condition reverse_order inputs_of_c ∅
                (SubOpsGroup condition_c) None index task
                reverse_order_valid Hrun) as (_ & _ & Hwhen).
    rewrite (Hwhen) with (references := elements (table_get inputs_of_c "c")).
    + vm_compute. reflexivity.
    + apply (bool_decide_unpack _). vm_compute. exact I.
    + done.
  - exfalso. revert Hrun. vm_compute. discriminate.
Defined.
